(** * InfiniGen / FlexGen tiered tensor backend (pytorch_backend.py)

    A shallow embedding of the tier model, the copy engine, the disk
    worker queue and the index arithmetic of the attention, embedding and
    output stages of [speedup/flexgen/infinigen/pytorch_backend.py].

    Conventions.
    - Python integers are [Z].  A Python float is a [pyfloat]: a finite
      binary64 value kept as a rational, an infinity or NaN; products and
      quotients of Python numbers are rounded to binary64.  The entries
      of attention-score and logit tensors, which are only compared with
      one another, are rationals [Q].
    - A Python exception is a value of [exn]; a call that may raise
      returns [result A].
    - Python objects that are mutated in place (tensor handles) live in an
      object store and are referred to by address. *)

From Stdlib Require Import ZArith QArith Qround Qabs Lia.
From stdpp Require Import gmap strings list pretty sorting.

Open Scope Z_scope.
Set Warnings "-register-all".

(** ** Exceptions *)

Inductive exn : Type :=
| AssertionError (msg : string)
| AttributeError
| IndexError
| TypeError
| ValueError
| RuntimeError
| FileNotFoundError
| ZeroDivisionError
| RecursionError
| OverflowError.

Definition result (A : Type) : Type := (exn + A)%type.

Definition ret {A} (x : A) : result A := inr x.
Definition raise {A} (e : exn) : result A := inl e.

Definition bind {A B} (m : result A) (k : A -> result B) : result B :=
  match m with
  | inl e => inl e
  | inr x => k x
  end.

Notation "'let!' x ':=' m 'in' k" := (bind m (fun x => k))
  (at level 10, x name, m at level 100, k at level 200).
Notation "'let!' ' p ':=' m 'in' k" :=
  (bind m (fun x => match x with p => k end))
  (at level 10, p strict pattern, m at level 100, k at level 200).
Notation "m ;;; k" := (bind m (fun _ => k))
  (at level 100, k at level 200, right associativity).

(** A loop that stops at the first exception. *)
Fixpoint map_result {A B} (f : A -> result B) (xs : list A)
  : result (list B) :=
  match xs with
  | [] => ret []
  | x :: rest =>
      let! y := f x in
      let! ys := map_result f rest in
      ret (y :: ys)
  end.

(** [assert cond, msg] *)
Definition py_assert (cond : bool) (msg : string) : result unit :=
  if cond then ret tt else raise (AssertionError msg).

(** [xs[i]] on a tuple or list, for a non-negative literal index. *)
Definition py_getitem {A} (xs : list A) (i : nat) : result A :=
  match xs !! i with
  | Some x => ret x
  | None => raise IndexError
  end.

(** ** Python floats

    IEEE 754 binary64 with round to nearest, ties to even, as CPython
    computes with [float]. *)

Inductive pyfloat : Type :=
| Finite (q : Q)
| PosInf
| NegInf
| NaN.

(** The integer nearest to [x], the even one of two at equal distance. *)
Definition round_half_even (x : Q) : Z :=
  let f := Qfloor x in
  match (x - inject_Z f ?= 1 # 2)%Q with
  | Lt => f
  | Gt => f + 1
  | Eq => if Z.even f then f else f + 1
  end.

(** [2 ^ e] for an integer exponent. *)
Definition pow2 (e : Z) : Q :=
  if 0 <=? e then inject_Z (2 ^ e) else (1 / inject_Z (2 ^ (- e)))%Q.

(** [floor(log2 x)] for a positive [x]. *)
Definition exponent (x : Q) : Z :=
  if Qle_bool 1 x then Z.log2 (Qfloor x)
  else - Z.log2_up (Qceiling (/ x)).

(** The binary64 value of a real: 53 significant bits, so the values
    around [x] of exponent [e] are [2 ^ (e - 52)] apart ([e] is at least
    -1022, below which the values are subnormal), and a result of
    magnitude [2 ^ 1024] or more is an infinity. *)
Definition binary64 (x : Q) : pyfloat :=
  if Qeq_bool x 0 then Finite 0
  else
    let a := Qabs x in
    let e := Z.max (exponent a) (-1022) in
    let ulp := pow2 (e - 52) in
    let r := (inject_Z (round_half_even (a / ulp)) * ulp)%Q in
    if Qle_bool (pow2 1024) r
    then (if Qle_bool 0 x then PosInf else NegInf)
    else Finite (if Qle_bool 0 x then r else - r)%Q.

(** [float(n)] for an integer, as the arithmetic operators convert it. *)
Definition float_of_int (n : Z) : result pyfloat :=
  match binary64 (inject_Z n) with
  | Finite q => ret (Finite q)
  | _ => raise OverflowError
  end.

(** [a * b] on floats. *)
Definition float_mul (a b : pyfloat) : pyfloat :=
  let sign_of (q : Q) : comparison := (q ?= 0)%Q in
  let inf_times (positive : bool) (c : comparison) : pyfloat :=
    match c with
    | Eq => NaN
    | Gt => if positive then PosInf else NegInf
    | Lt => if positive then NegInf else PosInf
    end in
  match a, b with
  | NaN, _ | _, NaN => NaN
  | Finite x, Finite y => binary64 (x * y)
  | Finite x, PosInf | PosInf, Finite x => inf_times true (sign_of x)
  | Finite x, NegInf | NegInf, Finite x => inf_times false (sign_of x)
  | PosInf, PosInf | NegInf, NegInf => PosInf
  | PosInf, NegInf | NegInf, PosInf => NegInf
  end.

(** [x * n] for a float and an integer. *)
Definition float_mul_int (x : pyfloat) (n : Z) : result pyfloat :=
  let! y := float_of_int n in ret (float_mul x y).

(** [x / y] on integers: the quotient, correctly rounded. *)
Definition int_true_div (x y : Z) : result pyfloat :=
  if y =? 0 then raise ZeroDivisionError
  else
    match binary64 (inject_Z x / inject_Z y) with
    | Finite q => ret (Finite q)
    | _ => raise OverflowError
    end.

(** [int(x)] on a float: truncation towards zero. *)
Definition py_int (x : pyfloat) : result Z :=
  match x with
  | Finite q => ret (if Qle_bool 0 q then Qfloor q else Qceiling q)
  | PosInf | NegInf => raise OverflowError
  | NaN => raise ValueError
  end.

(** [a <= b] on floats: false when either is NaN. *)
Definition float_le (a b : pyfloat) : bool :=
  match a, b with
  | NaN, _ | _, NaN => false
  | Finite x, Finite y => Qle_bool x y
  | NegInf, _ | _, PosInf => true
  | PosInf, _ | Finite _, NegInf => false
  end.

(** [a < b] on floats: false when either is NaN. *)
Definition float_lt (a b : pyfloat) : bool :=
  match a, b with
  | NaN, _ | _, NaN => false
  | Finite x, Finite y => negb (Qle_bool y x)
  | NegInf, NegInf | PosInf, _ => false
  | NegInf, _ | Finite _, PosInf => true
  | Finite _, NegInf => false
  end.

(** ** Slices and index tuples *)

(** [slice(start, stop, step)]; the bounds are integers wherever this
    module builds or takes apart a slice. *)
Record slice : Type := Slice {
  start : Z;
  stop : Z;
  step : option Z
}.

(** [slice(a, b)] *)
Definition slice2 (a b : Z) : slice := Slice a b None.

Definition step_is_None (x : slice) : bool :=
  match step x with None => true | Some _ => false end.

(** Segment dimension for tensors stored on TorchMixedDevice. *)
Definition SEG_DIM : nat := 1%nat.

(** [cut_indices(indices, start, stop, base=0)] *)
Definition cut_indices (indices : list slice) (start_ stop_ : Z) (base : Z)
  : result (list slice) :=
  py_assert (forallb step_is_None indices) "" ;;;
  let! seg := py_getitem indices SEG_DIM in
  ret (take SEG_DIM indices
       ++ [slice2 (Z.max (start seg) start_ - base)
                  (Z.min (stop seg) stop_ - base)]
       ++ drop (S SEG_DIM) indices).

(** [tuple(slice(0, x) for x in shape)] *)
Definition full_indices (shape : list Z) : list slice :=
  map (fun x => slice2 0 x) shape.

(** [indices or tuple(slice(0, x) for x in shape)]: [None] and the empty
    tuple are both falsy. *)
Definition indices_or (indices : option (list slice)) (shape : list Z)
  : list slice :=
  match indices with
  | Some (x :: xs) => x :: xs
  | _ => full_indices shape
  end.

(** Two index tuples agree on every axis except the segment axis. *)
Definition agree_off_seg (xs ys : list slice) : Prop :=
  length xs = length ys /\
  forall i : nat, i <> SEG_DIM -> xs !! i = ys !! i.

Definition unit_stride (xs : list slice) : Prop :=
  Forall (fun x => step x = None) xs.

(** ** Devices and tensor handles *)

Inductive DeviceType : Type := CPU | CUDA | DISK | MIXED | COMPRESSED.

#[global] Instance DeviceType_eq_dec : EqDecision DeviceType.
Proof. solve_decision. Defined.

Definition DeviceType_eqb (a b : DeviceType) : bool := bool_decide (a = b).

(** The device objects.  [TorchDevice] wraps one CPU or GPU (its
    [device_type] comes from [torch.device(name).type]), [TorchDisk] a
    directory, [TorchMixedDevice] a list of base devices.
    [TorchCompressedDevice] belongs to flexgen.compression and appears
    here only as a tier tag. *)
Inductive Device : Type :=
| TorchDevice (name : string) (cuda : bool)
| TorchDisk (path : string)
| TorchMixedDevice (base_devices : list Device)
| TorchCompressedDevice (base_device : string).

Definition device_type (d : Device) : DeviceType :=
  match d with
  | TorchDevice _ true => CUDA
  | TorchDevice _ false => CPU
  | TorchDisk _ => DISK
  | TorchMixedDevice _ => MIXED
  | TorchCompressedDevice _ => COMPRESSED
  end.

(** [device.base_devices]: only a TorchMixedDevice has the attribute. *)
Definition base_devices_of (d : Device) : result (list Device) :=
  match d with
  | TorchMixedDevice ds => ret ds
  | _ => raise AttributeError
  end.

(** numpy element types handed to [allocate]. *)
Inductive np_dtype : Type := np_float16 | np_float32 | np_int32 | np_int64 | np_bool.

(** Address of a TorchTensor object in the object store. *)
Definition ref : Type := nat.

(** [TorchTensor.data], by kind of device (class docstring):
    a primitive tensor, a filename, [(tensors, segment_points)], or
    [(data, scale, compression_config)]; [None] once deleted. *)
Inductive TensorData : Type :=
| Primitive (pinned : bool)
| Filename (path : string)
| Segments (tensors : list (option ref)) (seg_points : list Z)
| Compressed (payload scale : ref)
| NoData.

Record TorchTensor : Type := mkTorchTensor {
  shape : list Z;
  dtype : np_dtype;
  data : TensorData;
  device : option Device;
  delete_file : bool;
  name : string
}.

(** The mutable world the backend acts on: the TorchTensor objects, the
    files of the disk tier (path and the array shape in the header), and
    the class counter [TorchTensor.name_count]. *)
Record World : Type := mkWorld {
  objects : list TorchTensor;
  files : gmap string (list Z);
  name_count : nat
}.

Definition empty_world : World := mkWorld [] ∅ 0.

Definition get_tensor (w : World) (r : ref) : result TorchTensor :=
  match objects w !! r with
  | Some t => ret t
  | None => raise AttributeError
  end.

Definition set_tensor (w : World) (r : ref) (t : TorchTensor) : World :=
  mkWorld (<[r := t]> (objects w)) (files w) (name_count w).

(** A new object; its address is the next free one. *)
Definition new_tensor (w : World) (t : TorchTensor) : ref * World :=
  (length (objects w), mkWorld (objects w ++ [t]) (files w) (name_count w)).

(** [TorchTensor.next_name()]: ["t_" + str(next(name_count))]. *)
Definition next_name (w : World) : string * World :=
  ("t_" +:+ pretty (name_count w),
   mkWorld (objects w) (files w) (S (name_count w))).

(** [name or TorchTensor.next_name()]: [None] and [""] are falsy. *)
Definition name_or_next (name_ : option string) (w : World) : string * World :=
  match name_ with
  | Some (String c s) => (String c s, w)
  | _ => next_name w
  end.

(** [tensor.device.device_type]: AttributeError on a deleted handle. *)
Definition tensor_device (t : TorchTensor) : result Device :=
  match device t with
  | Some d => ret d
  | None => raise AttributeError
  end.

Definition tensor_device_type (t : TorchTensor) : result DeviceType :=
  let! d := tensor_device t in ret (device_type d).

(** *** Allocation *)

(** [torch.empty] and [np.lib.format.open_memmap] refuse a negative
    extent. *)
Definition valid_shape (shape_ : list Z) : bool :=
  forallb (fun x => 0 <=? x) shape_.

(** [TorchTensor.__init__], storing the new object. *)
Definition TorchTensor_init (w : World) (shape_ : list Z) (dtype_ : np_dtype)
    (data_ : TensorData) (device_ : Device) (name_ : option string)
  : ref * World :=
  let '(n, w1) := name_or_next name_ w in
  new_tensor w1 (mkTorchTensor shape_ dtype_ data_ (Some device_) true n).

(** [TorchDevice.allocate(shape, dtype, pin_memory=None, name=None)] *)
Definition TorchDevice_allocate (self : Device) (w : World) (shape_ : list Z)
    (dtype_ : np_dtype) (pin_memory : option bool) (name_ : option string)
  : result (ref * World) :=
  let pin :=
    match device_type self with
    | CPU => match pin_memory with None => true | Some p => p end
    | _ => false
    end in
  if valid_shape shape_
  then ret (TorchTensor_init w shape_ dtype_ (Primitive pin) self name_)
  else raise RuntimeError.

(** [os.path.join(self.path, name)] *)
Definition path_join (dir file : string) : string := dir +:+ "/" +:+ file.

(** [TorchDisk.allocate(shape, dtype, pin_memory=None, name=None)] *)
Definition TorchDisk_allocate (self : Device) (w : World) (shape_ : list Z)
    (dtype_ : np_dtype) (pin_memory : option bool) (name_ : option string)
  : result (ref * World) :=
  match self with
  | TorchDisk dir =>
      let '(n, w1) := name_or_next name_ w in
      let path := path_join dir n in
      if valid_shape shape_
      then
        let w2 := mkWorld (objects w1) (<[path := shape_]> (files w1))
                          (name_count w1) in
        ret (TorchTensor_init w2 shape_ dtype_ (Filename path) self (Some n))
      else raise ValueError
  | _ => raise AttributeError
  end.

(** The base devices of a mixed device: single CPUs, GPUs and disks. *)
Definition is_base (d : Device) : bool :=
  match d with
  | TorchDevice _ _ | TorchDisk _ => true
  | _ => false
  end.

(** [devices[i].allocate(seg_shape, dtype, pin_memory=pin_memory)] for a
    base device of a mixed device.  The [allocate] of any other device
    needs a further positional argument. *)
Definition base_allocate (d : Device) (w : World) (shape_ : list Z)
    (dtype_ : np_dtype) (pin_memory : option bool) : result (ref * World) :=
  match d with
  | TorchDevice _ _ => TorchDevice_allocate d w shape_ dtype_ pin_memory None
  | TorchDisk _ => TorchDisk_allocate d w shape_ dtype_ pin_memory None
  | _ => raise TypeError
  end.

(** [seg_points = [0]; for l in seg_lengths: seg_points.append(seg_points[-1] + l)] *)
Fixpoint seg_points_from (last : Z) (seg_lengths : list Z) : list Z :=
  match seg_lengths with
  | [] => []
  | l :: ls => (last + l) :: seg_points_from (last + l) ls
  end.

Definition make_seg_points (seg_lengths : list Z) : list Z :=
  0 :: seg_points_from 0 seg_lengths.

(** [sum(seg_lengths)] *)
Definition py_sum (xs : list Z) : Z := foldr Z.add 0 xs.

(** The loop [for i in range(len(devices))] of [TorchMixedDevice.allocate],
    from index [i] on; [tensors] collects the sub-handles. *)
Fixpoint allocate_segments (devices : list Device) (i : nat)
    (seg_points : list Z) (shape_ : list Z) (dtype_ : np_dtype)
    (pin_memory : option bool) (w : World)
  : result (list (option ref) * World) :=
  match devices with
  | [] => ret ([], w)
  | d :: rest =>
      let! hi := py_getitem seg_points (S i) in
      let! lo := py_getitem seg_points i in
      let seg_len := hi - lo in
      if seg_len =? 0 then
        let! '(ts, w') := allocate_segments rest (S i) seg_points shape_
                                            dtype_ pin_memory w in
        ret (None :: ts, w')
      else
        let seg_shape := take SEG_DIM shape_ ++ [seg_len]
                         ++ drop (S SEG_DIM) shape_ in
        let! '(r, w1) := base_allocate d w seg_shape dtype_ pin_memory in
        let! '(ts, w') := allocate_segments rest (S i) seg_points shape_
                                            dtype_ pin_memory w1 in
        ret (Some r :: ts, w')
  end.

(** [TorchMixedDevice.allocate(shape, dtype, seg_lengths, pin_memory=None, name=None)] *)
Definition TorchMixedDevice_allocate (self : Device) (w : World)
    (shape_ : list Z) (dtype_ : np_dtype) (seg_lengths : list Z)
    (pin_memory : option bool) (name_ : option string)
  : result (ref * World) :=
  let! devices := base_devices_of self in
  let! extent := py_getitem shape_ SEG_DIM in
  py_assert (py_sum seg_lengths =? extent) "" ;;;
  py_assert (length seg_lengths =? length devices)%nat "" ;;;
  let seg_points := make_seg_points seg_lengths in
  let! '(tensors, w1) := allocate_segments devices 0 seg_points shape_ dtype_
                                           pin_memory w in
  ret (TorchTensor_init w1 shape_ dtype_ (Segments tensors seg_points) self name_).

(** [TorchMixedDevice.init_cache_one_gpu_batch]: the fields of [config],
    [task] and [policy] it reads.  The percentages are integers. *)
Record CacheConfig : Type := mkCacheConfig {
  n_head : Z;
  input_dim : Z;
  prompt_len : Z;
  gen_len : Z;
  gpu_batch_size : Z;
  cache_gpu_percent : Z;
  cache_cpu_percent : Z;
  cache_disk_percent : Z
}.

Definition cache_shape (c : CacheConfig) : list Z :=
  [prompt_len c + gen_len c - 1; gpu_batch_size c * n_head c;
   input_dim c / n_head c].

(** [int(extent * percent / 100)]: the quotient of the two integers is a
    float, rounded to binary64, and [int] truncates it.  The division
    raises OverflowError when the quotient is out of the range of a
    float. *)
Definition head_share (extent percent : Z) : result Z :=
  let! x := int_true_div (extent * percent) 100 in py_int x.

(** [int(extent * percent / 100) // num_head * num_head], where the
    division has not raised. *)
Definition round_to_heads (extent percent num_head : Z) : Z :=
  match head_share extent percent with
  | inr x => x / num_head * num_head
  | inl _ => 0
  end.

(** [lens = [len_gpu, len_cpu, len_disk]] *)
Definition cache_seg_lengths (c : CacheConfig) : list Z :=
  let extent := gpu_batch_size c * n_head c in
  if cache_disk_percent c =? 0 then
    let len_gpu := round_to_heads extent (cache_gpu_percent c) (n_head c) in
    [len_gpu; extent - len_gpu; 0]
  else
    let len_gpu := round_to_heads extent (cache_gpu_percent c) (n_head c) in
    let len_cpu := round_to_heads extent (cache_cpu_percent c) (n_head c) in
    [len_gpu; len_cpu; extent - len_gpu - len_cpu].

Definition TorchMixedDevice_init_cache_one_gpu_batch (self : Device)
    (w : World) (c : CacheConfig) : result (ref * ref * World) :=
  (if n_head c =? 0 then raise ZeroDivisionError else ret tt) ;;;
  let shape_ := cache_shape c in
  let extent := gpu_batch_size c * n_head c in
  head_share extent (cache_gpu_percent c) ;;;
  (if cache_disk_percent c =? 0 then ret 0
   else head_share extent (cache_cpu_percent c)) ;;;
  let lens := cache_seg_lengths c in
  let! '(k_cache, w1) :=
    TorchMixedDevice_allocate self w shape_ np_float16 lens (Some false) None in
  let! '(v_cache, w2) :=
    TorchMixedDevice_allocate self w1 shape_ np_float16 lens (Some false) None in
  ret (k_cache, v_cache, w2).

(** *** Deletion *)

(** [TorchDevice.delete(self, tensor)]: [pass]. *)
Definition TorchDevice_delete (w : World) (tensor : ref) : result World :=
  ret w.

(** [TorchDisk.delete(self, tensor)] *)
Definition TorchDisk_delete (w : World) (tensor : ref) : result World :=
  let! t := get_tensor w tensor in
  match data t with
  | Filename path =>
      if bool_decide (is_Some (files w !! path)) && delete_file t
      then ret (mkWorld (objects w) (delete path (files w)) (name_count w))
      else ret w
  | _ => raise TypeError
  end.

(** [TorchMixedDevice.delete(self, tensor)]: the loop header reads
    [self.tensor], an attribute the device object never gets. *)
Definition TorchMixedDevice_delete (w : World) (tensor : ref) : result World :=
  raise AttributeError.

(** [device.delete(tensor)], by class of the device object.  The class
    of compressed devices is outside this module and [TorchTensor.delete]
    never calls its [delete]. *)
Definition device_delete (d : Device) (w : World) (tensor : ref)
  : result World :=
  match d with
  | TorchDevice _ _ => TorchDevice_delete w tensor
  | TorchDisk _ => TorchDisk_delete w tensor
  | TorchMixedDevice _ => TorchMixedDevice_delete w tensor
  | TorchCompressedDevice _ => raise AttributeError
  end.

(** The handle after [self.device = self.data = None]. *)
Definition invalidated (t : TorchTensor) : TorchTensor :=
  mkTorchTensor (shape t) (dtype t) NoData None (delete_file t) (name t).

(** [TorchTensor.delete(self)] *)
Definition TorchTensor_delete (w : World) (self : ref) : result World :=
  let! t := get_tensor w self in
  match device t with
  | None => raise (AssertionError "already deleted")
  | Some d =>
      let! w1 :=
        (if DeviceType_eqb (device_type d) DISK
         then device_delete d w self
         else ret w) in
      ret (set_tensor w1 self (invalidated t))
  end.

(** The handle at [r] has been deleted: it has lost its device and its
    data. *)
Definition deleted (w : World) (r : ref) : Prop :=
  exists t, objects w !! r = Some t /\ device t = None /\ data t = NoData.

(** ** Shapes of indexed views and of in-place copies

    Of a native tensor only the shape is kept.  The two functions below
    give the shape of [data[indices]] and say when [dst.copy_(src)] is
    accepted, which is all the copy engine and the worker depend on. *)

(** Number of positions a slice selects on an axis of extent [n]. *)
Definition slice_length (n : Z) (x : slice) : result Z :=
  let clip v := if v <? 0 then Z.max (v + n) 0 else Z.min v n in
  let a := clip (start x) in
  let b := clip (stop x) in
  match step x with
  | None => ret (Z.max (b - a) 0)
  | Some k =>
      if k <=? 0 then raise ValueError
      else ret (if a <? b then (b - a + k - 1) / k else 0)
  end.

(** Shape of [data[indices]] for a tuple of slices. *)
Fixpoint index_shape (shape_ : list Z) (indices : list slice)
  : result (list Z) :=
  match indices, shape_ with
  | [], _ => ret shape_
  | _ :: _, [] => raise IndexError
  | x :: xs, n :: ns =>
      let! l := slice_length n x in
      let! ls := index_shape ns xs in
      ret (l :: ls)
  end.

(** Shape of [data[indices] if indices else data]. *)
Definition view_shape (shape_ : list Z) (indices : option (list slice))
  : result (list Z) :=
  match indices with
  | Some (x :: xs) => index_shape shape_ (x :: xs)
  | _ => ret shape_
  end.

(** Right-aligned broadcast of [src] to [dst], on reversed shapes. *)
Fixpoint broadcast_rev (dst_rev src_rev : list Z) : bool :=
  match src_rev, dst_rev with
  | [], _ => true
  | _ :: _, [] => false
  | s :: ss, d :: ds => ((s =? d) || (s =? 1)) && broadcast_rev ds ss
  end.

(** [dst_data.copy_(src_data)]: the source must broadcast to the target. *)
Definition copy_ (dst_shape src_shape : list Z) : result unit :=
  if broadcast_rev (rev dst_shape) (rev src_shape)
  then ret tt else raise RuntimeError.

(** [np.prod(shape)] *)
Definition np_prod (shape_ : list Z) : Z := foldr Z.mul 1 shape_.

(** ** The copy engine *)

(** [(dst, dst_indices, src, src_indices)] *)
Record copy_args : Type := CopyArgs {
  dst : ref;
  dst_indices : option (list slice);
  src : ref;
  src_indices : option (list slice)
}.

(** What a call of [general_copy] hands on: a task for the worker queue
    of a disk device, a call of [general_copy_compressed], or a
    non-blocking [copy_] on the device, with or without pinning the
    source first. *)
Inductive effect : Type :=
| SubmitCopy (owner : Device) (args : copy_args)
| CompressedCopy (args : copy_args)
| PinnedCopy (args : copy_args)
| DirectCopy (args : copy_args).

(** Effects issued so far, and the outcome. *)
Definition traced (A : Type) : Type := (list effect * result A)%type.

Definition emit (e : effect) : traced unit := ([e], ret tt).

Definition lift {A} (r : result A) : traced A := ([], r).

Definition tbind {A B} (m : traced A) (k : A -> traced B) : traced B :=
  match m with
  | (es, inl e) => (es, inl e)
  | (es, inr x) => let '(es', r) := k x in (es ++ es', r)
  end.

Notation "'run!' x ':=' m 'in' k" := (tbind m (fun x => k))
  (at level 10, x name, m at level 100, k at level 200).

(** [for x in xs: body(x)] *)
Fixpoint for_each {A} (xs : list A) (body : A -> traced unit) : traced unit :=
  match xs with
  | [] => ([], ret tt)
  | x :: rest => tbind (body x) (fun _ => for_each rest body)
  end.

(** [tensor.data.is_pinned()] *)
Definition is_pinned (t : TorchTensor) : result bool :=
  match data t with
  | Primitive pinned => ret pinned
  | _ => raise AttributeError
  end.

(** The shape checks of [dst.data[dst_indices].copy_(src.data[src_indices])]. *)
Definition native_copy (tdst : TorchTensor) (di : option (list slice))
    (tsrc : TorchTensor) (si : option (list slice)) : result unit :=
  let! s := view_shape (shape tsrc) si in
  let! d := view_shape (shape tdst) di in
  copy_ d s.

(** The condition of the branch that relays a GPU-to-CPU copy through
    the worker queue:
    [src is CUDA and dst is CPU and not dst.data.is_pinned() and src.shape[0] > 1]. *)
Definition relay_condition (tdst tsrc : TorchTensor) (dt_dst dt_src : DeviceType)
  : result bool :=
  if negb (DeviceType_eqb dt_src CUDA) then ret false
  else if negb (DeviceType_eqb dt_dst CPU) then ret false
  else
    let! pinned := is_pinned tdst in
    if pinned then ret false
    else
      let! outer := py_getitem (shape tsrc) 0 in
      ret (1 <? outer).

(** The condition of the branch that pins a CPU source:
    [src is CPU and dst is CUDA and not src.data.is_pinned()]. *)
Definition pin_condition (tsrc : TorchTensor) (dt_dst dt_src : DeviceType)
  : result bool :=
  if negb (DeviceType_eqb dt_src CPU) then ret false
  else if negb (DeviceType_eqb dt_dst CUDA) then ret false
  else let! pinned := is_pinned tsrc in ret (negb pinned).

(** The branches of [general_copy] below the two recursive ones. *)
Definition general_copy_leaf (global_disk_device : option Device)
    (tdst tsrc : TorchTensor) (ddst dsrc : Device) (args : copy_args)
  : traced unit :=
  let dt_dst := device_type ddst in
  let dt_src := device_type dsrc in
  if DeviceType_eqb dt_src COMPRESSED || DeviceType_eqb dt_dst COMPRESSED
  then emit (CompressedCopy args)
  else if DeviceType_eqb dt_src DISK then emit (SubmitCopy dsrc args)
  else if DeviceType_eqb dt_dst DISK then emit (SubmitCopy ddst args)
  else
    run! relay := lift (relay_condition tdst tsrc dt_dst dt_src) in
    if relay then
      match global_disk_device with
      | Some disk => emit (SubmitCopy disk args)
      | None => lift (raise AttributeError)
      end
    else
      run! pin := lift (pin_condition tsrc dt_dst dt_src) in
      run! _ := lift (native_copy tdst (dst_indices args)
                                  tsrc (src_indices args)) in
      if pin then emit (PinnedCopy args) else emit (DirectCopy args).

(** [data[0][i]] of a mixed tensor: the sub-handle of base device [i]. *)
Definition sub_handle (tensors : list (option ref)) (i : nat) : result ref :=
  let! x := py_getitem tensors i in
  match x with
  | Some r => ret r
  | None => raise AttributeError
  end.

(** [general_copy(dst, dst_indices, src, src_indices)].  The first argument
    bounds the depth of the recursion through mixed tensors. *)
Fixpoint general_copy (depth : nat) (w : World)
    (global_disk_device : option Device) (args : copy_args)
  : traced unit :=
  match depth with
  | O => lift (raise RecursionError)
  | S depth' =>
    run! tdst := lift (get_tensor w (dst args)) in
    run! ddst := lift (tensor_device tdst) in
    if DeviceType_eqb (device_type ddst) MIXED then
      run! tsrc := lift (get_tensor w (src args)) in
      run! dsrc := lift (tensor_device tsrc) in
      run! _ := lift (py_assert (negb (DeviceType_eqb (device_type dsrc) MIXED)) "") in
      match data tdst with
      | Segments tensors seg_points =>
        run! devices := lift (base_devices_of ddst) in
        for_each (seq 0 (length devices)) (fun i =>
          run! lo := lift (py_getitem seg_points i) in
          run! hi := lift (py_getitem seg_points (S i)) in
          if lo =? hi then ([], ret tt)
          else
            let si := indices_or (src_indices args) (shape tsrc) in
            let di := indices_or (dst_indices args) (shape tdst) in
            run! tmp_src := lift (cut_indices si lo hi 0) in
            run! tmp_dst := lift (cut_indices di lo hi lo) in
            run! sub := lift (sub_handle tensors i) in
            general_copy depth' w global_disk_device
              (CopyArgs sub (Some tmp_dst) (src args) (Some tmp_src)))
      | _ => lift (raise TypeError)
      end
    else
      run! tsrc := lift (get_tensor w (src args)) in
      run! dsrc := lift (tensor_device tsrc) in
      if DeviceType_eqb (device_type dsrc) MIXED then
        match data tsrc with
        | Segments tensors seg_points =>
          run! devices := lift (base_devices_of dsrc) in
          for_each (seq 0 (length devices)) (fun i =>
            run! lo := lift (py_getitem seg_points i) in
            run! hi := lift (py_getitem seg_points (S i)) in
            if lo =? hi then ([], ret tt)
            else
              let si := indices_or (src_indices args) (shape tsrc) in
              let di := indices_or (dst_indices args) (shape tdst) in
              run! tmp_src := lift (cut_indices si lo hi lo) in
              run! tmp_dst := lift (cut_indices di lo hi 0) in
              run! sub := lift (sub_handle tensors i) in
              general_copy depth' w global_disk_device
                (CopyArgs (dst args) (Some tmp_dst) sub (Some tmp_src)))
        | _ => lift (raise TypeError)
        end
      else general_copy_leaf global_disk_device tdst tsrc ddst dsrc args
  end.

(** ** The disk backend's copy queue and worker threads *)

(** Modelled from the spec: the pinned relay buffer of a worker has a
    fixed size.  [flexgen.utils.GB], which [copy_worker_func] uses for it,
    is not defined in this module; it is 2^30 elements here. *)
Definition GB : Z := 2 ^ 30.

(** [map_to_torch_tensor(tensor, indices)], as the shape of the view it
    returns.  A disk tensor is memory-mapped from its file on demand. *)
Definition map_to_torch_tensor (w : World) (tensor : ref)
    (indices : option (list slice)) : result (list Z) :=
  let! t := get_tensor w tensor in
  let! dt := tensor_device_type t in
  let! data_shape :=
    (if DeviceType_eqb dt DISK then
       match data t with
       | Filename path =>
           match files w !! path with
           | Some file_shape => ret file_shape
           | None => raise FileNotFoundError
           end
       | _ => raise TypeError
       end
     else
       match data t with
       | Primitive _ => ret (shape t)
       | _ => raise TypeError
       end) in
  view_shape data_shape indices.

(** The body of the worker loop for a live task, up to but excluding
    [queue.task_done()]. *)
Definition copy_task (w : World) (item : copy_args) : result unit :=
  let! src_data := map_to_torch_tensor w (src item) (src_indices item) in
  let! dst_data := map_to_torch_tensor w (dst item) (dst_indices item) in
  let! tsrc := get_tensor w (src item) in
  let! tdst := get_tensor w (dst item) in
  let! dt_src := tensor_device_type tsrc in
  let! dt_dst := tensor_device_type tdst in
  if DeviceType_eqb dt_src CUDA || DeviceType_eqb dt_dst CUDA then
    (* cpu_buf[:size].view(src_data.shape) *)
    (if np_prod src_data <=? GB then ret tt else raise RuntimeError) ;;;
    (* tmp_cpu_buf.copy_(src_data) *)
    copy_ src_data src_data ;;;
    copy_ dst_data src_data
  else copy_ dst_data src_data.

(** [queue.Queue]: the items in FIFO order ([None] is the shutdown
    sentinel) and the counter of unfinished tasks. *)
Record Queue : Type := mkQueue {
  items : list (option copy_args);
  unfinished_tasks : Z
}.

(** [queue.put_nowait(item)] on an unbounded queue. *)
Definition put_nowait (q : Queue) (item : option copy_args) : Queue :=
  mkQueue (items q ++ [item]) (unfinished_tasks q + 1).

(** [queue.task_done()] *)
Definition task_done (q : Queue) : result Queue :=
  let unfinished := unfinished_tasks q - 1 in
  if unfinished <? 0 then raise ValueError
  else ret (mkQueue (items q) unfinished).

(** A worker thread running [copy_worker_func]. *)
Inductive Thread : Type :=
| Waiting                                   (* at [queue.get()] *)
| Holding (item : option copy_args)         (* [get] has returned [item] *)
| Returned                                  (* left the loop by [return] *)
| Died (e : exn) (item : option copy_args). (* ended by an exception raised
                                               while [item] was in hand *)

(** The disk backend with its surroundings: the object store, the queue,
    the worker threads, the copies the workers have carried out (oldest
    first), the tasks submitted so far, the non-blocking device copies
    issued since the last device barrier, and the number of device
    barriers ([torch.cuda.synchronize()]) issued.  There is one disk
    device, [global_disk_device]; it owns the queue. *)
Record System : Type := mkSystem {
  world : World;
  copy_queue : Queue;
  copy_threads : list Thread;
  completed : list copy_args;
  submitted : list copy_args;
  device_pending : list copy_args;
  device_barriers : nat
}.

(** [TorchDisk.__init__]: an empty queue and [num_copy_threads] workers. *)
Definition TorchDisk_init (w : World) (num_copy_threads : nat) : System :=
  mkSystem w (mkQueue [] 0) (replicate num_copy_threads Waiting) [] [] [] 0.

Definition with_queue (s : System) (q : Queue) : System :=
  mkSystem (world s) q (copy_threads s) (completed s) (submitted s)
           (device_pending s) (device_barriers s).

Definition with_thread (s : System) (i : nat) (t : Thread) : System :=
  mkSystem (world s) (copy_queue s) (<[i := t]> (copy_threads s))
           (completed s) (submitted s) (device_pending s) (device_barriers s).

(** [TorchDisk.submit_copy]: the four arguments go on the queue as one
    item. *)
Definition submit_copy (s : System) (args : copy_args) : System :=
  mkSystem (world s) (put_nowait (copy_queue s) (Some args)) (copy_threads s)
           (completed s) (submitted s ++ [args])
           (device_pending s) (device_barriers s).

(** One step of worker [i] of [copy_worker_func]; [None] when the thread
    cannot move: it is blocked in [queue.get()] on an empty queue, or it
    has ended. *)
Definition worker_step (s : System) (i : nat) : option System :=
  match copy_threads s !! i with
  | Some Waiting =>
      match items (copy_queue s) with
      | [] => None
      | item :: rest =>
          Some (with_thread
                  (with_queue s (mkQueue rest (unfinished_tasks (copy_queue s))))
                  i (Holding item))
      end
  | Some (Holding None) =>
      match task_done (copy_queue s) with
      | inr q => Some (with_thread (with_queue s q) i Returned)
      | inl e => Some (with_thread s i (Died e None))
      end
  | Some (Holding (Some item)) =>
      match copy_task (world s) item with
      | inl e => Some (with_thread s i (Died e (Some item)))
      | inr _ =>
          match task_done (copy_queue s) with
          | inr q =>
              let s1 := with_thread (with_queue s q) i Waiting in
              Some (mkSystem (world s1) (copy_queue s1) (copy_threads s1)
                             (completed s1 ++ [item]) (submitted s1)
                             (device_pending s1) (device_barriers s1))
          | inl e => Some (with_thread s i (Died e (Some item)))
          end
      end
  | _ => None
  end.

(** [TorchDisk.synchronize()]: [self.copy_queue.join()].  [None] while
    the call blocks. *)
Definition TorchDisk_synchronize (s : System) : option System :=
  if unfinished_tasks (copy_queue s) =? 0 then Some s else None.

(** [TorchDevice.synchronize()]: [torch.cuda.synchronize()]. *)
Definition TorchDevice_synchronize (s : System) : System :=
  mkSystem (world s) (copy_queue s) (copy_threads s) (completed s)
           (submitted s) [] (S (device_barriers s)).

(** The first half of [TorchDisk.close_copy_threads()]: one sentinel per
    worker thread. *)
Definition put_sentinels (s : System) : System :=
  with_queue s
    (foldl (fun q _ => put_nowait q None) (copy_queue s) (copy_threads s)).

(** What an effect of [general_copy] does to the system. *)
Definition apply_effect (s : System) (e : effect) : System :=
  match e with
  | SubmitCopy _ args => submit_copy s args
  | CompressedCopy _ => s
  | PinnedCopy args | DirectCopy args =>
      mkSystem (world s) (copy_queue s) (copy_threads s) (completed s)
               (submitted s) (device_pending s ++ [args]) (device_barriers s)
  end.

(** What the main thread and the scheduler can do. *)
Inductive action : Type :=
| CallGeneralCopy (depth : nat) (global_disk_device : option Device)
                  (args : copy_args)
| CallSubmitCopy (args : copy_args)
| CallDeviceSynchronize
| CallDiskSynchronize
| PutSentinels
| Work (i : nat).

(** [None]: the action is not enabled (a blocked call or thread).  When
    [general_copy] raises, what it has issued before stays issued. *)
Definition perform (s : System) (a : action) : option System :=
  match a with
  | CallGeneralCopy depth gdd args =>
      Some (foldl apply_effect s (fst (general_copy depth (world s) gdd args)))
  | CallSubmitCopy args => Some (submit_copy s args)
  | CallDeviceSynchronize => Some (TorchDevice_synchronize s)
  | CallDiskSynchronize => TorchDisk_synchronize s
  | PutSentinels => Some (put_sentinels s)
  | Work i => worker_step s i
  end.

Fixpoint execute (s : System) (trace : list action) : option System :=
  match trace with
  | [] => Some s
  | a :: rest =>
      match perform s a with
      | Some s' => execute s' rest
      | None => None
      end
  end.

(** The tasks a list of threads has in hand, alive or dead. *)
Definition thread_task (t : Thread) : option copy_args :=
  match t with
  | Holding (Some item) | Died _ (Some item) => Some item
  | _ => None
  end.

Definition in_hand (t : Thread) : bool :=
  match t with
  | Holding _ | Died _ _ => true
  | _ => false
  end.

(** ** Embedding, output and sparse-attention index arithmetic

    The numeric kernels (matmul, softmax, layer-norm) are supplied by
    torch; the functions below start from their results and keep what the
    backend itself computes: position indices, the choice between
    sampling and arg-max, and the top-k selection with its gather. *)

(** [data[start:]] on a Python sequence. *)
Definition py_drop {A} (start_ : Z) (xs : list A) : list A :=
  let n := Z.of_nat (length xs) in
  let a := if start_ <? 0 then Z.max (start_ + n) 0 else Z.min start_ n in
  drop (Z.to_nat a) xs.

Definition b2z (b : bool) : Z := if b then 1 else 0.

(** [torch.cumsum(mask, dim=1)] on one row, with the running total so far. *)
Fixpoint cumsum_from (acc : Z) (mask : list bool) : list Z :=
  match mask with
  | [] => []
  | m :: rest => (acc + b2z m) :: cumsum_from (acc + b2z m) rest
  end.

Definition cumsum (mask : list bool) : list Z := cumsum_from 0 mask.

(** [positions = torch.cumsum(mask, dim=1).int() * mask + 1] on one row. *)
Definition positions_of (mask : list bool) : list Z :=
  zip_with (fun c m => c * b2z m + 1) (cumsum mask) mask.

(** [positions[:, past_key_values_length:]] with
    [past_key_values_length = mask.shape[1] - token_ids.shape[1]]. *)
Definition cut_positions (mask : list bool) (token_ids : list Z) : list Z :=
  let past_key_values_length :=
    Z.of_nat (length mask) - Z.of_nat (length token_ids) in
  py_drop past_key_values_length (positions_of mask).

(** [F.embedding(ids, weight)]: the rows of the table picked by [ids].
    [padding_idx] only matters to gradients. *)
Definition embedding (ids : list Z) (weight : list (list Z))
  : result (list (list Z)) :=
  map_result (fun i : Z =>
    if i <? 0 then raise IndexError
    else py_getitem weight (Z.to_nat i)) ids.

(** [a + b] on two vectors of one width. *)
Definition vec_add (a b : list Z) : result (list Z) :=
  if (length a =? length b)%nat then ret (zip_with Z.add a b)
  else raise RuntimeError.

(** [token_embed + pos_embed] along the sequence axis; an operand of
    length one is broadcast. *)
Definition seq_add (xs ys : list (list Z)) : result (list (list Z)) :=
  if (length xs =? length ys)%nat then
    map_result (fun '(x, y) => vec_add x y) (zip xs ys)
  else
    match xs, ys with
    | [x], _ => map_result (fun y => vec_add x y) ys
    | _, [y] => map_result (fun x => vec_add x y) xs
    | _, _ => raise RuntimeError
    end.

(** [TorchDevice.opt_input_embed] on one sequence of the batch: the token
    ids, the attention mask over cached and new positions, and the two
    embedding tables.  Donation and decompression of the weights are left
    out. *)
Definition opt_input_embed_row (token_ids : list Z) (mask : list bool)
    (w_token w_pos : list (list Z)) : result (list (list Z)) :=
  let! token_embed := embedding token_ids w_token in
  let positions := cut_positions mask token_ids in
  let! pos_embed := embedding positions w_pos in
  seq_add token_embed pos_embed.

(** The whole batch, sequence by sequence. *)
Definition opt_input_embed (inputs : list (list Z))
    (attention_mask : list (list bool)) (w_token w_pos : list (list Z))
  : result (list (list (list Z))) :=
  if (length inputs =? length attention_mask)%nat then
    map_result (fun '(ids, mask) => opt_input_embed_row ids mask w_token w_pos)
               (zip inputs attention_mask)
  else raise RuntimeError.

(** [mask.sum()] on one row. *)
Fixpoint count_true (mask : list bool) : Z :=
  match mask with
  | [] => 0
  | m :: rest => b2z m + count_true rest
  end.

(** The non-padding tokens up to and including position [j]. *)
Definition count_nonpad (mask : list bool) (j : nat) : Z :=
  count_true (take (S j) mask).

(** *** Output stage *)

(** How [opt_output_embed] picks the next token of each sequence:
    [torch.multinomial] over [torch.softmax(logits / temperature)] for the
    given logits and temperature, or the arg-max index. *)
Inductive token_choice : Type :=
| Multinomial (logits : list (list Q)) (temperature : pyfloat)
| ArgMax (ids : list nat).

(** [logits[:, -1, :]] *)
Definition last_token (logits : list (list (list Q))) : result (list (list Q)) :=
  map_result (fun positions : list (list Q) =>
    match last positions with
    | Some row => ret row
    | None => raise IndexError
    end) logits.

(** [row.argmax()]: the first index of a largest entry. *)
Fixpoint argmax_from (best : Q) (best_i i : nat) (row : list Q) : nat :=
  match row with
  | [] => best_i
  | x :: rest =>
      if Qle_bool x best then argmax_from best best_i (S i) rest
      else argmax_from x i (S i) rest
  end.

Definition argmax (row : list Q) : result nat :=
  match row with
  | [] => raise IndexError
  | x :: rest => ret (argmax_from x 0 1 rest)
  end.

(** The literal [1e-5]: the binary64 value nearest to 10^-5. *)
Definition temperature_threshold : pyfloat := binary64 (1 # 100000).

(** [temperature < 1e-5] *)
Definition temperature_too_low (temperature : pyfloat) : bool :=
  float_lt temperature temperature_threshold.

(** [TorchDevice.opt_output_embed] from the logits on: the branch on
    [do_sample and not temperature < 1e-5]. *)
Definition opt_output_embed (logits : list (list (list Q))) (do_sample : bool)
    (temperature : pyfloat) : result token_choice :=
  let! last_token_logits := last_token logits in
  if do_sample && negb (temperature_too_low temperature) then
    ret (Multinomial last_token_logits temperature)
  else
    let! ids := map_result argmax last_token_logits in
    ret (ArgMax ids).

(** *** Sparse decode attention *)

(** [topk = int(attn_sparsity * (attn_weights.shape[2] - 1))] *)
Definition sparse_topk (attn_sparsity : pyfloat) (src_s : Z) : result Z :=
  let! x := float_mul_int attn_sparsity (src_s - 1) in py_int x.

(** Descending order on (score, position) pairs. *)
Definition score_ge (a b : Q * nat) : Prop := Qle_bool (fst b) (fst a) = true.

#[global] Instance score_ge_dec a b : Decision (score_ge a b).
Proof. unfold score_ge. apply _. Defined.

(** [row[:-1]] *)
Definition history {A} (row : list A) : list A := take (length row - 1) row.

(** [row.topk(k, sorted=False)]: the [k] largest entries with their
    positions.  The order torch returns them in is not specified; here it
    is by decreasing score. *)
Definition topk (row : list Q) (k : Z) : result (list (Q * nat)) :=
  if (k <? 0) || (Z.of_nat (length row) <? k) then raise RuntimeError
  else ret (take (Z.to_nat k)
              (merge_sort score_ge (zip row (seq 0 (length row))))).

(** [topk_indices] after [.view(b * n_head, topk).transpose(0, 1)]: an
    index tensor of shape [(topk, b * n_head)], kept as the positions
    selected for each of the [b * n_head] rows of the attention weights. *)
Record IndexTensor : Type := mkIndexTensor {
  index_count : Z;
  index_heads : list (list nat)
}.

Definition index_tensor_shape (t : IndexTensor) : list Z :=
  [index_count t; Z.of_nat (length (index_heads t))].

Definition index_entries (t : IndexTensor) : list nat :=
  concat (index_heads t).

(** [bool(t)] on a torch tensor: the truth of its only element; a tensor
    of no or of several elements has no truth value. *)
Definition tensor_truth (t : IndexTensor) : result bool :=
  match index_entries t with
  | [x] => ret (negb (x =? 0)%nat)
  | _ => raise RuntimeError
  end.

(** Shape of [data[t]]: the rows of [data] at the positions in [t]. *)
Definition index_tensor_view (shape_ : list Z) (t : IndexTensor)
  : result (list Z) :=
  match shape_ with
  | [] => raise IndexError
  | n :: rest =>
      if forallb (fun x => Z.of_nat x <? n) (index_entries t)
      then ret (index_tensor_shape t ++ rest)
      else raise IndexError
  end.

(** Modelled from the spec: the gather primitive
    ([flexgen.utils.vector_gather], not defined in this module) copies
    exactly the selected positions of the resident tensor.  On shapes:
    from data of shape [(s, b, h)] and indices of shape [(k, b)] with
    entries below [s] it makes a tensor of shape [(k, b, h)]. *)
Definition vector_gather (data_shape : list Z) (t : IndexTensor)
  : result (list Z) :=
  match data_shape with
  | [s; b; h] =>
      if negb (b =? Z.of_nat (length (index_heads t)))
      then raise (AssertionError "")
      else if forallb (fun x => Z.of_nat x <? s) (index_entries t)
      then ret [index_count t; b; h]
      else raise RuntimeError
  | _ => raise ValueError
  end.

(** [(dst, dst_indices, src, src_indices)] with an index tensor for
    [src_indices], as the sparse path calls [general_copy]. *)
Record gather_args : Type := GatherArgs {
  g_dst : ref;
  g_dst_indices : option (list slice);
  g_src : ref;
  g_src_indices : IndexTensor
}.

(** What [general_copy] hands on when [src_indices] is an index tensor:
    as [effect], and [Sliced] for what it issues once [src_indices] has
    been replaced by slices. *)
Inductive gather_effect : Type :=
| SubmitGather (owner : Device) (args : gather_args)
| CompressedGather (args : gather_args)
| PinnedGather (args : gather_args)
| DirectGather (args : gather_args)
| Sliced (e : effect).

Definition gtraced (A : Type) : Type := (list gather_effect * result A)%type.

Definition gemit (e : gather_effect) : gtraced unit := ([e], ret tt).

Definition glift {A} (r : result A) : gtraced A := ([], r).

Definition gbind {A B} (m : gtraced A) (k : A -> gtraced B) : gtraced B :=
  match m with
  | (es, inl e) => (es, inl e)
  | (es, inr x) => let '(es', r) := k x in (es ++ es', r)
  end.

Notation "'grun!' x ':=' m 'in' k" := (gbind m (fun x => k))
  (at level 10, x name, m at level 100, k at level 200).

Definition sliced {A} (m : traced A) : gtraced A := (map Sliced (fst m), snd m).

(** The shape checks of
    [dst.data[dst_indices].copy_(src.data[src_indices] if src_indices else src.data)]
    for an index tensor: the condition asks the tensor for its truth
    value. *)
Definition native_gather (tdst : TorchTensor) (di : option (list slice))
    (tsrc : TorchTensor) (si : IndexTensor) : result unit :=
  let! truth := tensor_truth si in
  let! s := (if truth then index_tensor_view (shape tsrc) si
             else ret (shape tsrc)) in
  let! d := view_shape (shape tdst) di in
  copy_ d s.

(** The branches of [general_copy] below the two recursive ones, for an
    index tensor. *)
Definition general_copy_gather_leaf (global_disk_device : option Device)
    (tdst tsrc : TorchTensor) (ddst dsrc : Device) (args : gather_args)
  : gtraced unit :=
  let dt_dst := device_type ddst in
  let dt_src := device_type dsrc in
  if DeviceType_eqb dt_src COMPRESSED || DeviceType_eqb dt_dst COMPRESSED
  then gemit (CompressedGather args)
  else if DeviceType_eqb dt_src DISK then gemit (SubmitGather dsrc args)
  else if DeviceType_eqb dt_dst DISK then gemit (SubmitGather ddst args)
  else
    grun! relay := glift (relay_condition tdst tsrc dt_dst dt_src) in
    if relay then
      match global_disk_device with
      | Some disk => gemit (SubmitGather disk args)
      | None => glift (raise AttributeError)
      end
    else
      grun! pin := glift (pin_condition tsrc dt_dst dt_src) in
      grun! _ := glift (native_gather tdst (g_dst_indices args)
                                      tsrc (g_src_indices args)) in
      if pin then gemit (PinnedGather args) else gemit (DirectGather args).

(** The loop of a Segmented branch of [general_copy] entered with an
    index tensor.  At the first segment that is not empty,
    [src_indices or ...] asks the tensor for its truth value: a true
    tensor is kept and [cut_indices] fails on its rows, which have no
    [step]; a false one is replaced by the slices of the whole source,
    and [rest_of_loop] is the loop from there on. *)
Fixpoint gather_segments (seg_points : list Z) (si : IndexTensor)
    (rest_of_loop : list nat -> traced unit) (range : list nat)
  : gtraced unit :=
  match range with
  | [] => ([], ret tt)
  | i :: rest =>
      grun! lo := glift (py_getitem seg_points i) in
      grun! hi := glift (py_getitem seg_points (S i)) in
      if lo =? hi then gather_segments seg_points si rest_of_loop rest
      else
        grun! truth := glift (tensor_truth si) in
        if truth then glift (raise AttributeError)
        else sliced (rest_of_loop (i :: rest))
  end.

(** [general_copy(dst, dst_indices, src, src_indices)] where
    [src_indices] is an index tensor. *)
Definition general_copy_gather (depth : nat) (w : World)
    (global_disk_device : option Device) (args : gather_args)
  : gtraced unit :=
  match depth with
  | O => glift (raise RecursionError)
  | S depth' =>
    grun! tdst := glift (get_tensor w (g_dst args)) in
    grun! ddst := glift (tensor_device tdst) in
    if DeviceType_eqb (device_type ddst) MIXED then
      grun! tsrc := glift (get_tensor w (g_src args)) in
      grun! dsrc := glift (tensor_device tsrc) in
      grun! _ := glift (py_assert (negb (DeviceType_eqb (device_type dsrc) MIXED)) "") in
      match data tdst with
      | Segments tensors seg_points =>
        grun! devices := glift (base_devices_of ddst) in
        gather_segments seg_points (g_src_indices args)
          (fun range => for_each range (fun i =>
            run! lo := lift (py_getitem seg_points i) in
            run! hi := lift (py_getitem seg_points (S i)) in
            if lo =? hi then ([], ret tt)
            else
              let si := indices_or None (shape tsrc) in
              let di := indices_or (g_dst_indices args) (shape tdst) in
              run! tmp_src := lift (cut_indices si lo hi 0) in
              run! tmp_dst := lift (cut_indices di lo hi lo) in
              run! sub := lift (sub_handle tensors i) in
              general_copy depth' w global_disk_device
                (CopyArgs sub (Some tmp_dst) (g_src args) (Some tmp_src))))
          (seq 0 (length devices))
      | _ => glift (raise TypeError)
      end
    else
      grun! tsrc := glift (get_tensor w (g_src args)) in
      grun! dsrc := glift (tensor_device tsrc) in
      if DeviceType_eqb (device_type dsrc) MIXED then
        match data tsrc with
        | Segments tensors seg_points =>
          grun! devices := glift (base_devices_of dsrc) in
          gather_segments seg_points (g_src_indices args)
            (fun range => for_each range (fun i =>
              run! lo := lift (py_getitem seg_points i) in
              run! hi := lift (py_getitem seg_points (S i)) in
              if lo =? hi then ([], ret tt)
              else
                let si := indices_or None (shape tsrc) in
                let di := indices_or (g_dst_indices args) (shape tdst) in
                run! tmp_src := lift (cut_indices si lo hi lo) in
                run! tmp_dst := lift (cut_indices di lo hi 0) in
                run! sub := lift (sub_handle tensors i) in
                general_copy depth' w global_disk_device
                  (CopyArgs (g_dst args) (Some tmp_dst) sub (Some tmp_src))))
            (seq 0 (length devices))
        | _ => glift (raise TypeError)
        end
      else general_copy_gather_leaf global_disk_device tdst tsrc ddst dsrc args
  end.

(** [map_to_torch_tensor(tensor, indices)] for an index tensor: the
    branch [torch.is_tensor(indices)], as the shape of what
    [vector_gather] returns. *)
Definition map_to_torch_tensor_gather (w : World) (tensor : ref)
    (indices : IndexTensor) : result (list Z) :=
  let! t := get_tensor w tensor in
  let! dt := tensor_device_type t in
  let! data_shape :=
    (if DeviceType_eqb dt DISK then
       match data t with
       | Filename path =>
           match files w !! path with
           | Some file_shape => ret file_shape
           | None => raise FileNotFoundError
           end
       | _ => raise TypeError
       end
     else
       match data t with
       | Primitive _ => ret (shape t)
       | _ => raise TypeError
       end) in
  vector_gather data_shape indices.

(** The body of the worker loop for a task whose [src_indices] is an
    index tensor, up to but excluding [queue.task_done()]. *)
Definition gather_task (w : World) (item : gather_args) : result unit :=
  let! src_data := map_to_torch_tensor_gather w (g_src item) (g_src_indices item) in
  let! dst_data := map_to_torch_tensor w (g_dst item) (g_dst_indices item) in
  let! tsrc := get_tensor w (g_src item) in
  let! tdst := get_tensor w (g_dst item) in
  let! dt_src := tensor_device_type tsrc in
  let! dt_dst := tensor_device_type tdst in
  if DeviceType_eqb dt_src CUDA || DeviceType_eqb dt_dst CUDA then
    (if np_prod src_data <=? GB then ret tt else raise RuntimeError) ;;;
    copy_ src_data src_data ;;;
    copy_ dst_data src_data
  else copy_ dst_data src_data.

(** The [v_cache] argument: one handle, or the tuple [(v_home, v_buf)]. *)
Inductive cache_arg : Type :=
| OneTensor (v_home : ref)
| TensorPair (v_home v_buf : ref).

(** What [_sparse_attention_value] does to the outside, in order: what
    its [general_copy] call hands on, and [v_home.device.synchronize()]. *)
Inductive sparse_event : Type :=
| Copy (e : gather_effect)
| Synchronize (d : Device).

(** What [_sparse_attention_value] hands to its final [torch.bmm]: the
    weights, one row of [topk + 1] entries for each of the [b * n_head]
    heads, and the shape of [v]; with them the index tensor the values
    were selected by. *)
Record sparse_operands : Type := mkSparseOperands {
  topk_indices : IndexTensor;
  attn_weights : list (list Q);
  v : list Z
}.

(** [row[-1]] *)
Definition last_entry {A} (row : list A) : result A :=
  match last row with
  | Some x => ret x
  | None => raise IndexError
  end.

(** Lines 519 to 526, from the softmax output on: [topk], the index
    tensor and the concatenated weights. *)
Definition sparse_select (attn_sparsity : pyfloat) (weights : list (list Q))
    (b src_s n_head : Z) : result (Z * IndexTensor * list (list Q)) :=
  (* _attention_weights: attn_weights.view(b * n_head, 1, src_s) *)
  (if (Z.of_nat (length weights) =? b * n_head)
      && forallb (fun row => Z.of_nat (length row) =? src_s) weights
   then ret tt else raise RuntimeError) ;;;
  let! topk_ := sparse_topk attn_sparsity src_s in
  (* attn_weights[:, :, :-1].topk(topk, dim=2, sorted=False) *)
  (if (topk_ <? 0) || (Z.max (src_s - 1) 0 <? topk_)
   then raise RuntimeError else ret tt) ;;;
  let! top := map_result (fun row => topk (history row) topk_) weights in
  (* attn_weights[:, :, -1] *)
  (if src_s =? 0 then raise IndexError else ret tt) ;;;
  let! current := map_result last_entry weights in
  ret (topk_,
       mkIndexTensor topk_ (map (map snd) top),
       zip_with (fun t c => map fst t ++ [c]) top current).

(** Lines 528 to 533: the resident cache and the staging buffer. *)
Definition sparse_buffers (self : Device) (w : World) (k_is_cuda : bool)
    (v_cache : cache_arg) (topk_ b n_head head_dim : Z)
  : World * result (ref * ref) :=
  if k_is_cuda then
    match TorchDevice_allocate self w [topk_ + 1; b * n_head; head_dim]
                               np_float16 None None with
    | inl e => (w, inl e)
    | inr (v_buf, w1) =>
        match v_cache with
        | OneTensor v_home => (w1, ret (v_home, v_buf))
        (* v_home.shape on a tuple *)
        | TensorPair _ _ => (w1, raise AttributeError)
        end
    end
  else
    match v_cache with
    | TensorPair v_home v_buf => (w, ret (v_home, v_buf))
    (* (v_home, v_buf) = v_cache on a TorchTensor *)
    | OneTensor _ => (w, raise TypeError)
    end.

(** Lines 536 to 539: the gather through [general_copy] and the wait. *)
Definition sparse_gather (depth : nat) (w : World)
    (global_disk_device : option Device) (v_home v_buf : ref)
    (indices_src : IndexTensor) : list sparse_event * result unit :=
  match
    (let! home := get_tensor w v_home in
     let! width := py_getitem (shape home) 1 in
     ret [slice2 0 (index_count indices_src); slice2 0 width])
  with
  | inl e => ([], inl e)
  | inr indices_tgt =>
      let '(es, r) :=
        general_copy_gather depth w global_disk_device
          (GatherArgs v_buf (Some indices_tgt) v_home indices_src) in
      match r with
      | inl e => (map Copy es, inl e)
      | inr _ =>
          match (let! home := get_tensor w v_home in tensor_device home) with
          | inl e => (map Copy es, inl e)
          (* TorchMixedDevice has no synchronize *)
          | inr (TorchMixedDevice _) => (map Copy es, raise AttributeError)
          | inr d => (map Copy es ++ [Synchronize d], ret tt)
          end
      end
  end.

(** Lines 542 to 545: the shape of [v].  The extents are sizes, so the
    [-1] that [reshape] would infer does not occur. *)
Definition sparse_values (w : World) (v_buf : ref) (v_new : list Z)
    (topk_ b n_head head_dim : Z) : result (list Z) :=
  let! buf := get_tensor w v_buf in
  match data buf with
  | Primitive _ =>
      (* v = v_buf.data[:topk+1] *)
      let! v := index_shape (shape buf) [slice2 0 (topk_ + 1)] in
      (* v[topk:topk+1] = v_new *)
      let! target := index_shape v [slice2 topk_ (topk_ + 1)] in
      copy_ target v_new ;;;
      (* v.permute(1, 0, 2).reshape(b * n_head, topk+1, head_dim) *)
      match v with
      | [d0; d1; d2] =>
          let shape_ := [b * n_head; topk_ + 1; head_dim] in
          if valid_shape shape_ && (np_prod [d1; d0; d2] =? np_prod shape_)
          then ret shape_ else raise RuntimeError
      | _ => raise RuntimeError
      end
  | _ => raise TypeError
  end.

(** [TorchDevice._sparse_attention_value], from the softmax output
    ([weights], the rows of a tensor of shape [(b * n_head, 1, src_s)])
    up to the operands of the final [torch.bmm].  [k_is_cuda] is
    [k.is_cuda] and [v_new] the shape of the new value tensor.  What
    follows a [Synchronize] event is what the method does once that call
    has returned. *)
Definition _sparse_attention_value (depth : nat) (self : Device) (w : World)
    (global_disk_device : option Device) (weights : list (list Q))
    (k_is_cuda : bool) (v_new : list Z) (v_cache : cache_arg)
    (b src_s n_head head_dim : Z) (attn_sparsity : pyfloat)
  : World * (list sparse_event * result sparse_operands) :=
  match sparse_select attn_sparsity weights b src_s n_head with
  | inl e => (w, ([], inl e))
  | inr (topk_, indices, weights') =>
      match sparse_buffers self w k_is_cuda v_cache topk_ b n_head head_dim with
      | (w1, inl e) => (w1, ([], inl e))
      | (w1, inr (v_home, v_buf)) =>
          match sparse_gather depth w1 global_disk_device v_home v_buf indices with
          | (es, inl e) => (w1, (es, inl e))
          | (es, inr _) =>
              (w1, (es,
                    let! v_ := sparse_values w1 v_buf v_new topk_ b n_head head_dim in
                    ret (mkSparseOperands indices weights' v_)))
          end
      end
  end.

(** ** Vocabulary of the properties *)

Definition effect_args (e : effect) : copy_args :=
  match e with
  | SubmitCopy _ a | CompressedCopy a | PinnedCopy a | DirectCopy a => a
  end.

(** The effect carries index tuples that differ from [di] and [si] on
    the segment axis only. *)
Definition rebased_from (di si : list slice) (e : effect) : Prop :=
  exists d s,
    dst_indices (effect_args e) = Some d /\
    src_indices (effect_args e) = Some s /\
    agree_off_seg di d /\ agree_off_seg si s.

(** The effect stems from the call with arguments [args]: either it
    carries them as they are, or the call went through a mixed tensor
    and the index tuples were cut on the segment axis. *)
Definition from_call (w : World) (args : copy_args) (e : effect) : Prop :=
  effect_args e = args \/
  exists tdst tsrc,
    get_tensor w (dst args) = inr tdst /\
    get_tensor w (src args) = inr tsrc /\
    rebased_from (indices_or (dst_indices args) (shape tdst))
                 (indices_or (src_indices args) (shape tsrc)) e.

(** [sub] is the recursive call of [general_copy] for a non-empty segment
    [lo, hi) of a mixed destination: the destination range is cut and
    re-based to the sub-handle, the source range is cut. *)
Definition dst_segment_call (args : copy_args) (tdst tsrc : TorchTensor)
    (tensors : list (option ref)) (seg_points : list Z) (sub : copy_args)
  : Prop :=
  exists (i : nat) lo hi r tmp_dst tmp_src,
    seg_points !! i = Some lo /\ seg_points !! S i = Some hi /\ lo <> hi /\
    tensors !! i = Some (Some r) /\
    cut_indices (indices_or (dst_indices args) (shape tdst)) lo hi lo
      = inr tmp_dst /\
    cut_indices (indices_or (src_indices args) (shape tsrc)) lo hi 0
      = inr tmp_src /\
    sub = CopyArgs r (Some tmp_dst) (src args) (Some tmp_src).

(** The same for a mixed source: the source range is cut and re-based,
    the destination range is cut. *)
Definition src_segment_call (args : copy_args) (tdst tsrc : TorchTensor)
    (tensors : list (option ref)) (seg_points : list Z) (sub : copy_args)
  : Prop :=
  exists (i : nat) lo hi r tmp_dst tmp_src,
    seg_points !! i = Some lo /\ seg_points !! S i = Some hi /\ lo <> hi /\
    tensors !! i = Some (Some r) /\
    cut_indices (indices_or (dst_indices args) (shape tdst)) lo hi 0
      = inr tmp_dst /\
    cut_indices (indices_or (src_indices args) (shape tsrc)) lo hi lo
      = inr tmp_src /\
    sub = CopyArgs (dst args) (Some tmp_dst) r (Some tmp_src).

(** The index tuple with the slice [[a, b)] of the segment axis replaced
    by [[max(a, lo) - base, min(b, hi) - base)]. *)
Definition rebase_axis (indices : list slice) (lo hi base : Z)
  : option (list slice) :=
  match indices !! SEG_DIM with
  | Some seg =>
      Some (<[SEG_DIM := slice2 (Z.max (start seg) lo - base)
                                (Z.min (stop seg) hi - base)]> indices)
  | None => None
  end.

(** The arguments of the copy that a call through a mixed destination
    issues for base device [i], if its segment is not empty: the
    destination range re-based to the segment, the source range cut. *)
Definition dst_segment_args (args : copy_args) (tdst tsrc : TorchTensor)
    (tensors : list (option ref)) (seg_points : list Z) (i : nat)
  : option copy_args :=
  match seg_points !! i, seg_points !! S i, tensors !! i with
  | Some lo, Some hi, Some (Some r) =>
      if lo =? hi then None
      else
        match rebase_axis (indices_or (dst_indices args) (shape tdst)) lo hi lo,
              rebase_axis (indices_or (src_indices args) (shape tsrc)) lo hi 0
        with
        | Some tmp_dst, Some tmp_src =>
            Some (CopyArgs r (Some tmp_dst) (src args) (Some tmp_src))
        | _, _ => None
        end
  | _, _, _ => None
  end.

(** The same through a mixed source: the source range re-based to the
    segment, the destination range cut. *)
Definition src_segment_args (args : copy_args) (tdst tsrc : TorchTensor)
    (tensors : list (option ref)) (seg_points : list Z) (i : nat)
  : option copy_args :=
  match seg_points !! i, seg_points !! S i, tensors !! i with
  | Some lo, Some hi, Some (Some r) =>
      if lo =? hi then None
      else
        match rebase_axis (indices_or (dst_indices args) (shape tdst)) lo hi 0,
              rebase_axis (indices_or (src_indices args) (shape tsrc)) lo hi lo
        with
        | Some tmp_dst, Some tmp_src =>
            Some (CopyArgs (dst args) (Some tmp_dst) r (Some tmp_src))
        | _, _ => None
        end
  | _, _, _ => None
  end.

(** The failure of a second [delete]: the assertion
    [self.device is not None, "already deleted"]. *)
Definition UseAfterDelete : exn := AssertionError "already deleted".

(** Number of outer elements the transfer [src[src_indices]] spans. *)
Definition transfer_outer_span (tsrc : TorchTensor)
    (si : option (list slice)) : result Z :=
  let! view := view_shape (shape tsrc) si in py_getitem view 0.

(** The live tasks waiting in the queue. *)
Definition queued_tasks (q : Queue) : list copy_args := omap id (items q).

(** The tasks the threads have in hand. *)
Definition tasks_in_hand (threads : list Thread) : list copy_args :=
  omap thread_task threads.

(** Number of threads that satisfy [p]. *)
Fixpoint count_threads (p : Thread -> bool) (threads : list Thread) : Z :=
  match threads with
  | [] => 0
  | t :: rest => b2z (p t) + count_threads p rest
  end.

(** The bookkeeping of the queue: every item put on it is still queued or
    in the hand of a thread until [task_done] is called for it, and every
    submitted task is completed, queued or in hand. *)
Definition queue_invariant (s : System) : Prop :=
  unfinished_tasks (copy_queue s)
  = Z.of_nat (length (items (copy_queue s)))
    + count_threads in_hand (copy_threads s) /\
  submitted s ≡ₚ completed s ++ queued_tasks (copy_queue s)
                 ++ tasks_in_hand (copy_threads s).

(** The call ran out of recursion depth. *)
Definition overflows {A} (m : traced A) : Prop := snd m = inl RecursionError.

(** The handle at [r], while it is live, is not on a mixed device. *)
Definition flat (w : World) (r : ref) : Prop :=
  forall t d, objects w !! r = Some t -> device t = Some d ->
              device_type d <> MIXED.

(** The sub-handles of the handle at [r], if it has any, are flat. *)
Definition one_level (w : World) (r : ref) : Prop :=
  forall t tensors seg_points r',
    objects w !! r = Some t -> data t = Segments tensors seg_points ->
    Some r' ∈ tensors -> flat w r'.

(** ** Further vocabulary: what a cut selects *)

(** Number of positions that [cut_indices(indices, lo, hi, base)] selects
    on the segment axis of a tensor whose extent along that axis is [n]. *)
Definition cut_length (indices : list slice) (lo hi base n : Z) : result Z :=
  let! out := cut_indices indices lo hi base in
  let! x := py_getitem out SEG_DIM in
  slice_length n x.

(** A slice bound [v] on an axis of extent [n], as indexing reads it:
    a negative bound counts from the end, and the result is clipped to
    the axis. *)
Definition clip_index (n v : Z) : Z :=
  if v <? 0 then Z.max (v + n) 0 else Z.min v n.

(** The positions [data[x]] takes from an axis of extent [n], in order. *)
Definition slice_columns (n : Z) (x : slice) : result (list Z) :=
  let! len := slice_length n x in
  let k := match step x with Some k => k | None => 1 end in
  ret (map (fun i => clip_index n (start x) + i * k) (seqZ 0 len)).

(** The columns the cut of [indices] at the segment [[lo, hi)] takes
    from a tensor whose segment axis has extent [n]. *)
Definition cut_columns (indices : list slice) (lo hi base n : Z)
  : result (list Z) :=
  let! out := cut_indices indices lo hi base in
  let! x := py_getitem out SEG_DIM in
  slice_columns n x.

(** The boundary intervals [(seg_points[i], seg_points[i+1])]. *)
Definition segments (seg_points : list Z) : list (Z * Z) :=
  zip seg_points (drop 1 seg_points).

(** Size of the intersection of [a, b) and [lo, hi). *)
Definition overlap (a b lo hi : Z) : Z := Z.max 0 (Z.min b hi - Z.max a lo).

(** ** Copying and moving a tensor to a device *)

(** [self.device == dst] on device objects.  Python compares them by
    identity; there is one object per device, so the model compares the
    descriptions. *)
Fixpoint device_eqb (a b : Device) {struct a} : bool :=
  match a, b with
  | TorchDevice n c, TorchDevice n' c' =>
      bool_decide (n = n') && bool_decide (c = c')
  | TorchDisk p, TorchDisk p' => bool_decide (p = p')
  | TorchMixedDevice ds, TorchMixedDevice ds' =>
      (fix go (l l' : list Device) : bool :=
         match l, l' with
         | [], [] => true
         | x :: xs, y :: ys => device_eqb x y && go xs ys
         | _, _ => false
         end) ds ds'
  | TorchCompressedDevice b, TorchCompressedDevice b' => bool_decide (b = b')
  | _, _ => false
  end.

(** [self.device == dst], where [self.device] is [None] after deletion. *)
Definition on_device (t : TorchTensor) (dst_device : Device) : bool :=
  match device t with
  | Some d => device_eqb d dst_device
  | None => false
  end.

(** The shape [TorchTensor.copy] asks for:
    [tuple(x.stop - x.start for x in src_indices) + self.shape[len(src_indices):]],
    or [self.shape] without indices. *)
Definition copy_shape (t : TorchTensor) (src_indices_ : option (list slice))
  : result (list Z) :=
  match src_indices_ with
  | Some (x :: xs) =>
      py_assert (forallb step_is_None (x :: xs)) "" ;;;
      ret (map (fun y => stop y - start y) (x :: xs)
           ++ drop (length (x :: xs)) (shape t))
  | _ => ret (shape t)
  end.

Section Compression.

(** [dst.allocate(shape, dtype, self.data[2])] on a compressed device
    belongs to flexgen.compression; it is taken as given. *)
Variable compressed_allocate :
  Device -> World -> list Z -> np_dtype -> TensorData -> World * result ref.

(** [dst.allocate(...)] as [TorchTensor.copy] calls it, by class of [dst],
    with the world it leaves also when it raises: a disk has drawn the
    file name before [open_memmap] refuses the shape.  A mixed device
    cannot serve the call: its [allocate] needs [seg_lengths]. *)
Definition copy_allocate (dst_device : Device) (w : World) (shape_ : list Z)
    (t : TorchTensor) : World * result ref :=
  match dst_device with
  | TorchDevice _ _ =>
      match TorchDevice_allocate dst_device w shape_ (dtype t) None None with
      | inr (new, w1) => (w1, ret new)
      | inl e => (w, raise e)
      end
  | TorchDisk _ =>
      match TorchDisk_allocate dst_device w shape_ (dtype t) None None with
      | inr (new, w1) => (w1, ret new)
      | inl e => (snd (next_name w), raise e)
      end
  | TorchMixedDevice _ => (w, raise TypeError)
  | TorchCompressedDevice _ =>
      compressed_allocate dst_device w shape_ (dtype t) (data t)
  end.

(** [TorchTensor.copy(self, dst, src_indices=None)]: the world after the
    call, what the call issued, and the new handle or the exception.
    [depth] bounds the recursion of [general_copy]. *)
Definition TorchTensor_copy (depth : nat) (global_disk_device : option Device)
    (w : World) (self : ref) (dst_device : Device)
    (src_indices_ : option (list slice)) : World * traced ref :=
  match get_tensor w self with
  | inl e => (w, lift (inl e))
  | inr t =>
      match copy_shape t src_indices_ with
      | inl e => (w, lift (inl e))
      | inr shape_ =>
          match copy_allocate dst_device w shape_ t with
          | (w1, inl e) => (w1, lift (inl e))
          | (w1, inr new) =>
              (w1, tbind (general_copy depth w1 global_disk_device
                            (CopyArgs new None self src_indices_))
                         (fun _ => lift (ret new)))
          end
      end
  end.

(** [TorchTensor.smart_copy(self, dst, src_indices=None)] *)
Definition TorchTensor_smart_copy (depth : nat)
    (global_disk_device : option Device) (w : World) (self : ref)
    (dst_device : Device) (src_indices_ : option (list slice))
  : World * traced (ref * bool) :=
  match get_tensor w self with
  | inl e => (w, lift (inl e))
  | inr t =>
      if on_device t dst_device then (w, lift (ret (self, false)))
      else
        let '(w1, m) := TorchTensor_copy depth global_disk_device w self
                                         dst_device src_indices_ in
        (w1, tbind m (fun new => lift (ret (new, true))))
  end.

(** [TorchTensor.move(self, dst)]: copy, then delete the source. *)
Definition TorchTensor_move (depth : nat) (global_disk_device : option Device)
    (w : World) (self : ref) (dst_device : Device) : World * traced ref :=
  match get_tensor w self with
  | inl e => (w, lift (inl e))
  | inr t =>
      if on_device t dst_device then (w, lift (ret self))
      else
        match TorchTensor_copy depth global_disk_device w self dst_device None
        with
        | (w1, (es, inl e)) => (w1, (es, inl e))
        | (w1, (es, inr new)) =>
            match TorchTensor_delete w1 self with
            | inl e => (w1, (es, inl e))
            | inr w2 => (w2, (es, inr new))
            end
        end
  end.

End Compression.

(** The slices of an index tuple stay within the extents of the axes they
    index and have the default step. *)
Definition slice_within (x : slice) (n : Z) : Prop :=
  step x = None /\ 0 <= start x <= stop x /\ stop x <= n.

Definition slices_within (shape_ : list Z) (indices : option (list slice))
  : Prop :=
  match indices with
  | Some xs => Forall2 slice_within xs (take (length xs) shape_)
  | None => True
  end.

(** ** Filling a mixed tensor *)

(** The copy of columns [[lo, lo + len)] of the whole tensor [src_] into
    the whole sub-tensor [sub] kept by base device [d]: a task for the
    worker queue of a disk, a direct copy otherwise. *)
Definition segment_fill (shape_ : list Z) (src_ : ref) (d : Device)
    (sub : ref) (lo len : Z) : effect :=
  let args :=
    CopyArgs sub (Some (<[SEG_DIM := slice2 0 len]> (full_indices shape_)))
             src_
             (Some (<[SEG_DIM := slice2 lo (lo + len)]> (full_indices shape_)))
  in
  if DeviceType_eqb (device_type d) DISK then SubmitCopy d args
  else DirectCopy args.

(** One [segment_fill] per base device that holds a sub-tensor, in the
    order of the devices; segment [i] starts at the sum of the lengths
    before it. *)
Definition fill_effects (shape_ : list Z) (src_ : ref) (devices : list Device)
    (tensors : list (option ref)) (seg_lengths : list Z) : list effect :=
  omap (fun i : nat =>
          match seg_lengths !! i, devices !! i, tensors !! i with
          | Some len, Some d, Some (Some sub) =>
              Some (segment_fill shape_ src_ d sub
                                 (py_sum (take i seg_lengths)) len)
          | _, _, _ => None
          end)
       (seq 0 (length devices)).

(** ** Attention masks *)

(** [TorchDevice.gen_attention_mask]: [token_ids.data.ne(pad_token_id)],
    on the data.  Donation of the input is left out. *)
Definition gen_attention_mask (token_ids : list (list Z)) (pad_token_id : Z)
  : list (list bool) :=
  map (map (fun x => negb (x =? pad_token_id))) token_ids.

(** [TorchDevice.extend_attention_mask]: a column of ones is appended to
    the mask.  Donation of the input is left out. *)
Definition extend_attention_mask (attention_mask : list (list bool))
  : list (list bool) :=
  map (fun row => row ++ [true]) attention_mask.

(** The tokens of a prompt that are not padding. *)
Definition real_tokens (ids : list Z) (pad_token_id : Z) : Z :=
  Z.of_nat (length (filter (fun x => x <> pad_token_id) ids)).

(** ** The attention workspace of a CPU device *)

(** The attributes [attention_compute_workspace] and [workspace_pt] of a
    TorchDevice. *)
Record Workspace : Type := mkWorkspace {
  attention_compute_workspace : option (list (ref * ref));
  workspace_pt : Z
}.

(** As [TorchDevice.__init__] sets them. *)
Definition no_workspace : Workspace := mkWorkspace None 0.

(** The loop [for i in range(...)] of [init_attention_compute_workspace]:
    two unpinned float32 buffers per round, appended as a pair.  When an
    allocation raises, the pairs appended so far stay. *)
Fixpoint workspace_loop (self : Device) (rounds : nat) (shape_ : list Z)
    (pairs : list (ref * ref)) (w : World)
  : list (ref * ref) * World * result unit :=
  match rounds with
  | O => (pairs, w, ret tt)
  | S rounds' =>
      match TorchDevice_allocate self w shape_ np_float32 (Some false) None with
      | inl e => (pairs, w, raise e)
      | inr (k_cache, w1) =>
          match TorchDevice_allocate self w1 shape_ np_float32 (Some false)
                                     None with
          | inl e => (pairs, w1, raise e)
          | inr (v_cache, w2) =>
              workspace_loop self rounds' shape_
                             (pairs ++ [(k_cache, v_cache)]) w2
          end
      end
  end.

Section CompressedWorkspace.

(** [self.compressed_device.init_attention_compute_workspace(config, task,
    policy)] belongs to flexgen.compression; it is taken as given. *)
Variable compressed_init_workspace :
  Workspace -> World -> CacheConfig -> Workspace * World * result unit.

(** [TorchDevice.init_attention_compute_workspace(config, task, policy)]:
    the attributes and the world after the call, and its outcome. *)
Definition init_attention_compute_workspace (self : Device) (st : Workspace)
    (w : World) (c : CacheConfig) (compress_cache sep_layer : bool)
  : Workspace * World * result unit :=
  if negb (DeviceType_eqb (device_type self) CPU) then (st, w, ret tt)
  else if negb compress_cache then
    if n_head c =? 0 then (st, w, raise ZeroDivisionError)
    else
      let b := gpu_batch_size c in
      let head_dim := input_dim c / n_head c in
      let max_seq_len := prompt_len c + gen_len c - 1 in
      let '(pairs, w', r) :=
        workspace_loop self (if sep_layer then 1 else 2)
                       [max_seq_len; b * n_head c; head_dim] [] w in
      (mkWorkspace (Some pairs) 0, w', r)
  else compressed_init_workspace st w c.

End CompressedWorkspace.

(** [TorchDevice.next_attention_compute_workspace()]: [len(None)] is a
    TypeError, the remainder by an empty list's length a
    ZeroDivisionError; [workspace_pt] is assigned only after both. *)
Definition next_attention_compute_workspace (st : Workspace)
  : Workspace * result (ref * ref) :=
  match attention_compute_workspace st with
  | None => (st, raise TypeError)
  | Some pairs =>
      let n := Z.of_nat (length pairs) in
      if n =? 0 then (st, raise ZeroDivisionError)
      else
        let pt := (workspace_pt st + 1) mod n in
        (mkWorkspace (Some pairs) pt, py_getitem pairs (Z.to_nat pt))
  end.

(** [TorchDevice.del_attention_compute_workspace()] *)
Definition del_attention_compute_workspace (st : Workspace) : Workspace :=
  mkWorkspace None (workspace_pt st).

(** The state after [calls] calls of [next_attention_compute_workspace]. *)
Definition after_calls (calls : nat) (st : Workspace) : Workspace :=
  Nat.iter calls (fun s => fst (next_attention_compute_workspace s)) st.

(** The pairs a workspace of [rounds] rounds holds when the first new
    handle is [base]. *)
Definition workspace_pairs (base rounds : nat) : list (ref * ref) :=
  map (fun i => (base + 2 * i, base + 2 * i + 1)%nat) (seq 0 rounds).

(** ** Schedules of the copy workers *)

(** The schedule in which worker [i] alone serves [tasks]: for each one a
    step that takes it from the queue and a step that carries it out. *)
Definition serve (i : nat) (tasks : list copy_args) : list action :=
  concat (map (fun _ => [Work i; Work i]) tasks).

(** The system after the first [length tasks] items of the queue, which
    leave [rest], have been carried out and marked done. *)
Definition served (s : System) (tasks : list copy_args)
    (rest : list (option copy_args)) : System :=
  mkSystem (world s)
           (mkQueue rest (unfinished_tasks (copy_queue s)
                          - Z.of_nat (length tasks)))
           (copy_threads s) (completed s ++ tasks) (submitted s)
           (device_pending s) (device_barriers s).

(** ** Shutting the copy workers down *)

Definition thread_ended (t : Thread) : bool :=
  match t with
  | Returned | Died _ _ => true
  | _ => false
  end.

Definition is_waiting (t : Thread) : bool :=
  match t with Waiting => true | _ => false end.

Definition holds_sentinel (t : Thread) : bool :=
  match t with Holding None => true | _ => false end.

(** [TorchDisk.close_copy_threads()] once the sentinels are on the queue:
    [t.join()] for every worker and [self.copy_queue.join()] have returned
    when every thread has ended and no task is unfinished. *)
Definition close_copy_threads_returns (s : System) : bool :=
  forallb thread_ended (copy_threads s)
  && (unfinished_tasks (copy_queue s) =? 0).

(** The states of a shutdown that started with all workers idle: only
    sentinels are queued, one for each worker still waiting, and the
    counter covers them and the sentinels in hand. *)
Definition shutting_down (s : System) : Prop :=
  Forall (fun t => t = Waiting \/ t = Holding None \/ t = Returned)
         (copy_threads s) /\
  items (copy_queue s)
  = replicate (Z.to_nat (count_threads is_waiting (copy_threads s))) None /\
  unfinished_tasks (copy_queue s)
  = count_threads is_waiting (copy_threads s)
    + count_threads holds_sentinel (copy_threads s).

(** Worker steps until every worker has returned. *)
Definition shutdown_steps_left (s : System) : Z :=
  2 * count_threads is_waiting (copy_threads s)
  + count_threads holds_sentinel (copy_threads s).

(** ** Loading a tensor from a numpy array *)

Section CompressedLoad.

(** The branch of [load_from_np] for a compressed tensor compresses the
    array with flexgen.compression; it is taken as given. *)
Variable compressed_load : World -> ref -> list Z -> result World.

(** [TorchTensor.load_from_np(self, np_array)], for an array of shape
    [np_array].  [np.save] writes the array with its own shape into the
    file of a disk tensor; [copy_] into a native tensor checks the
    shapes. *)
Definition TorchTensor_load_from_np (w : World) (self : ref)
    (np_array : list Z) : result World :=
  let! t := get_tensor w self in
  let! dt := tensor_device_type t in
  if DeviceType_eqb dt DISK then
    match data t with
    | Filename path =>
        ret (mkWorld (objects w) (<[path := np_array]> (files w))
                     (name_count w))
    | _ => raise TypeError
    end
  else if DeviceType_eqb dt COMPRESSED then compressed_load w self np_array
  else
    match data t with
    | Primitive _ => copy_ (shape t) np_array ;;; ret w
    | _ => raise AttributeError
    end.

(** [TorchTensor.load_from_np_file(self, filename)]: [shutil.copy] for a
    disk tensor, [np.load] and [load_from_np] otherwise. *)
Definition TorchTensor_load_from_np_file (w : World) (self : ref)
    (filename : string) : result World :=
  let! t := get_tensor w self in
  let! dt := tensor_device_type t in
  if DeviceType_eqb dt DISK then
    match data t with
    | Filename path =>
        match files w !! filename with
        | Some np_array =>
            ret (mkWorld (objects w) (<[path := np_array]> (files w))
                         (name_count w))
        | None => raise FileNotFoundError
        end
    | _ => raise TypeError
    end
  else
    match files w !! filename with
    | Some np_array => TorchTensor_load_from_np w self np_array
    | None => raise FileNotFoundError
    end.

End CompressedLoad.

(** ** The cache of one GPU batch on a single device *)

(** [TorchDevice.init_cache_one_gpu_batch(config, task, policy)]: both
    caches are allocated with [pin_memory=False]. *)
Definition TorchDevice_init_cache_one_gpu_batch (self : Device) (w : World)
    (c : CacheConfig) : result (ref * ref * World) :=
  (if n_head c =? 0 then raise ZeroDivisionError else ret tt) ;;;
  let shape_ := cache_shape c in
  let! '(k_cache, w1) :=
    TorchDevice_allocate self w shape_ np_float16 (Some false) None in
  let! '(v_cache, w2) :=
    TorchDevice_allocate self w1 shape_ np_float16 (Some false) None in
  ret (k_cache, v_cache, w2).

(** [TorchDisk.init_cache_one_gpu_batch(config, task, policy)] *)
Definition TorchDisk_init_cache_one_gpu_batch (self : Device) (w : World)
    (c : CacheConfig) : result (ref * ref * World) :=
  (if n_head c =? 0 then raise ZeroDivisionError else ret tt) ;;;
  let shape_ := cache_shape c in
  let! '(k_cache, w1) :=
    TorchDisk_allocate self w shape_ np_float16 None None in
  let! '(v_cache, w2) :=
    TorchDisk_allocate self w1 shape_ np_float16 None None in
  ret (k_cache, v_cache, w2).

(** ** Example devices and worlds *)

Definition gpu : Device := TorchDevice "cuda:0" true.
Definition cpu : Device := TorchDevice "cpu" false.
Definition disk : Device := TorchDisk "/offload".
Definition mixed : Device := TorchMixedDevice [gpu; cpu; disk].

(** A GPU tensor of ten rows and an unpinned CPU buffer of one row. *)
Definition relay_world : World :=
  mkWorld
    [ mkTorchTensor [10; 4] np_float16 (Primitive false) (Some gpu) true "t_0";
      mkTorchTensor [1; 4] np_float16 (Primitive false) (Some cpu) true "t_1" ]
    ∅ 2.

(** Copy row 3 of the GPU tensor into the CPU buffer. *)
Definition relay_args : copy_args :=
  CopyArgs 1%nat None 0%nat (Some [slice2 3 4]).

(** A disk tensor with its backing file, and a 50/30/20 mixed tensor over
    GPU, CPU and disk next to a pinned CPU tensor of its shape. *)
Definition disk_world : World :=
  mkWorld
    [ mkTorchTensor [7; 20; 4] np_float16 (Filename "/offload/t_0")
                    (Some disk) true "t_0" ]
    {[ "/offload/t_0" := [7; 20; 4] ]} 1.

Definition mixed_world : World :=
  mkWorld
    [ mkTorchTensor [7; 50; 4] np_float16 (Primitive false) (Some gpu) true "t_0";
      mkTorchTensor [7; 30; 4] np_float16 (Primitive true) (Some cpu) true "t_1";
      mkTorchTensor [7; 20; 4] np_float16 (Filename "/offload/t_2")
                    (Some disk) true "t_2";
      mkTorchTensor [7; 100; 4] np_float16
                    (Segments [Some 0%nat; Some 1%nat; Some 2%nat] [0; 50; 80; 100])
                    (Some mixed) true "t_3";
      mkTorchTensor [7; 100; 4] np_float16 (Primitive true) (Some cpu) true "t_4" ]
    {[ "/offload/t_2" := [7; 20; 4] ]} 5.

(** Fill the mixed tensor from the pinned CPU tensor of the same shape. *)
Definition fill_mixed : copy_args := CopyArgs 3%nat None 4%nat None.

(** A disk tensor, a CPU buffer of another shape, and two GPU tensors of
    one shape.  Copying the disk tensor into the CPU buffer must fail in
    the worker: the shapes do not match. *)
Definition copy_world : World :=
  mkWorld
    [ mkTorchTensor [7; 20; 4] np_float16 (Filename "/offload/t_0")
                    (Some disk) true "t_0";
      mkTorchTensor [3; 3] np_float16 (Primitive true) (Some cpu) true "t_1";
      mkTorchTensor [4; 4] np_float16 (Primitive false) (Some gpu) true "t_2";
      mkTorchTensor [4; 4] np_float16 (Primitive false) (Some gpu) true "t_3";
      mkTorchTensor [7; 20; 4] np_float16 (Primitive true) (Some cpu) true "t_4" ]
    {[ "/offload/t_0" := [7; 20; 4] ]} 5.

(** disk to CPU, shapes differ *)
Definition bad_copy : copy_args := CopyArgs 1%nat None 0%nat None.
(** disk to CPU, shapes agree *)
Definition good_copy : copy_args := CopyArgs 4%nat None 0%nat None.
(** GPU to GPU *)
Definition device_copy : copy_args := CopyArgs 3%nat None 2%nat None.

(** Embedding tables of width two.  Row 1 of the token table (the pad
    token of OPT) is zero; row 1 of the position table is not. *)
Definition w_token_example : list (list Z) :=
  [[9; 9]; [0; 0]; [2; 2]; [3; 3]; [4; 4]; [5; 5]; [6; 6]; [7; 7]].
Definition w_pos_example : list (list Z) :=
  [[100; 100]; [10; 10]; [20; 20]; [30; 30]; [40; 40]].

(** Attention weights of two heads over ten positions, the current one
    last, and a world with a value cache of sixteen positions on disk. *)
Definition weights_example : list (list Q) :=
  [[1 # 10; 3 # 10; 2 # 10; 1 # 20; 1 # 20; 1 # 20; 1 # 20; 1 # 20; 1 # 20;
    1 # 20];
   [1 # 20; 1 # 20; 1 # 20; 1 # 20; 1 # 20; 1 # 20; 1 # 10; 2 # 10; 3 # 10;
    1 # 20]]%Q.

Definition sparse_world : World :=
  mkWorld
    [ mkTorchTensor [16; 2; 3] np_float16 (Filename "/offload/t_0")
                    (Some disk) true "t_0" ]
    {[ "/offload/t_0" := [16; 2; 3] ]} 1.

(** The same cache held in CPU memory, with its staging buffer. *)
Definition sparse_cpu_world : World :=
  mkWorld
    [ mkTorchTensor [16; 2; 3] np_float16 (Primitive true) (Some cpu) true "t_0";
      mkTorchTensor [5; 2; 3] np_float16 (Primitive true) (Some cpu) true "t_1" ]
    ∅ 2.

(** The binary64 value of the literal [0.7]. *)
Definition seven_tenths : Q := 3152519739159347 # 4503599627370496.

(** A stand-in for the allocator of a compressed device, which this module
    does not define: it refuses every request. *)
Definition no_compression (d : Device) (w : World) (shape_ : list Z)
    (dtype_ : np_dtype) (payload : TensorData) : World * result ref :=
  (w, raise TypeError).

(** A pinned CPU tensor, the source for filling a mixed tensor that is
    allocated next to it. *)
Definition fill_world : World :=
  mkWorld
    [ mkTorchTensor [7; 100; 4] np_float16 (Primitive true) (Some cpu) true
                    "t_0" ]
    ∅ 1.

(** Four heads, a batch of five, and a 33/33/34 cache policy. *)
Definition cache_example : CacheConfig := mkCacheConfig 4 16 8 3 5 33 33 34.

(** The world of [disk_world] after its tensor has been deleted. *)
Definition deleted_world : World :=
  mkWorld [ mkTorchTensor [7; 20; 4] np_float16 NoData None true "t_0" ] ∅ 1.

(** * Properties *)

(** ** Rounding to binary64 *)

Lemma round_half_even_bounds (x : Q) :
  Qfloor x <= round_half_even x <= Qfloor x + 1.
Proof.
  unfold round_half_even.
  destruct (x - inject_Z (Qfloor x) ?= 1 # 2)%Q; [destruct (Z.even _) | |];
    lia.
Qed.

Lemma round_half_even_comp (x y : Q) :
  (x == y)%Q -> round_half_even x = round_half_even y.
Proof.
  intros H. unfold round_half_even. rewrite (Qfloor_comp _ _ H).
  assert (E : (x - inject_Z (Qfloor y) == y - inject_Z (Qfloor y))%Q)
    by (rewrite H; reflexivity).
  rewrite (Qcompare_comp _ _ E (1 # 2) (1 # 2) (Qeq_refl _)). reflexivity.
Qed.

Lemma Qfloor_lt_Z (x : Q) (n : Z) : (x < inject_Z n)%Q -> Qfloor x < n.
Proof.
  intros H. apply Z.lt_nge. intros Hn.
  apply (Qlt_not_le _ _ H). eapply Qle_trans; [|apply Qfloor_le].
  rewrite <- Zle_Qle. exact Hn.
Qed.

Lemma Qfloor_ge_Z (x : Q) (n : Z) : (inject_Z n <= x)%Q -> n <= Qfloor x.
Proof.
  intros H. rewrite <- (Qfloor_Z n). now apply Qfloor_resp_le.
Qed.

Lemma Qfloor_div_Z (a m : Z) :
  0 < m -> Qfloor (inject_Z a / inject_Z m) = a / m.
Proof.
  intros Hm. unfold Qfloor, Qdiv, Qmult, Qinv, inject_Z.
  destruct m as [|p|p]; try lia. simpl. now rewrite Z.mul_1_r.
Qed.

Lemma exponent_le (a : Q) (E : Z) :
  0 <= E -> (0 < a)%Q -> (a < inject_Z (2 ^ (E + 1)))%Q -> exponent a <= E.
Proof.
  intros HE Ha Hlt. unfold exponent.
  destruct (Qle_bool 1 a) eqn:H1.
  - apply Qle_bool_iff in H1.
    assert (Hf : 1 <= Qfloor a) by (apply Qfloor_ge_Z; exact H1).
    assert (Hu : Qfloor a < 2 ^ (E + 1)) by (apply Qfloor_lt_Z; exact Hlt).
    apply Z.log2_lt_pow2 in Hu; lia.
  - pose proof (Z.log2_up_nonneg (Qceiling (/ a))). lia.
Qed.

Lemma pow2_neg (e : Z) :
  e <= 0 -> (pow2 e == 1 / inject_Z (2 ^ (- e)))%Q.
Proof.
  intros He. unfold pow2. destruct (Z.leb_spec 0 e); [|reflexivity].
  replace e with 0 by lia. reflexivity.
Qed.

Lemma inject_Z_pow2_pos (j : Z) : 0 <= j -> (0 < inject_Z (2 ^ j))%Q.
Proof.
  intros Hj. change 0%Q with (inject_Z 0). rewrite <- Zlt_Qlt.
  apply Z.pow_pos_nonneg; lia.
Qed.

(** A positive real below [2 ^ (E + 1)], [E <= 52], is rounded on a grid
    of spacing [1 / 2 ^ j] with [j >= 52 - E]. *)
Lemma binary64_small (y : Q) (E : Z) :
  0 <= E <= 52 -> (0 < y)%Q -> (y < inject_Z (2 ^ (E + 1)))%Q ->
  exists (j : Z) (r : Q),
    52 - E <= j /\
    binary64 y = Finite r /\
    (r == inject_Z (round_half_even (y * inject_Z (2 ^ j)))
          / inject_Z (2 ^ j))%Q.
Proof.
  intros HE Hy Hlt.
  assert (Habs : Qabs y = y).
  { destruct y as [n d]. unfold Qabs. f_equal. apply Z.abs_eq.
    unfold Qlt in Hy. simpl in Hy. lia. }
  pose proof (exponent_le y E ltac:(lia) Hy Hlt) as Hexp.
  set (e := Z.max (exponent y) (-1022)).
  assert (He : -1022 <= e <= E) by (unfold e; lia).
  set (j := 52 - e).
  assert (Hj : 0 <= j) by (unfold j; lia).
  pose proof (inject_Z_pow2_pos j Hj) as Hm.
  assert (Hulp : (pow2 (e - 52) == 1 / inject_Z (2 ^ j))%Q).
  { rewrite pow2_neg by lia. unfold j.
    replace (- (e - 52)) with (52 - e) by lia. reflexivity. }
  set (r := (inject_Z (round_half_even (y / pow2 (e - 52)))
             * pow2 (e - 52))%Q).
  assert (Hr : (r == inject_Z (round_half_even (y * inject_Z (2 ^ j)))
                     / inject_Z (2 ^ j))%Q).
  { unfold r.
    assert (Harg : (y / pow2 (e - 52) == y * inject_Z (2 ^ j))%Q).
    { rewrite Hulp. field. intros E0. rewrite E0 in Hm.
      now apply Qlt_irrefl in Hm. }
    rewrite (round_half_even_comp _ _ Harg), Hulp. field.
    intros E0. rewrite E0 in Hm. now apply Qlt_irrefl in Hm. }
  exists j, r. split; [unfold j; lia|]. split; [|exact Hr].
  unfold binary64.
  replace (Qeq_bool y 0) with false.
  2:{ symmetry. apply not_true_iff_false. intros E0.
      apply Qeq_bool_iff in E0. rewrite E0 in Hy. now apply Qlt_irrefl in Hy. }
  rewrite Habs. fold e. fold r.
  replace (Qle_bool 0 y) with true
    by (symmetry; apply Qle_bool_iff; now apply Qlt_le_weak).
  replace (Qle_bool (pow2 1024) r) with false; [reflexivity|].
  symmetry. apply not_true_iff_false. intros Hover.
  apply Qle_bool_iff in Hover.
  (* r <= y + 1 < 2 ^ 1024 *)
  assert (Hrle : (r <= y + 1)%Q).
  { rewrite Hr.
    pose proof (round_half_even_bounds (y * inject_Z (2 ^ j))) as [_ Hup].
    apply Qle_shift_div_r; [exact Hm|].
    eapply Qle_trans; [rewrite <- Zle_Qle; exact Hup|].
    rewrite inject_Z_plus.
    assert (Hsplit : ((y + 1) * inject_Z (2 ^ j)
                      == y * inject_Z (2 ^ j) + inject_Z (2 ^ j))%Q) by ring.
    rewrite Hsplit.
    apply Qplus_le_compat; [apply Qfloor_le|].
    rewrite <- Zle_Qle. pose proof (Z.pow_pos_nonneg 2 j). lia. }
  assert (Hbig : (y + 1 < pow2 1024)%Q).
  { change (pow2 1024) with (inject_Z (2 ^ 1024)).
    eapply Qlt_le_trans.
    - apply Qplus_lt_l. exact Hlt.
    - change 1%Q with (inject_Z 1). rewrite <- inject_Z_plus, <- Zle_Qle.
      assert (2 ^ (E + 1) <= 2 ^ 53) by (apply Z.pow_le_mono_r; lia).
      assert (2 ^ 53 + 1 <= 2 ^ 1024) by (vm_compute; discriminate).
      lia. }
  apply (Qlt_irrefl (pow2 1024)).
  eapply Qle_lt_trans; [exact Hover|].
  eapply Qle_lt_trans; [exact Hrle | exact Hbig].
Qed.

(** [int] of the rounded value, in integer arithmetic. *)
Lemma py_int_binary64_small (y : Q) (E : Z) :
  0 <= E <= 52 -> (0 < y)%Q -> (y < inject_Z (2 ^ (E + 1)))%Q ->
  exists j : Z,
    52 - E <= j /\ 0 <= j /\
    py_int (binary64 y)
    = inr (round_half_even (y * inject_Z (2 ^ j)) / 2 ^ j).
Proof.
  intros HE Hy Hlt.
  destruct (binary64_small y E HE Hy Hlt) as (j & r & Hj & -> & Hr).
  assert (Hj0 : 0 <= j) by lia.
  pose proof (inject_Z_pow2_pos j Hj0) as Hm.
  assert (Hpow : 0 < 2 ^ j) by (apply Z.pow_pos_nonneg; lia).
  exists j. split; [exact Hj|]. split; [exact Hj0|].
  assert (Hround : 0 <= round_half_even (y * inject_Z (2 ^ j))).
  { pose proof (round_half_even_bounds (y * inject_Z (2 ^ j))) as [Hlo _].
    assert (0 <= Qfloor (y * inject_Z (2 ^ j))); [|lia].
    apply Qfloor_ge_Z. apply Qmult_le_0_compat; now apply Qlt_le_weak. }
  assert (Hr0 : (0 <= r)%Q).
  { rewrite Hr. apply Qle_shift_div_l; [exact Hm|].
    rewrite Qmult_0_l. change 0%Q with (inject_Z 0). now rewrite <- Zle_Qle. }
  unfold py_int, ret.
  replace (Qle_bool 0 r) with true by (symmetry; now apply Qle_bool_iff).
  rewrite (Qfloor_comp _ _ Hr), Qfloor_div_Z by exact Hpow. reflexivity.
Qed.

Lemma Qfloor_mul_pow (y : Q) (m : Z) :
  0 < m ->
  Qfloor y * m <= Qfloor (y * inject_Z m) < (Qfloor y + 1) * m.
Proof.
  intros Hm.
  assert (Hm' : (0 < inject_Z m)%Q)
    by (change 0%Q with (inject_Z 0); now rewrite <- Zlt_Qlt).
  split.
  - apply Qfloor_ge_Z. rewrite inject_Z_mult.
    apply Qmult_le_compat_r; [apply Qfloor_le | now apply Qlt_le_weak].
  - apply Qfloor_lt_Z. rewrite inject_Z_mult.
    apply Qmult_lt_compat_r; [exact Hm' | apply Qlt_floor].
Qed.

(** [int] of a rounded non-negative real below [2 ^ 53] is its floor or
    one more. *)
Lemma py_int_binary64_floor (y : Q) :
  (0 <= y)%Q -> (y < inject_Z (2 ^ 53))%Q ->
  exists k, py_int (binary64 y) = inr k /\ Qfloor y <= k <= Qfloor y + 1.
Proof.
  intros Hy Hlt.
  destruct (Qeq_bool y 0) eqn:Ezero.
  - exists 0. unfold binary64. rewrite Ezero. split; [reflexivity|].
    apply Qeq_bool_iff in Ezero. rewrite (Qfloor_comp _ _ Ezero).
    change (Qfloor 0) with 0. lia.
  - assert (Hpos : (0 < y)%Q).
    { apply Qle_lt_or_eq in Hy as [H|H]; [exact H|].
      symmetry in H. apply Qeq_bool_iff in H. congruence. }
    destruct (py_int_binary64_small y 52 ltac:(lia) Hpos Hlt)
      as (j & _ & Hj & Hint).
    eexists. split; [exact Hint|].
    assert (Hpow : 0 < 2 ^ j) by (apply Z.pow_pos_nonneg; lia).
    pose proof (round_half_even_bounds (y * inject_Z (2 ^ j))) as [Hlo Hup].
    pose proof (Qfloor_mul_pow y (2 ^ j) Hpow) as [Hlo' Hup'].
    split.
    + apply Z.div_le_lower_bound; lia.
    + apply Z.div_le_upper_bound; lia.
Qed.

(** The quotient of a non-negative integer below [100 * 2 ^ 46] by 100,
    rounded to binary64 and truncated, is the integer quotient. *)
Lemma head_share_exact (extent percent : Z) :
  0 <= extent * percent < 100 * 2 ^ 46 ->
  head_share extent percent = inr (extent * percent / 100).
Proof.
  set (x := extent * percent). intros [Hx Hlt].
  unfold head_share, int_true_div. fold x. cbn [Z.eqb].
  destruct (Z.eq_dec x 0) as [E0|Hne].
  - rewrite E0. reflexivity.
  - set (y := (inject_Z x / inject_Z 100)%Q).
    assert (Hy : (0 < y)%Q).
    { unfold y. apply Qlt_shift_div_l; [reflexivity|].
      rewrite Qmult_0_l. change 0%Q with (inject_Z 0).
      rewrite <- Zlt_Qlt. lia. }
    assert (Hy46 : (y < inject_Z (2 ^ (45 + 1)))%Q).
    { unfold y. apply Qlt_shift_div_r; [reflexivity|].
      rewrite <- inject_Z_mult, <- Zlt_Qlt. simpl Z.add. lia. }
    destruct (binary64_small y 45 ltac:(lia) Hy Hy46) as (j0 & r & _ & Hb & _).
    destruct (py_int_binary64_small y 45 ltac:(lia) Hy Hy46)
      as (j & Hj7 & Hj & Hint).
    rewrite Hb in Hint |- *. unfold ret. cbn [bind]. rewrite Hint.
    f_equal.
    assert (Hpow : 128 <= 2 ^ j).
    { change 128 with (2 ^ 7). apply Z.pow_le_mono_r; lia. }
    assert (Harg : (y * inject_Z (2 ^ j)
                    == inject_Z (x * 2 ^ j) / inject_Z 100)%Q).
    { unfold y. rewrite inject_Z_mult. field. }
    pose proof (round_half_even_bounds (y * inject_Z (2 ^ j))) as [Hlo Hup].
    rewrite (Qfloor_comp _ _ Harg), Qfloor_div_Z in Hlo, Hup by lia.
    set (m := 2 ^ j) in *. set (R := round_half_even _) in *.
    pose proof (Z.div_mod x 100 ltac:(lia)) as Hdm.
    pose proof (Z.mod_pos_bound x 100 ltac:(lia)) as Hmod.
    set (n := x / 100) in *. set (r0 := x mod 100) in *.
    assert (Hfloor_lo : n * m <= x * m / 100).
    { apply Z.div_le_lower_bound; nia. }
    assert (Hfloor_up : x * m / 100 <= (n + 1) * m - 2).
    { apply Z.lt_succ_r. apply Z.div_lt_upper_bound; nia. }
    apply Z.le_antisymm.
    + apply Z.lt_succ_r. apply Z.div_lt_upper_bound; lia.
    + apply Z.div_le_lower_bound; lia.
Qed.

Lemma round_half_even_Z (m : Z) : round_half_even (inject_Z m) = m.
Proof.
  unfold round_half_even. rewrite Qfloor_Z.
  assert (E : (inject_Z m - inject_Z m == 0)%Q) by ring.
  rewrite (Qcompare_comp _ _ E (1 # 2) (1 # 2) (Qeq_refl _)). reflexivity.
Qed.

(** An integer below [2 ^ 53] is a binary64 value. *)
Lemma float_of_int_small (n : Z) :
  0 <= n < 2 ^ 53 ->
  exists r, float_of_int n = inr (Finite r) /\ (r == inject_Z n)%Q.
Proof.
  intros [Hn Hlt]. unfold float_of_int.
  destruct (Z.eq_dec n 0) as [-> | Hne].
  { exists 0%Q. split; reflexivity. }
  destruct (binary64_small (inject_Z n) 52) as (j & r & Hj & Hr & Hval).
  - lia.
  - change 0%Q with (inject_Z 0). rewrite <- Zlt_Qlt. lia.
  - rewrite <- Zlt_Qlt. exact Hlt.
  - exists r. rewrite Hr. split; [reflexivity |].
    rewrite Hval.
    assert (Hp : (0 < inject_Z (2 ^ j))%Q) by (apply inject_Z_pow2_pos; lia).
    rewrite (round_half_even_comp _ (inject_Z (n * 2 ^ j)))
      by (rewrite inject_Z_mult; reflexivity).
    rewrite round_half_even_Z, inject_Z_mult.
    field. intros E. rewrite E in Hp. now apply Qlt_irrefl in Hp.
Qed.

(** [int(s * n)] for a float [0 <= s < 1] and an integer [0 <= n < 2^53]:
    the floor of the exact product, or one more when the product rounds
    up to an integer; never more than [n]. *)
Lemma sparse_topk_bounds (s : Q) (src_s : Z) :
  (0 <= s)%Q -> (s < 1)%Q -> 1 <= src_s <= 2 ^ 53 ->
  exists k,
    sparse_topk (Finite s) src_s = inr k /\
    Qfloor (s * inject_Z (src_s - 1)) <= k
      <= Qfloor (s * inject_Z (src_s - 1)) + 1 /\
    0 <= k <= src_s - 1.
Proof.
  intros Hs Hs1 Hl. unfold sparse_topk, float_mul_int.
  destruct (float_of_int_small (src_s - 1)) as (r & Hf & Hr); [lia |].
  rewrite Hf.
  cbn [bind ret float_mul].
  assert (Hn : (0 <= inject_Z (src_s - 1))%Q).
  { change 0%Q with (inject_Z 0). rewrite <- Zle_Qle. lia. }
  assert (Hle : (s * inject_Z (src_s - 1) <= inject_Z (src_s - 1))%Q).
  { rewrite <- (Qmult_1_l (inject_Z (src_s - 1))) at 2.
    apply Qmult_le_compat_r; [now apply Qlt_le_weak | exact Hn]. }
  destruct (py_int_binary64_floor (s * r)) as (k & Hk & Hlo & Hhi).
  - rewrite Hr. now apply Qmult_le_0_compat.
  - rewrite Hr. eapply Qle_lt_trans; [exact Hle |].
    rewrite <- Zlt_Qlt. lia.
  - rewrite (Qfloor_comp (s * r) (s * inject_Z (src_s - 1))) in Hlo, Hhi
      by (rewrite Hr; reflexivity).
    exists k. split; [exact Hk |]. split; [lia |].
    assert (0 <= Qfloor (s * inject_Z (src_s - 1))).
    { change 0 with (Qfloor 0). apply Qfloor_resp_le.
      now apply Qmult_le_0_compat. }
    split; [lia |].
    destruct (Z.eq_dec src_s 1) as [-> | Hne].
    + (* the product is zero *)
      revert Hk. change (inject_Z (1 - 1)) with 0%Q in Hr.
      assert (E : Qeq_bool (s * r) 0 = true).
      { apply Qeq_bool_iff. rewrite Hr. ring. }
      unfold binary64. rewrite E. cbn. intros [= <-]. now vm_compute.
    + assert (Qfloor (s * inject_Z (src_s - 1)) < src_s - 1); [| lia].
      apply Qfloor_lt_Z.
      rewrite <- (Qmult_1_l (inject_Z (src_s - 1))) at 2.
      apply Qmult_lt_compat_r; [| exact Hs1].
      change 0%Q with (inject_Z 0). rewrite <- Zlt_Qlt. lia.
Qed.
(** ** Index tuples *)

Lemma agree_off_seg_refl (xs : list slice) : agree_off_seg xs xs.
Proof. split; [reflexivity | intros; reflexivity]. Qed.

Lemma agree_off_seg_trans (xs ys zs : list slice) :
  agree_off_seg xs ys -> agree_off_seg ys zs -> agree_off_seg xs zs.
Proof.
  intros [Hl1 H1] [Hl2 H2]. split; [congruence |].
  intros i Hi. rewrite (H1 i Hi). apply H2, Hi.
Qed.

Lemma forallb_step_unit (xs : list slice) :
  unit_stride xs -> forallb step_is_None xs = true.
Proof.
  induction 1 as [| x xs Hx _ IH]; [reflexivity |].
  simpl. unfold step_is_None at 1. rewrite Hx. exact IH.
Qed.

Lemma step_unit_forallb (xs : list slice) :
  forallb step_is_None xs = true -> unit_stride xs.
Proof.
  induction xs as [| x xs IH]; intros H; [constructor |].
  simpl in H. apply andb_prop in H as [Hx Hxs].
  constructor; [| apply IH, Hxs].
  unfold step_is_None in Hx. destruct (step x); [discriminate | reflexivity].
Qed.

(** The shape of every successful [cut_indices]. *)
Lemma cut_indices_inv (indices out : list slice) (start_ stop_ base : Z) :
  cut_indices indices start_ stop_ base = inr out ->
  exists first seg rest,
    indices = first :: seg :: rest /\
    unit_stride indices /\
    out = first :: slice2 (Z.max (start seg) start_ - base)
                          (Z.min (stop seg) stop_ - base) :: rest.
Proof.
  unfold cut_indices, py_assert.
  destruct (forallb step_is_None indices) eqn:Hsteps; simpl; [| discriminate].
  destruct indices as [| first [| seg rest]]; simpl; try discriminate.
  intros [= <-]. exists first, seg, rest.
  split; [reflexivity |]. split; [apply step_unit_forallb, Hsteps | reflexivity].
Qed.

Lemma cut_indices_agree (indices out : list slice) (start_ stop_ base : Z) :
  cut_indices indices start_ stop_ base = inr out ->
  agree_off_seg indices out /\ out <> [].
Proof.
  intros H. apply cut_indices_inv in H as (first & seg & rest & -> & _ & ->).
  split; [| discriminate]. split; [reflexivity |].
  intros [| [| i]] Hi; simpl; try reflexivity. now elim Hi.
Qed.

(** ** Effects of [general_copy] *)

Lemma tbind_effects {A B} (m : traced A) (k : A -> traced B) (e : effect) :
  e ∈ fst (tbind m k) ->
  e ∈ fst m \/ exists x, snd m = inr x /\ e ∈ fst (k x).
Proof.
  destruct m as [es [err | x]]; simpl; [auto |].
  destruct (k x) as [es' r] eqn:Hk. simpl.
  intros [H | H]%elem_of_app; [auto |].
  right. exists x. rewrite Hk. auto.
Qed.

Lemma lift_effects {A} (r : result A) (e : effect) : e ∈ fst (lift r) -> False.
Proof. simpl. apply not_elem_of_nil. Qed.

Lemma for_each_effects {A} (xs : list A) (body : A -> traced unit) (e : effect) :
  e ∈ fst (for_each xs body) -> exists x, x ∈ xs /\ e ∈ fst (body x).
Proof.
  induction xs as [| x xs IH]; simpl.
  - intros H. now apply not_elem_of_nil in H.
  - intros [H | (_ & _ & H)]%tbind_effects.
    + exists x. split; [left | exact H].
    + destruct (IH H) as (y & Hy & He). exists y. split; [now right | exact He].
Qed.

Lemma general_copy_leaf_effects gdd tdst tsrc ddst dsrc args e :
  e ∈ fst (general_copy_leaf gdd tdst tsrc ddst dsrc args) ->
  effect_args e = args.
Proof.
  unfold general_copy_leaf.
  repeat match goal with
  | |- context [if ?c then _ else _] => destruct c
  | |- context [match ?x with Some _ => _ | None => _ end] => destruct x
  | |- _ ∈ fst (tbind _ _) -> _ =>
      intros [H | (? & _ & H)]%tbind_effects;
      [now apply lift_effects in H | revert H]
  | |- _ ∈ fst (emit _) -> _ =>
      simpl; intros ->%list_elem_of_singleton; reflexivity
  | |- _ ∈ fst (lift _) -> _ => intros H; now apply lift_effects in H
  end.
Qed.

Lemma indices_or_nonempty (d : list slice) (sh : list Z) :
  d <> [] -> indices_or (Some d) sh = d.
Proof. destruct d; [congruence | reflexivity]. Qed.

Lemma from_call_cut w args tdst tsrc sub_args d s e :
  get_tensor w (dst args) = inr tdst ->
  get_tensor w (src args) = inr tsrc ->
  dst_indices sub_args = Some d -> src_indices sub_args = Some s ->
  d <> [] -> s <> [] ->
  agree_off_seg (indices_or (dst_indices args) (shape tdst)) d ->
  agree_off_seg (indices_or (src_indices args) (shape tsrc)) s ->
  from_call w sub_args e -> from_call w args e.
Proof.
  intros Hd Hs Hdi Hsi Hdne Hsne Had Has Hfrom.
  right. exists tdst, tsrc. split; [assumption |]. split; [assumption |].
  destruct Hfrom as [Heq | (td & ts & _ & _ & Hr)].
  - exists d, s. rewrite Heq. repeat split; try assumption; apply Had || apply Has.
  - rewrite Hdi, Hsi in Hr. rewrite !indices_or_nonempty in Hr by assumption.
    destruct Hr as (d' & s' & Hd' & Hs' & Hdd & Hss).
    exists d', s'. split; [assumption |]. split; [assumption |].
    split; eapply agree_off_seg_trans; eassumption.
Qed.

Lemma tbind_lift_ret {A B} (x : A) (k : A -> traced B) :
  tbind (lift (inr x)) k = k x.
Proof. unfold tbind, lift. destruct (k x); reflexivity. Qed.

Lemma tbind_lift_raise {A B} (err : exn) (k : A -> traced B) :
  tbind (lift (inl err)) k = ([], inl err).
Proof. reflexivity. Qed.

(** Peel one [run! x := lift r in _] off a goal about the effects of a
    call: an exception leaves no effects behind. *)
Tactic Notation "peel_lift" ident(x) ident(E) :=
  match goal with
  | |- _ ∈ fst (tbind (lift ?r) _) -> _ =>
      let err := fresh "err" in
      destruct r as [err | x] eqn:E;
      [ rewrite tbind_lift_raise; simpl;
        let H := fresh in intros H; now apply not_elem_of_nil in H
      | rewrite tbind_lift_ret ]
  end.

Lemma general_copy_effects depth w gdd args e :
  e ∈ fst (general_copy depth w gdd args) -> from_call w args e.
Proof.
  revert args e. induction depth as [| depth IH]; intros args e.
  - simpl. intros H. now apply not_elem_of_nil in H.
  - cbn [general_copy].
    peel_lift tdst Etdst. peel_lift ddst Eddst.
    destruct (DeviceType_eqb (device_type ddst) MIXED).
    + peel_lift tsrc Etsrc. peel_lift dsrc Edsrc. peel_lift ok Eok.
      destruct (data tdst) as [| | tensors seg_points | |];
        try (intros H; now apply lift_effects in H).
      peel_lift devices Edev.
      intros (i & _ & H)%for_each_effects. revert H.
      peel_lift lo Elo. peel_lift hi Ehi.
      destruct (lo =? hi).
      { simpl. intros H. now apply not_elem_of_nil in H. }
      peel_lift tmp_src Ecs. peel_lift tmp_dst Ecd. peel_lift sub Esub.
      intros H%IH.
      apply cut_indices_agree in Ecs as [Hs Hsne], Ecd as [Hd Hdne].
      eapply from_call_cut; [exact Etdst | exact Etsrc | | | | | | | exact H];
        simpl; try reflexivity; assumption.
    + peel_lift tsrc Etsrc. peel_lift dsrc Edsrc.
      destruct (DeviceType_eqb (device_type dsrc) MIXED).
      * destruct (data tsrc) as [| | tensors seg_points | |];
          try (intros H; now apply lift_effects in H).
        peel_lift devices Edev.
        intros (i & _ & H)%for_each_effects. revert H.
        peel_lift lo Elo. peel_lift hi Ehi.
        destruct (lo =? hi).
        { simpl. intros H. now apply not_elem_of_nil in H. }
        peel_lift tmp_src Ecs. peel_lift tmp_dst Ecd. peel_lift sub Esub.
        intros H%IH.
        apply cut_indices_agree in Ecs as [Hs Hsne], Ecd as [Hd Hdne].
        eapply from_call_cut; [exact Etdst | exact Etsrc | | | | | | | exact H];
          simpl; try reflexivity; assumption.
      * intros H%general_copy_leaf_effects. now left.
Qed.

Lemma sub_handle_inv (tensors : list (option ref)) (i : nat) (r : ref) :
  sub_handle tensors i = inr r -> tensors !! i = Some (Some r).
Proof.
  unfold sub_handle, py_getitem, bind, ret, raise.
  destruct (tensors !! i) as [[r' |] |]; congruence.
Qed.

Lemma py_getitem_inv {A} (xs : list A) (i : nat) (x : A) :
  py_getitem xs i = inr x -> xs !! i = Some x.
Proof. unfold py_getitem, ret, raise. destruct (xs !! i); congruence. Qed.

(** The recursion through a mixed destination. *)
Lemma general_copy_dst_mixed depth w gdd args tdst tsrc ddst tensors seg_points e :
  get_tensor w (dst args) = inr tdst ->
  get_tensor w (src args) = inr tsrc ->
  device tdst = Some ddst -> device_type ddst = MIXED ->
  data tdst = Segments tensors seg_points ->
  e ∈ fst (general_copy depth w gdd args) ->
  exists sub, dst_segment_call args tdst tsrc tensors seg_points sub /\
              from_call w sub e.
Proof.
  intros Htdst Htsrc Hdev Hmixed Hdata.
  destruct depth as [| depth]; [intros H; now apply not_elem_of_nil in H |].
  cbn [general_copy]. rewrite Htdst, tbind_lift_ret.
  unfold tensor_device at 1. rewrite Hdev, tbind_lift_ret, Hmixed.
  change (DeviceType_eqb MIXED MIXED) with true. cbv iota.
  rewrite Htsrc, tbind_lift_ret.
  peel_lift dsrc Edsrc. peel_lift ok Eok. rewrite Hdata.
  peel_lift devices Edev.
  intros (i & _ & H)%for_each_effects. revert H.
  peel_lift lo Elo. peel_lift hi Ehi.
  destruct (Z.eqb_spec lo hi) as [| Hne].
  { simpl. intros H. now apply not_elem_of_nil in H. }
  peel_lift tmp_src Ecs. peel_lift tmp_dst Ecd. peel_lift r Esub.
  intros H%general_copy_effects.
  eexists. split; [| exact H].
  exists i, lo, hi, r, tmp_dst, tmp_src.
  apply py_getitem_inv in Elo, Ehi. apply sub_handle_inv in Esub.
  repeat split; assumption.
Qed.

(** The recursion through a mixed source. *)
Lemma general_copy_src_mixed depth w gdd args tdst tsrc ddst dsrc tensors seg_points e :
  get_tensor w (dst args) = inr tdst ->
  get_tensor w (src args) = inr tsrc ->
  device tdst = Some ddst -> device_type ddst <> MIXED ->
  device tsrc = Some dsrc -> device_type dsrc = MIXED ->
  data tsrc = Segments tensors seg_points ->
  e ∈ fst (general_copy depth w gdd args) ->
  exists sub, src_segment_call args tdst tsrc tensors seg_points sub /\
              from_call w sub e.
Proof.
  intros Htdst Htsrc Hdev Hnot Hsdev Hmixed Hdata.
  destruct depth as [| depth]; [intros H; now apply not_elem_of_nil in H |].
  cbn [general_copy]. rewrite Htdst, tbind_lift_ret.
  unfold tensor_device at 1. rewrite Hdev, tbind_lift_ret.
  unfold DeviceType_eqb at 1. rewrite bool_decide_eq_false_2 by exact Hnot.
  rewrite Htsrc, tbind_lift_ret.
  unfold tensor_device at 1. rewrite Hsdev, tbind_lift_ret, Hmixed.
  change (DeviceType_eqb MIXED MIXED) with true. cbv iota.
  rewrite Hdata.
  peel_lift devices Edev.
  intros (i & _ & H)%for_each_effects. revert H.
  peel_lift lo Elo. peel_lift hi Ehi.
  destruct (Z.eqb_spec lo hi) as [| Hne].
  { simpl. intros H. now apply not_elem_of_nil in H. }
  peel_lift tmp_src Ecs. peel_lift tmp_dst Ecd. peel_lift r Esub.
  intros H%general_copy_effects.
  eexists. split; [| exact H].
  exists i, lo, hi, r, tmp_dst, tmp_src.
  apply py_getitem_inv in Elo, Ehi. apply sub_handle_inv in Esub.
  repeat split; assumption.
Qed.

Lemma get_tensor_lookup (w : World) (r : ref) (t : TorchTensor) :
  objects w !! r = Some t -> get_tensor w r = inr t.
Proof. unfold get_tensor. now intros ->. Qed.

Lemma get_tensor_inv (w : World) (r : ref) (t : TorchTensor) :
  get_tensor w r = inr t -> objects w !! r = Some t.
Proof.
  unfold get_tensor. destruct (objects w !! r); unfold ret, raise; congruence.
Qed.

(** Between two tensors that are not mixed [general_copy] goes straight
    to its non-recursive branches. *)
Lemma general_copy_flat (depth : nat) (w : World) (gdd : option Device)
    (args : copy_args) (tdst tsrc : TorchTensor) (ddst dsrc : Device) :
  get_tensor w (dst args) = inr tdst ->
  device tdst = Some ddst ->
  device_type ddst <> MIXED ->
  get_tensor w (src args) = inr tsrc ->
  device tsrc = Some dsrc ->
  device_type dsrc <> MIXED ->
  general_copy (S depth) w gdd args
  = general_copy_leaf gdd tdst tsrc ddst dsrc args.
Proof.
  intros Hdst Hddst Hnd Hsrc Hdsrc Hns. cbn [general_copy].
  rewrite Hdst, tbind_lift_ret. unfold tensor_device. rewrite Hddst.
  rewrite tbind_lift_ret.
  unfold DeviceType_eqb. rewrite (bool_decide_eq_false_2 _ Hnd).
  rewrite Hsrc, tbind_lift_ret, Hdsrc, tbind_lift_ret.
  rewrite (bool_decide_eq_false_2 _ Hns). reflexivity.
Qed.

Lemma tbind_lift_ok {A B} (r : result A) (k : A -> traced B)
    (es : list effect) (y : B) :
  tbind (lift r) k = (es, inr y) -> exists x, r = inr x /\ k x = (es, inr y).
Proof.
  destruct r as [e | x]; [discriminate |].
  rewrite tbind_lift_ret. intros H. now exists x.
Qed.

(** A successful call between tensors that are not mixed issues exactly
    one effect, and it carries the arguments of the call. *)
Lemma general_copy_leaf_ok gdd tdst tsrc ddst dsrc args es :
  general_copy_leaf gdd tdst tsrc ddst dsrc args = (es, inr tt) ->
  map effect_args es = [args].
Proof.
  unfold general_copy_leaf, emit.
  repeat match goal with
  | |- context [if ?c then _ else _] => destruct c
  | |- context [match ?x with Some _ => _ | None => _ end] => destruct x
  | |- tbind (lift _) _ = _ -> _ =>
      intros (? & _ & H)%tbind_lift_ok; revert H
  | |- (_, ret tt) = _ -> _ => intros [= <-]; reflexivity
  | |- lift _ = _ -> _ => discriminate
  end.
Qed.

Lemma general_copy_flat_ok depth w gdd args es :
  flat w (dst args) -> flat w (src args) ->
  general_copy (S depth) w gdd args = (es, inr tt) ->
  map effect_args es = [args].
Proof.
  intros Hfd Hfs. cbn [general_copy].
  intros (tdst & Hdst & H)%tbind_lift_ok.
  apply tbind_lift_ok in H as (ddst & Hddst & H).
  unfold tensor_device in Hddst.
  destruct (device tdst) as [d |] eqn:Edst; [| discriminate].
  injection Hddst as ->.
  pose proof (Hfd _ _ (get_tensor_inv _ _ _ Hdst) Edst) as Hnd.
  unfold DeviceType_eqb in H. rewrite (bool_decide_eq_false_2 _ Hnd) in H.
  apply tbind_lift_ok in H as (tsrc & Hsrc & H).
  apply tbind_lift_ok in H as (dsrc & Hdsrc & H).
  unfold tensor_device in Hdsrc.
  destruct (device tsrc) as [d |] eqn:Esrc; [| discriminate].
  injection Hdsrc as ->.
  pose proof (Hfs _ _ (get_tensor_inv _ _ _ Hsrc) Esrc) as Hns.
  rewrite (bool_decide_eq_false_2 _ Hns) in H.
  now apply general_copy_leaf_ok in H.
Qed.

Lemma for_each_args {A} (xs : list A) (body : A -> traced unit)
    (f : A -> option copy_args) (es : list effect) :
  (forall x es', x ∈ xs -> body x = (es', inr tt) ->
                 map effect_args es' = option_list (f x)) ->
  for_each xs body = (es, inr tt) ->
  map effect_args es = omap f xs.
Proof.
  revert es. induction xs as [| x xs IH]; intros es Hbody.
  - simpl. now intros [= <-].
  - cbn [for_each]. destruct (body x) as [es1 [e | []]] eqn:Ex;
      [discriminate |]. cbn [tbind].
    destruct (for_each xs body) as [es2 r] eqn:Erest.
    intros [= <- ->]. rewrite map_app.
    rewrite (Hbody x es1 (list_elem_of_here _ _) Ex).
    rewrite (IH es2); [| | reflexivity].
    + simpl. destruct (f x); reflexivity.
    + intros y es' Hy. apply Hbody. now apply list_elem_of_further.
Qed.

Lemma cut_indices_rebase (indices out : list slice) (lo hi base : Z) :
  cut_indices indices lo hi base = inr out ->
  rebase_axis indices lo hi base = Some out.
Proof.
  intros H. apply cut_indices_inv in H as (first & seg & rest & -> & _ & ->).
  reflexivity.
Qed.

(** Through a mixed destination a successful call issues, in the order of
    the base devices, one copy for every non-empty segment, into the
    sub-handle of the segment, with the destination range re-based to the
    segment and the source range cut. *)
Lemma general_copy_dst_mixed_args
    depth w gdd args tdst tsrc devices tensors seg_points es :
  get_tensor w (dst args) = inr tdst ->
  get_tensor w (src args) = inr tsrc ->
  device tdst = Some (TorchMixedDevice devices) ->
  data tdst = Segments tensors seg_points ->
  one_level w (dst args) ->
  general_copy (S (S depth)) w gdd args = (es, inr tt) ->
  map effect_args es
  = omap (dst_segment_args args tdst tsrc tensors seg_points)
         (seq 0 (length devices)).
Proof.
  intros Hdst Hsrc Hdev Hdata Hone.
  remember (S depth) as d1 eqn:Hd1. cbn [general_copy].
  rewrite Hdst, tbind_lift_ret. unfold tensor_device at 1.
  rewrite Hdev, tbind_lift_ret. cbn [device_type].
  change (DeviceType_eqb MIXED MIXED) with true. cbv iota.
  rewrite Hsrc, tbind_lift_ret.
  intros (dsrc & Hdsrc & H)%tbind_lift_ok.
  apply tbind_lift_ok in H as (u & Hassert & H).
  rewrite Hdata in H. cbn [base_devices_of] in H.
  rewrite tbind_lift_ret in H.
  assert (Hflat_src : flat w (src args)).
  { intros t d Ht Hd. apply get_tensor_lookup in Ht.
    rewrite Hsrc in Ht. injection Ht as <-.
    unfold tensor_device in Hdsrc. rewrite Hd in Hdsrc.
    injection Hdsrc as <-. unfold py_assert in Hassert.
    destruct (DeviceType_eqb (device_type d) MIXED) eqn:E; [discriminate |].
    intros Hm. unfold DeviceType_eqb in E.
    now rewrite (bool_decide_eq_true_2 _ Hm) in E. }
  revert H. apply for_each_args. intros i es' _.
  unfold dst_segment_args, py_getitem, sub_handle, py_getitem.
  intros (lo & Hlo & H)%tbind_lift_ok.
  destruct (seg_points !! i) as [lo' |]; [| discriminate].
  injection Hlo as ->.
  apply tbind_lift_ok in H as (hi & Hhi & H).
  destruct (seg_points !! S i) as [hi' |]; [| discriminate].
  injection Hhi as ->.
  destruct (lo =? hi).
  { injection H as <-. destruct (tensors !! i) as [[r |] |]; reflexivity. }
  apply tbind_lift_ok in H as (tmp_src & Hcs & H).
  apply tbind_lift_ok in H as (tmp_dst & Hcd & H).
  apply tbind_lift_ok in H as (sub & Hsub & H).
  destruct (tensors !! i) as [[r |] |] eqn:Ei; try discriminate.
  cbn [bind] in Hsub. injection Hsub as ->.
  rewrite (cut_indices_rebase _ _ _ _ _ Hcs), (cut_indices_rebase _ _ _ _ _ Hcd).
  subst d1. apply general_copy_flat_ok in H; [exact H | | exact Hflat_src].
  cbn [dst]. eapply Hone; [apply get_tensor_inv, Hdst | exact Hdata |].
  eapply list_elem_of_lookup_2, Ei.
Qed.

(** Through a mixed source it is the other way round: the source range
    is re-based to the segment and the destination range cut. *)
Lemma general_copy_src_mixed_args
    depth w gdd args tdst tsrc ddst devices tensors seg_points es :
  get_tensor w (dst args) = inr tdst ->
  get_tensor w (src args) = inr tsrc ->
  device tdst = Some ddst -> device_type ddst <> MIXED ->
  device tsrc = Some (TorchMixedDevice devices) ->
  data tsrc = Segments tensors seg_points ->
  one_level w (src args) ->
  general_copy (S (S depth)) w gdd args = (es, inr tt) ->
  map effect_args es
  = omap (src_segment_args args tdst tsrc tensors seg_points)
         (seq 0 (length devices)).
Proof.
  intros Hdst Hsrc Hddst Hnd Hdev Hdata Hone.
  remember (S depth) as d1 eqn:Hd1. cbn [general_copy].
  rewrite Hdst, tbind_lift_ret. unfold tensor_device at 1.
  rewrite Hddst, tbind_lift_ret.
  unfold DeviceType_eqb at 1. rewrite (bool_decide_eq_false_2 _ Hnd).
  rewrite Hsrc, tbind_lift_ret. unfold tensor_device.
  rewrite Hdev, tbind_lift_ret. cbn [device_type].
  change (DeviceType_eqb MIXED MIXED) with true. cbv iota.
  rewrite Hdata. cbn [base_devices_of]. rewrite tbind_lift_ret.
  assert (Hflat_dst : flat w (dst args)).
  { intros t d Ht Hd. apply get_tensor_lookup in Ht.
    rewrite Hdst in Ht. injection Ht as <-. congruence. }
  apply for_each_args. intros i es' _.
  unfold src_segment_args, py_getitem, sub_handle, py_getitem.
  intros (lo & Hlo & H)%tbind_lift_ok.
  destruct (seg_points !! i) as [lo' |]; [| discriminate].
  injection Hlo as ->.
  apply tbind_lift_ok in H as (hi & Hhi & H).
  destruct (seg_points !! S i) as [hi' |]; [| discriminate].
  injection Hhi as ->.
  destruct (lo =? hi).
  { injection H as <-. destruct (tensors !! i) as [[r |] |]; reflexivity. }
  apply tbind_lift_ok in H as (tmp_src & Hcs & H).
  apply tbind_lift_ok in H as (tmp_dst & Hcd & H).
  apply tbind_lift_ok in H as (sub & Hsub & H).
  destruct (tensors !! i) as [[r |] |] eqn:Ei; try discriminate.
  cbn [bind] in Hsub. injection Hsub as ->.
  rewrite (cut_indices_rebase _ _ _ _ _ Hcs), (cut_indices_rebase _ _ _ _ _ Hcd).
  subst d1. apply general_copy_flat_ok in H; [exact H | exact Hflat_dst |].
  cbn [src]. eapply Hone; [apply get_tensor_inv, Hsrc | exact Hdata |].
  eapply list_elem_of_lookup_2, Ei.
Qed.



(** A copy into the 50/30/20 mixed tensor: a direct copy into the GPU
    segment, a direct copy into the CPU segment and a worker task for the
    disk segment, each with the destination range re-based to its
    segment. *)
Example general_copy_into_mixed :
  general_copy 2 mixed_world (Some disk) fill_mixed
  = ([ DirectCopy (CopyArgs 0%nat (Some [slice2 0 7; slice2 0 50; slice2 0 4])
                            4%nat (Some [slice2 0 7; slice2 0 50; slice2 0 4]));
       DirectCopy (CopyArgs 1%nat (Some [slice2 0 7; slice2 0 30; slice2 0 4])
                            4%nat (Some [slice2 0 7; slice2 50 80; slice2 0 4]));
       SubmitCopy disk
                  (CopyArgs 2%nat (Some [slice2 0 7; slice2 0 20; slice2 0 4])
                            4%nat (Some [slice2 0 7; slice2 80 100; slice2 0 4])) ],
     inr tt).
Proof. reflexivity. Qed.

Lemma broadcast_rev_refl (xs : list Z) : broadcast_rev xs xs = true.
Proof.
  induction xs as [|x xs IH]; [reflexivity|].
  simpl. rewrite Z.eqb_refl, IH. reflexivity.
Qed.

Lemma copy__refl (xs : list Z) : copy_ xs xs = inr tt.
Proof. unfold copy_. rewrite broadcast_rev_refl. reflexivity. Qed.

Lemma lookup_map {A B} (f : A -> B) (xs : list A) (i : nat) :
  map f xs !! i = f <$> xs !! i.
Proof.
  revert i. induction xs as [|x xs IH]; intros [|i]; simpl; auto.
Qed.

(** ** The depth bound of [general_copy]

    A call that does not run out of depth gives the same effects and the
    same outcome at every larger depth, and depth two is enough for every
    mixed tensor whose sub-handles are not mixed themselves, which is all
    [TorchMixedDevice.allocate] builds. *)

Lemma tbind_lift_stable {A B} (r : result A) (k1 k2 : A -> traced B) :
  (forall x, ~ overflows (k1 x) -> k2 x = k1 x) ->
  ~ overflows (tbind (lift r) k1) ->
  tbind (lift r) k2 = tbind (lift r) k1.
Proof.
  intros Hk. destruct r as [e | x].
  - reflexivity.
  - rewrite !tbind_lift_ret. apply Hk.
Qed.

Lemma for_each_stable {A} (xs : list A) (body1 body2 : A -> traced unit) :
  (forall x, ~ overflows (body1 x) -> body2 x = body1 x) ->
  ~ overflows (for_each xs body1) ->
  for_each xs body2 = for_each xs body1.
Proof.
  intros Hbody. induction xs as [| x xs IH]; [reflexivity |].
  cbn [for_each]. intros Hno.
  destruct (body1 x) as [es [e | []]] eqn:E1.
  - assert (body2 x = body1 x) as E2.
    { apply Hbody. rewrite E1. intros H. apply Hno. exact H. }
    rewrite E2, E1. reflexivity.
  - assert (body2 x = body1 x) as E2.
    { apply Hbody. rewrite E1. discriminate. }
    rewrite E2, E1. cbn [tbind] in Hno |- *.
    destruct (for_each xs body1) as [es1 r1] eqn:Erest.
    rewrite IH; [reflexivity |].
    intros H. apply Hno. exact H.
Qed.

(** One more level of depth changes nothing for a call that had enough. *)
Lemma general_copy_depth_S depth w gdd args :
  ~ overflows (general_copy depth w gdd args) ->
  general_copy (S depth) w gdd args = general_copy depth w gdd args.
Proof.
  revert args. induction depth as [| depth IH]; intros args.
  - intros H. exfalso. apply H. reflexivity.
  - cbn [general_copy].
    apply tbind_lift_stable. intros tdst.
    apply tbind_lift_stable. intros ddst.
    destruct (DeviceType_eqb (device_type ddst) MIXED).
    + apply tbind_lift_stable. intros tsrc.
      apply tbind_lift_stable. intros dsrc.
      apply tbind_lift_stable. intros _.
      destruct (data tdst); try reflexivity.
      apply tbind_lift_stable. intros devices.
      apply for_each_stable. intros i.
      apply tbind_lift_stable. intros lo.
      apply tbind_lift_stable. intros hi.
      destruct (lo =? hi); [reflexivity |].
      apply tbind_lift_stable. intros tmp_src.
      apply tbind_lift_stable. intros tmp_dst.
      apply tbind_lift_stable. intros sub.
      apply IH.
    + apply tbind_lift_stable. intros tsrc.
      apply tbind_lift_stable. intros dsrc.
      destruct (DeviceType_eqb (device_type dsrc) MIXED); [| reflexivity].
      destruct (data tsrc); try reflexivity.
      apply tbind_lift_stable. intros devices.
      apply for_each_stable. intros i.
      apply tbind_lift_stable. intros lo.
      apply tbind_lift_stable. intros hi.
      destruct (lo =? hi); [reflexivity |].
      apply tbind_lift_stable. intros tmp_src.
      apply tbind_lift_stable. intros tmp_dst.
      apply tbind_lift_stable. intros sub.
      apply IH.
Qed.

Lemma general_copy_depth_enough depth extra w gdd args :
  ~ overflows (general_copy depth w gdd args) ->
  general_copy (extra + depth) w gdd args = general_copy depth w gdd args.
Proof.
  intros Hno. induction extra as [| extra IH]; [reflexivity |].
  cbn [Nat.add]. rewrite general_copy_depth_S; [exact IH |].
  now rewrite IH.
Qed.

(** *** None of the steps of [general_copy] raises RecursionError itself *)

Lemma get_tensor_no_overflow w r : get_tensor w r <> inl RecursionError.
Proof. unfold get_tensor. destruct (objects w !! r); discriminate. Qed.

Lemma tensor_device_no_overflow t : tensor_device t <> inl RecursionError.
Proof. unfold tensor_device. destruct (device t); discriminate. Qed.

Lemma py_assert_no_overflow c msg : py_assert c msg <> inl RecursionError.
Proof. destruct c; discriminate. Qed.

Lemma py_getitem_no_overflow {A} (xs : list A) i :
  py_getitem xs i <> inl RecursionError.
Proof. unfold py_getitem. destruct (xs !! i); discriminate. Qed.

Lemma base_devices_no_overflow d : base_devices_of d <> inl RecursionError.
Proof. destruct d; discriminate. Qed.

Lemma sub_handle_no_overflow tensors i :
  sub_handle tensors i <> inl RecursionError.
Proof.
  unfold sub_handle, py_getitem.
  destruct (tensors !! i) as [[r |] |]; discriminate.
Qed.

Lemma cut_indices_no_overflow indices lo hi base :
  cut_indices indices lo hi base <> inl RecursionError.
Proof.
  unfold cut_indices, py_assert, py_getitem.
  destruct (forallb step_is_None indices); [| discriminate]. cbn [bind ret].
  destruct (indices !! SEG_DIM); discriminate.
Qed.

Lemma is_pinned_no_overflow t : is_pinned t <> inl RecursionError.
Proof. unfold is_pinned. destruct (data t); discriminate. Qed.

Lemma slice_length_no_overflow n x : slice_length n x <> inl RecursionError.
Proof.
  unfold slice_length. destruct (step x) as [k |]; [| discriminate].
  destruct (k <=? 0); discriminate.
Qed.

Lemma index_shape_no_overflow shape_ indices :
  index_shape shape_ indices <> inl RecursionError.
Proof.
  revert shape_. induction indices as [| x xs IH]; intros shape_.
  - destruct shape_; discriminate.
  - destruct shape_ as [| n ns]; [discriminate |]. cbn [index_shape].
    pose proof (slice_length_no_overflow n x) as Hx.
    destruct (slice_length n x) as [e | l]; [cbn [bind]; congruence |].
    cbn [bind]. specialize (IH ns).
    destruct (index_shape ns xs) as [e | ls]; [cbn [bind]; congruence |].
    discriminate.
Qed.

Lemma view_shape_no_overflow shape_ indices :
  view_shape shape_ indices <> inl RecursionError.
Proof.
  destruct indices as [[| x xs] |]; try discriminate.
  apply index_shape_no_overflow.
Qed.

Lemma native_copy_no_overflow tdst di tsrc si :
  native_copy tdst di tsrc si <> inl RecursionError.
Proof.
  unfold native_copy.
  pose proof (view_shape_no_overflow (shape tsrc) si) as Hs.
  destruct (view_shape (shape tsrc) si) as [e | s]; [cbn [bind]; congruence |].
  cbn [bind].
  pose proof (view_shape_no_overflow (shape tdst) di) as Hd.
  destruct (view_shape (shape tdst) di) as [e | d]; [cbn [bind]; congruence |].
  cbn [bind]. unfold copy_. destruct (broadcast_rev _ _); discriminate.
Qed.

Lemma relay_condition_no_overflow tdst tsrc dt_dst dt_src :
  relay_condition tdst tsrc dt_dst dt_src <> inl RecursionError.
Proof.
  unfold relay_condition.
  destruct (negb _); [discriminate |]. destruct (negb _); [discriminate |].
  pose proof (is_pinned_no_overflow tdst) as Hp.
  destruct (is_pinned tdst) as [e | []]; cbn [bind]; try congruence;
    try discriminate.
  pose proof (py_getitem_no_overflow (shape tsrc) 0) as Ho.
  destruct (py_getitem (shape tsrc) 0); cbn [bind]; [congruence | discriminate].
Qed.

Lemma pin_condition_no_overflow tsrc dt_dst dt_src :
  pin_condition tsrc dt_dst dt_src <> inl RecursionError.
Proof.
  unfold pin_condition.
  destruct (negb _); [discriminate |]. destruct (negb _); [discriminate |].
  pose proof (is_pinned_no_overflow tsrc) as Hp.
  destruct (is_pinned tsrc); cbn [bind]; [congruence | discriminate].
Qed.

Create HintDb depth.
#[local] Hint Resolve get_tensor_no_overflow tensor_device_no_overflow
  py_assert_no_overflow py_getitem_no_overflow base_devices_no_overflow
  sub_handle_no_overflow cut_indices_no_overflow native_copy_no_overflow
  relay_condition_no_overflow pin_condition_no_overflow : depth.

Lemma tbind_lift_overflow {A B} (r : result A) (k : A -> traced B) :
  r <> inl RecursionError ->
  overflows (tbind (lift r) k) ->
  exists x, r = inr x /\ overflows (k x).
Proof.
  intros Hr. destruct r as [e | x].
  - unfold overflows. simpl. congruence.
  - rewrite tbind_lift_ret. intros H. now exists x.
Qed.

Lemma for_each_overflow {A} (xs : list A) (body : A -> traced unit) :
  overflows (for_each xs body) -> exists x, x ∈ xs /\ overflows (body x).
Proof.
  unfold overflows. induction xs as [| x xs IH]; [discriminate |].
  cbn [for_each]. destruct (body x) as [es [e | []]] eqn:Ebody.
  - simpl. intros H. exists x. split; [left |]. now rewrite Ebody.
  - cbn [tbind]. destruct (for_each xs body) as [es' r]. simpl in *.
    intros H. destruct (IH H) as (y & Hy & Hover).
    exists y. split; [now right | exact Hover].
Qed.

(** A call that ends on the spot, with or without an exception of
    another kind. *)
Ltac no_overflow := unfold overflows, emit, lift; simpl; discriminate.

(** Peel one [run! x := lift r in _] off an overflowing call. *)
Tactic Notation "peel_overflow" ident(x) ident(E) :=
  match goal with
  | |- overflows (tbind (lift ?r) _) -> _ =>
      let H := fresh in
      intros H; apply tbind_lift_overflow in H as (x & E & H);
      [revert H | auto with depth]
  end.

Lemma general_copy_leaf_no_overflow gdd tdst tsrc ddst dsrc args :
  ~ overflows (general_copy_leaf gdd tdst tsrc ddst dsrc args).
Proof.
  unfold general_copy_leaf, not.
  destruct (_ || _); [no_overflow |].
  destruct (DeviceType_eqb _ DISK); [no_overflow |].
  destruct (DeviceType_eqb _ DISK); [no_overflow |].
  peel_overflow relay Erelay.
  destruct relay; [destruct gdd; no_overflow |].
  peel_overflow pin Epin. peel_overflow ok Eok.
  destruct pin; no_overflow.
Qed.

(** A call between two flat handles does not recurse. *)
Lemma general_copy_flat_no_overflow depth w gdd args :
  flat w (dst args) -> flat w (src args) ->
  ~ overflows (general_copy (S depth) w gdd args).
Proof.
  intros Hdst Hsrc. cbn [general_copy]. unfold not.
  peel_overflow tdst Etdst. peel_overflow ddst Eddst.
  unfold get_tensor in Etdst.
  destruct (objects w !! dst args) as [t |] eqn:Eobj; [| discriminate].
  injection Etdst as ->.
  unfold tensor_device in Eddst.
  destruct (device tdst) as [d |] eqn:Edev; [| discriminate].
  injection Eddst as ->.
  unfold DeviceType_eqb at 1.
  rewrite bool_decide_eq_false_2 by (eapply Hdst; eassumption).
  peel_overflow tsrc Etsrc. peel_overflow dsrc Edsrc.
  unfold get_tensor in Etsrc.
  destruct (objects w !! src args) as [t |] eqn:Esobj; [| discriminate].
  injection Etsrc as ->.
  unfold tensor_device in Edsrc.
  destruct (device tsrc) as [d |] eqn:Esdev; [| discriminate].
  injection Edsrc as ->.
  unfold DeviceType_eqb at 1.
  rewrite bool_decide_eq_false_2 by (eapply Hsrc; eassumption).
  apply general_copy_leaf_no_overflow.
Qed.

(** Depth two is enough when mixed tensors are not nested. *)
Lemma general_copy_two_levels depth w gdd args :
  one_level w (dst args) -> one_level w (src args) ->
  ~ overflows (general_copy (S (S depth)) w gdd args).
Proof.
  intros Hdst Hsrc. cbn [general_copy]. unfold not.
  peel_overflow tdst Etdst. peel_overflow ddst Eddst.
  unfold get_tensor in Etdst.
  destruct (objects w !! dst args) as [t |] eqn:Eobj; [| discriminate].
  injection Etdst as ->.
  destruct (DeviceType_eqb (device_type ddst) MIXED) eqn:Emixed.
  - peel_overflow tsrc Etsrc. peel_overflow dsrc Edsrc. peel_overflow ok Eok.
    destruct (data tdst) as [| | tensors seg_points | |] eqn:Edata;
      try no_overflow.
    peel_overflow devices Edevices.
    intros (i & _ & H)%for_each_overflow. revert H.
    peel_overflow lo Elo. peel_overflow hi Ehi.
    destruct (lo =? hi); [no_overflow |].
    peel_overflow tmp_src Ecs. peel_overflow tmp_dst Ecd.
    peel_overflow sub Esub.
    apply general_copy_flat_no_overflow; cbn [dst src].
    + apply sub_handle_inv in Esub.
      eapply Hdst; [exact Eobj | exact Edata |].
      eapply list_elem_of_lookup_2, Esub.
    + unfold get_tensor in Etsrc.
      destruct (objects w !! src args) as [t |] eqn:Esobj; [| discriminate].
      injection Etsrc as ->.
      intros t d Ht Hd. assert (t = tsrc) as -> by congruence.
      unfold tensor_device in Edsrc. rewrite Hd in Edsrc.
      injection Edsrc as <-.
      unfold py_assert in Eok.
      destruct (DeviceType_eqb (device_type d) MIXED) eqn:Esm;
        [discriminate |].
      unfold DeviceType_eqb in Esm. now apply bool_decide_eq_false in Esm.
  - peel_overflow tsrc Etsrc. peel_overflow dsrc Edsrc.
    unfold get_tensor in Etsrc.
    destruct (objects w !! src args) as [t |] eqn:Esobj; [| discriminate].
    injection Etsrc as ->.
    destruct (DeviceType_eqb (device_type dsrc) MIXED);
      [| apply general_copy_leaf_no_overflow].
    destruct (data tsrc) as [| | tensors seg_points | |] eqn:Edata;
      try no_overflow.
    peel_overflow devices Edevices.
    intros (i & _ & H)%for_each_overflow. revert H.
    peel_overflow lo Elo. peel_overflow hi Ehi.
    destruct (lo =? hi); [no_overflow |].
    peel_overflow tmp_src Ecs. peel_overflow tmp_dst Ecd.
    peel_overflow sub Esub.
    apply general_copy_flat_no_overflow; cbn [dst src].
    + intros t d Ht Hd. assert (t = tdst) as -> by congruence.
      unfold tensor_device in Eddst. rewrite Hd in Eddst.
      injection Eddst as <-.
      unfold DeviceType_eqb in Emixed. now apply bool_decide_eq_false in Emixed.
    + apply sub_handle_inv in Esub.
      eapply Hsrc; [exact Esobj | exact Edata |].
      eapply list_elem_of_lookup_2, Esub.
Qed.

(** For such tensors every depth from two on gives the same call. *)
Lemma general_copy_depth_two_enough extra w gdd args :
  one_level w (dst args) -> one_level w (src args) ->
  general_copy (extra + 2) w gdd args = general_copy 2 w gdd args.
Proof.
  intros Hdst Hsrc. apply general_copy_depth_enough.
  now apply general_copy_two_levels.
Qed.

(** ** The GPU-to-CPU relay branch *)

(** C6 (as amended). For a [general_copy] call from a GPU tensor to a CPU
    tensor (so neither side is mixed, compressed or on disk) the copy is
    put on the worker queue of the global disk device, and nothing is
    copied by the call itself, exactly when the destination buffer is not
    pinned and the leading extent of the source handle, [src.shape[0]],
    is greater than one, whatever range of the source is transferred;
    otherwise the call takes the direct path: a non-blocking device copy,
    issued once the shapes of the two views are accepted. *)
Theorem gpu_to_cpu_relay_condition
    depth w gdd args tdst tsrc name_d name_s pinned outer rest :
  get_tensor w (dst args) = inr tdst ->
  get_tensor w (src args) = inr tsrc ->
  device tsrc = Some (TorchDevice name_s true) ->
  device tdst = Some (TorchDevice name_d false) ->
  data tdst = Primitive pinned ->
  shape tsrc = outer :: rest ->
  general_copy (S depth) w gdd args =
    if negb pinned && (1 <? outer) then
      match gdd with
      | Some disk_device => ([SubmitCopy disk_device args], inr tt)
      | None => ([], inl AttributeError)
      end
    else
      tbind (lift (native_copy tdst (dst_indices args) tsrc (src_indices args)))
            (fun _ => emit (DirectCopy args)).
Proof.
  intros Htdst Htsrc Hsdev Hddev Hdata Hshape.
  cbn [general_copy]. rewrite Htdst, tbind_lift_ret.
  unfold tensor_device at 1. rewrite Hddev, tbind_lift_ret.
  cbn [device_type]. change (DeviceType_eqb CPU MIXED) with false. cbv iota.
  rewrite Htsrc, tbind_lift_ret.
  unfold tensor_device at 1. rewrite Hsdev, tbind_lift_ret.
  cbn [device_type]. change (DeviceType_eqb CUDA MIXED) with false. cbv iota.
  unfold general_copy_leaf. cbn [device_type].
  change (DeviceType_eqb CUDA COMPRESSED) with false.
  change (DeviceType_eqb CPU COMPRESSED) with false.
  change (DeviceType_eqb CUDA DISK) with false.
  change (DeviceType_eqb CPU DISK) with false.
  cbn [orb]. cbv iota.
  unfold relay_condition, pin_condition, is_pinned.
  change (DeviceType_eqb CUDA CUDA) with true.
  change (DeviceType_eqb CPU CPU) with true.
  change (DeviceType_eqb CUDA CPU) with false.
  rewrite Hdata, Hshape. cbn [negb bind ret py_getitem lookup list_lookup].
  destruct pinned; cbn [negb andb].
  - rewrite !tbind_lift_ret. reflexivity.
  - destruct (1 <? outer); rewrite !tbind_lift_ret.
    + destruct gdd; reflexivity.
    + reflexivity.
Qed.

Lemma gpu_to_cpu_relay_condition_witness :
  general_copy 1 relay_world (Some disk) relay_args
  = ([SubmitCopy disk relay_args], inr tt).
Proof.
  exact (gpu_to_cpu_relay_condition 0 relay_world (Some disk) relay_args
           _ _ "cpu" "cuda:0" false 10 [4]
           eq_refl eq_refl eq_refl eq_refl eq_refl eq_refl).
Defined.

(** The transfer of [relay_args] spans a single outer element (row 3 of
    the source) and the destination is not pinned, yet the copy is put on
    the worker queue and no direct copy is issued. *)
Lemma relay_of_single_row_transfer :
  exists tdst tsrc,
    get_tensor relay_world (dst relay_args) = inr tdst /\
    get_tensor relay_world (src relay_args) = inr tsrc /\
    transfer_outer_span tsrc (src_indices relay_args) = inr 1 /\
    is_pinned tdst = inr false /\
    general_copy 1 relay_world (Some disk) relay_args
    = ([SubmitCopy disk relay_args], inr tt) /\
    general_copy 1 relay_world (Some disk) relay_args
    <> ([DirectCopy relay_args], inr tt).
Proof.
  eexists. eexists. split; [reflexivity |]. split; [reflexivity |].
  split; [reflexivity |]. split; [reflexivity |]. split; [reflexivity |].
  discriminate.
Qed.

(** ** Allocation on a mixed device *)

Lemma py_sum_app (xs ys : list Z) : py_sum (xs ++ ys) = py_sum xs + py_sum ys.
Proof. unfold py_sum. induction xs as [| x xs IH]; simpl; lia. Qed.

Lemma seg_points_from_lookup (seg_lengths : list Z) (last : Z) (i : nat) :
  (i < length seg_lengths)%nat ->
  seg_points_from last seg_lengths !! i
  = Some (last + py_sum (take (S i) seg_lengths)).
Proof.
  revert last i. induction seg_lengths as [| l ls IH]; intros last i Hi.
  - simpl in Hi. lia.
  - destruct i as [| i]; simpl.
    + unfold py_sum. simpl. f_equal. lia.
    + simpl in Hi. rewrite IH by lia. f_equal.
      unfold py_sum. simpl. lia.
Qed.

(** The boundary offsets are the running sums of the segment lengths. *)
Lemma make_seg_points_lookup (seg_lengths : list Z) (i : nat) :
  (i <= length seg_lengths)%nat ->
  make_seg_points seg_lengths !! i = Some (py_sum (take i seg_lengths)).
Proof.
  intros Hi. unfold make_seg_points. destruct i as [| i]; simpl.
  - reflexivity.
  - rewrite seg_points_from_lookup by lia. f_equal.
Qed.

Lemma take_S_lookup_sum (seg_lengths : list Z) (i : nat) (len : Z) :
  seg_lengths !! i = Some len ->
  py_sum (take (S i) seg_lengths) = py_sum (take i seg_lengths) + len.
Proof.
  intros H. rewrite (take_S_r _ _ _ H), py_sum_app.
  change (py_sum [len]) with (len + 0). lia.
Qed.

Lemma name_or_next_objects (n : option string) (w : World) :
  objects (snd (name_or_next n w)) = objects w /\
  files (snd (name_or_next n w)) = files w.
Proof. destruct n as [[| c s] |]; simpl; auto. Qed.

Lemma TorchTensor_init_spec w shape_ dtype_ data_ device_ name_ r w' :
  TorchTensor_init w shape_ dtype_ data_ device_ name_ = (r, w') ->
  r = length (objects w) /\
  files w' = files w /\
  exists n, objects w' = objects w
    ++ [mkTorchTensor shape_ dtype_ data_ (Some device_) true n].
Proof.
  unfold TorchTensor_init.
  pose proof (name_or_next_objects name_ w) as [Ho Hf].
  destruct (name_or_next name_ w) as [n w1]. simpl in Ho, Hf.
  unfold new_tensor. intros [= <- <-]. simpl. rewrite Ho, Hf.
  split; [reflexivity |]. split; [reflexivity |]. exists n. reflexivity.
Qed.

(** A base device allocates one new handle of the requested shape. *)
Lemma base_allocate_spec d w shape_ dtype_ pin r w' :
  base_allocate d w shape_ dtype_ pin = inr (r, w') ->
  r = length (objects w) /\
  is_base d = true /\
  exists t, objects w' = objects w ++ [t] /\
            shape t = shape_ /\ device t = Some d.
Proof.
  destruct d as [n c | dir | ds | b]; simpl; try discriminate.
  - unfold TorchDevice_allocate. destruct (valid_shape shape_); [| discriminate].
    unfold ret. intros H%(inj inr).
    apply TorchTensor_init_spec in H as (-> & _ & nm & ->).
    split; [reflexivity |]. split; [reflexivity |].
    eexists. split; [reflexivity |]. split; reflexivity.
  - pose proof (name_or_next_objects None w) as [Ho _].
    simpl name_or_next in *.
    destruct (valid_shape shape_); [| discriminate].
    unfold ret. intros H%(inj inr).
    apply TorchTensor_init_spec in H as (-> & _ & nm & ->). simpl.
    split; [reflexivity |]. split; [reflexivity |].
    eexists. split; [reflexivity |]. split; reflexivity.
Qed.

(** The loop of [TorchMixedDevice.allocate]: it only appends objects, and
    gives one entry per device. *)
Lemma allocate_segments_spec devices i seg_points shape_ dtype_ pin w ts w' :
  allocate_segments devices i seg_points shape_ dtype_ pin w = inr (ts, w') ->
  length ts = length devices /\
  (exists news, objects w' = objects w ++ news) /\
  forall (j : nat) lo hi,
    (j < length devices)%nat ->
    seg_points !! (i + j)%nat = Some lo ->
    seg_points !! S (i + j) = Some hi ->
    if hi - lo =? 0 then ts !! j = Some None
    else exists sub tsub,
        ts !! j = Some (Some sub) /\ objects w' !! sub = Some tsub /\
        shape tsub = take SEG_DIM shape_ ++ [hi - lo] ++ drop (S SEG_DIM) shape_ /\
        exists d, devices !! j = Some d /\ is_base d = true /\
                  device tsub = Some d.
Proof.
  revert i w ts w'. induction devices as [| d rest IH]; intros i w ts w'.
  - simpl. unfold ret. intros [= <- <-].
    split; [reflexivity |]. split; [exists []; now rewrite app_nil_r |].
    intros j lo hi Hj. simpl in Hj. lia.
  - cbn [allocate_segments]. unfold py_getitem.
    destruct (seg_points !! S i) as [hi0 |] eqn:Ehi; [| discriminate].
    destruct (seg_points !! i) as [lo0 |] eqn:Elo; [| discriminate].
    cbn [bind ret].
    destruct (hi0 - lo0 =? 0) eqn:Ezero.
    + destruct (allocate_segments rest (S i) seg_points shape_ dtype_ pin w)
        as [err | [ts0 w0]] eqn:Erest; [discriminate |].
      cbn [bind]. unfold ret. intros [= <- <-].
      destruct (IH _ _ _ _ Erest) as (Hlen & Hnews & Hsegs).
      split; [simpl; now rewrite Hlen |]. split; [exact Hnews |].
      intros [| j] lo hi Hj Hlo Hhi.
      * rewrite Nat.add_0_r in Hlo, Hhi.
        assert (lo = lo0) as -> by congruence.
        assert (hi = hi0) as -> by congruence.
        rewrite Ezero. reflexivity.
      * simpl in Hj. replace (i + S j)%nat with (S i + j)%nat in Hlo, Hhi by lia.
        specialize (Hsegs j lo hi ltac:(lia) Hlo Hhi).
        destruct (hi - lo =? 0); [exact Hsegs |].
        destruct Hsegs as (sub & tsub & H1 & H2 & H3 & H4).
        exists sub, tsub. repeat split; assumption.
    + destruct (base_allocate d w _ dtype_ pin) as [err | [r w1]] eqn:Ebase;
        [discriminate |].
      cbn [bind].
      destruct (allocate_segments rest (S i) seg_points shape_ dtype_ pin w1)
        as [err | [ts0 w0]] eqn:Erest; [discriminate |].
      cbn [bind]. unfold ret. intros [= <- <-].
      destruct (IH _ _ _ _ Erest) as (Hlen & [news Hnews] & Hsegs).
      apply base_allocate_spec in Ebase as (-> & Hbase & t & Hw1 & Hshape & Hdev).
      split; [simpl; now rewrite Hlen |].
      split; [exists (t :: news); rewrite Hnews, Hw1, <- app_assoc; reflexivity |].
      intros [| j] lo hi Hj Hlo Hhi.
      * rewrite Nat.add_0_r in Hlo, Hhi.
        assert (lo = lo0) as -> by congruence.
        assert (hi = hi0) as -> by congruence.
        rewrite Ezero. exists (length (objects w)), t.
        split; [reflexivity |].
        split; [| split; [exact Hshape | now exists d]].
        rewrite Hnews, Hw1, <- app_assoc.
        rewrite lookup_app_r by lia. rewrite Nat.sub_diag. reflexivity.
      * simpl in Hj. replace (i + S j)%nat with (S i + j)%nat in Hlo, Hhi by lia.
        specialize (Hsegs j lo hi ltac:(lia) Hlo Hhi).
        destruct (hi - lo =? 0); [exact Hsegs |].
        destruct Hsegs as (sub & tsub & H1 & H2 & H3 & H4).
        exists sub, tsub. repeat split; assumption.
Qed.

Lemma replace_axis (shape_ : list Z) (extent len : Z) :
  shape_ !! SEG_DIM = Some extent ->
  take SEG_DIM shape_ ++ [len] ++ drop (S SEG_DIM) shape_
  = <[SEG_DIM := len]> shape_.
Proof.
  destruct shape_ as [| a [| b rest]]; simpl; try discriminate. reflexivity.
Qed.

(** [init_cache_one_gpu_batch] always asks for lengths that add up. *)
Lemma cache_seg_lengths_sum (c : CacheConfig) :
  py_sum (cache_seg_lengths c) = gpu_batch_size c * n_head c.
Proof.
  unfold cache_seg_lengths, py_sum.
  destruct (cache_disk_percent c =? 0); simpl; lia.
Qed.

Lemma valid_shape_replace (shape_ : list Z) (len : Z) :
  valid_shape shape_ = true -> 0 <= len ->
  valid_shape (take SEG_DIM shape_ ++ [len] ++ drop (S SEG_DIM) shape_) = true.
Proof.
  unfold valid_shape. intros Hvalid Hlen.
  rewrite !forallb_app. simpl.
  rewrite <- (take_drop SEG_DIM shape_), forallb_app in Hvalid.
  apply andb_prop in Hvalid as [Htake Hdrop].
  rewrite Htake. replace (0 <=? len) with true by (symmetry; now apply Z.leb_le).
  simpl. destruct shape_ as [| a [| b rest]]; try reflexivity.
  simpl in Hdrop |- *. now apply andb_prop in Hdrop as [_ Hrest].
Qed.

Lemma base_allocate_total d w shape_ dtype_ pin :
  is_base d = true -> valid_shape shape_ = true ->
  exists r w', base_allocate d w shape_ dtype_ pin = inr (r, w').
Proof.
  intros Hbase Hvalid. destruct d as [n c | dir | ds | b]; try discriminate.
  - simpl. unfold TorchDevice_allocate. rewrite Hvalid.
    destruct (TorchTensor_init _ _ _ _ _ _) as [r w']. now exists r, w'.
  - simpl. rewrite Hvalid.
    destruct (TorchTensor_init _ _ _ _ _ _) as [r w']. now exists r, w'.
Qed.

(** The loop of [TorchMixedDevice.allocate] runs through for base devices
    and lengths that are not negative. *)
Lemma allocate_segments_total devices (i : nat) seg_lengths shape_ dtype_ pin w :
  Forall (fun d => is_base d = true) devices ->
  valid_shape shape_ = true ->
  Forall (fun l => 0 <= l) seg_lengths ->
  (i + length devices <= length seg_lengths)%nat ->
  exists ts w',
    allocate_segments devices i (make_seg_points seg_lengths) shape_ dtype_
                      pin w = inr (ts, w').
Proof.
  intros Hbase Hvalid Hnonneg. revert i w.
  induction Hbase as [| d rest Hd _ IH]; intros i w Hi.
  - now exists [], w.
  - simpl in Hi. cbn [allocate_segments]. unfold py_getitem.
    rewrite (make_seg_points_lookup seg_lengths (S i)) by lia.
    rewrite (make_seg_points_lookup seg_lengths i) by lia.
    cbn [bind ret].
    destruct (lookup_lt_is_Some_2 seg_lengths i ltac:(lia)) as [len Hlen].
    rewrite (take_S_lookup_sum _ _ _ Hlen).
    replace (py_sum (take i seg_lengths) + len - py_sum (take i seg_lengths))
      with len by lia.
    destruct (len =? 0).
    + destruct (IH (S i) w ltac:(lia)) as (ts & w' & ->).
      cbn [bind ret]. now eexists _, _.
    + assert (0 <= len) as Hpos.
      { rewrite Forall_forall in Hnonneg. apply Hnonneg.
        eapply list_elem_of_lookup_2, Hlen. }
      destruct (base_allocate_total d w _ dtype_ pin Hd
                  (valid_shape_replace shape_ len Hvalid Hpos))
        as (r & w1 & ->).
      cbn [bind].
      destruct (IH (S i) w1 ltac:(lia)) as (ts & w' & ->).
      cbn [bind ret]. now eexists _, _.
Qed.

(** What a successful [TorchMixedDevice.allocate] has done. *)
Lemma mixed_allocate_inv devices w shape_ dtype_ seg_lengths pin name_ r w' :
  TorchMixedDevice_allocate (TorchMixedDevice devices) w shape_ dtype_
                            seg_lengths pin name_ = inr (r, w') ->
  exists news t tensors,
    objects w' = objects w ++ news ++ [t] /\
    r = length (objects w ++ news) /\
    shape_ !! SEG_DIM = Some (py_sum seg_lengths) /\
    shape t = shape_ /\
    device t = Some (TorchMixedDevice devices) /\
    data t = Segments tensors (make_seg_points seg_lengths) /\
    length tensors = length seg_lengths /\
    (forall (i : nat) len, seg_lengths !! i = Some len ->
       if len =? 0 then tensors !! i = Some None
       else exists sub tsub,
           tensors !! i = Some (Some sub) /\
           objects w' !! sub = Some tsub /\
           shape tsub = <[SEG_DIM := len]> shape_ /\
           exists d, devices !! i = Some d /\ is_base d = true /\
                     device tsub = Some d).
Proof.
  unfold TorchMixedDevice_allocate. cbn [base_devices_of bind ret].
  unfold py_getitem.
  destruct (shape_ !! SEG_DIM) as [extent |] eqn:Eext; [| discriminate].
  cbn [bind ret]. unfold py_assert.
  destruct (Z.eqb_spec (py_sum seg_lengths) extent) as [Hsum |];
    [| discriminate].
  cbn [bind ret].
  destruct (Nat.eqb_spec (length seg_lengths) (length devices)) as [Hlen |];
    [| discriminate].
  cbn [bind ret].
  destruct (allocate_segments devices 0 (make_seg_points seg_lengths) shape_
                              dtype_ pin w) as [err | [tensors w1]] eqn:Esegs;
    [discriminate |].
  cbn [bind]. unfold ret. intros H%(inj inr).
  apply TorchTensor_init_spec in H as (-> & _ & nm & Hobj).
  apply allocate_segments_spec in Esegs as (Hts & [news Hnews] & Hsegs).
  exists news. eexists. exists tensors.
  split; [rewrite Hobj, Hnews, <- app_assoc; reflexivity |].
  split; [now rewrite Hnews |].
  split; [now rewrite Hsum |].
  split; [reflexivity |]. split; [reflexivity |]. split; [reflexivity |].
  split; [congruence |].
  intros i len Hi.
  assert (i < length seg_lengths)%nat as Hlt by (eapply lookup_lt_Some; eassumption).
  assert (make_seg_points seg_lengths !! (0 + i)%nat
          = Some (py_sum (take i seg_lengths))) as Hlo
    by (apply make_seg_points_lookup; lia).
  assert (make_seg_points seg_lengths !! S (0 + i)
          = Some (py_sum (take (S i) seg_lengths))) as Hhi
    by (apply (make_seg_points_lookup seg_lengths (S i)); lia).
  specialize (Hsegs i _ _ ltac:(lia) Hlo Hhi).
  rewrite (take_S_lookup_sum _ _ _ Hi) in Hsegs.
  replace (py_sum (take i seg_lengths) + len - py_sum (take i seg_lengths))
    with len in Hsegs by lia.
  destruct (len =? 0); [exact Hsegs |].
  destruct Hsegs as (sub & tsub & H1 & H2 & H3 & H4).
  exists sub, tsub. split; [exact H1 |].
  split; [rewrite Hobj; apply lookup_app_l_Some; exact H2 |].
  split; [| exact H4].
  rewrite H3. eapply replace_axis; eassumption.
Qed.

(** The devices with a class of their own for [is_base] are not mixed. *)
Lemma is_base_not_mixed d : is_base d = true -> device_type d <> MIXED.
Proof. destruct d as [n [|] | | |]; simpl; congruence. Qed.

Lemma lookup_last_app {A} (xs : list A) (x : A) :
  (xs ++ [x]) !! length xs = Some x.
Proof. rewrite lookup_app_r by lia. now rewrite Nat.sub_diag. Qed.

(** The tensors [TorchMixedDevice.allocate] builds are not nested, so
    [general_copy] needs no more than depth two for them. *)
Lemma mixed_allocate_one_level devices w shape_ dtype_ seg_lengths pin name_ r w' :
  TorchMixedDevice_allocate (TorchMixedDevice devices) w shape_ dtype_
                            seg_lengths pin name_ = inr (r, w') ->
  one_level w' r.
Proof.
  intros Halloc.
  apply mixed_allocate_inv in Halloc
    as (news & t & tensors & Hobj & -> & _ & _ & _ & Hdata & Hlen & Hsegs).
  intros t0 tensors0 sp r' Ht0 Hdata0 Hin.
  rewrite Hobj, app_assoc, lookup_last_app in Ht0. injection Ht0 as <-.
  rewrite Hdata in Hdata0. injection Hdata0 as <- <-.
  apply list_elem_of_lookup_1 in Hin as [i Hi].
  destruct (lookup_lt_is_Some_2 seg_lengths i) as [len Hlen_i].
  { rewrite <- Hlen. eapply lookup_lt_Some, Hi. }
  specialize (Hsegs i len Hlen_i).
  destruct (len =? 0); [congruence |].
  destruct Hsegs as (sub & tsub & Hsub & Hobj_sub & _ & d & _ & Hbase & Hdev).
  assert (sub = r') as -> by congruence.
  intros t1 d1 Ht1 Hd1. assert (t1 = tsub) as -> by congruence.
  assert (d1 = d) as -> by congruence.
  now apply is_base_not_mixed.
Qed.

(** C4. A successful allocation on a mixed device was asked for segment
    lengths that sum to the extent of axis 1; the handle it returns keeps
    the full shape and holds, per base device, no sub-handle for a length
    of zero and otherwise a sub-handle on that device whose shape is the
    full shape with axis 1 replaced by the segment length; the boundary
    offsets are the running sums of the lengths, starting at 0.  Lengths
    that do not sum to the extent are refused; lengths that are not
    negative and sum to it are served on base devices.  The lengths
    computed by
    [init_cache_one_gpu_batch] always sum to the extent, and the two
    caches it returns are laid out by them.  The lengths [50, 30, 20] give
    the offsets [0, 50, 80, 100]. *)
Theorem mixed_allocate_layout
    devices w shape_ dtype_ seg_lengths pin name_ r w' :
  TorchMixedDevice_allocate (TorchMixedDevice devices) w shape_ dtype_
                            seg_lengths pin name_ = inr (r, w') ->
  (exists t tensors,
     shape_ !! SEG_DIM = Some (py_sum seg_lengths) /\
     objects w' !! r = Some t /\
     shape t = shape_ /\
     device t = Some (TorchMixedDevice devices) /\
     data t = Segments tensors (make_seg_points seg_lengths) /\
     length tensors = length seg_lengths /\
     (forall i : nat, (i <= length seg_lengths)%nat ->
        make_seg_points seg_lengths !! i = Some (py_sum (take i seg_lengths))) /\
     (forall (i : nat) len, seg_lengths !! i = Some len ->
        if len =? 0 then tensors !! i = Some None
        else exists sub tsub,
            tensors !! i = Some (Some sub) /\
            objects w' !! sub = Some tsub /\
            shape tsub = <[SEG_DIM := len]> shape_ /\
            device tsub = devices !! i)) /\
  (forall w0 shape0 dtype0 lengths0 pin0 name0 extent,
     shape0 !! SEG_DIM = Some extent -> py_sum lengths0 <> extent ->
     TorchMixedDevice_allocate (TorchMixedDevice devices) w0 shape0 dtype0
                               lengths0 pin0 name0
     = inl (AssertionError "")) /\
  (forall w0 shape0 dtype0 lengths0 pin0 name0,
     Forall (fun d => is_base d = true) devices ->
     valid_shape shape0 = true ->
     shape0 !! SEG_DIM = Some (py_sum lengths0) ->
     Forall (fun l => 0 <= l) lengths0 ->
     length lengths0 = length devices ->
     exists r0 w1,
       TorchMixedDevice_allocate (TorchMixedDevice devices) w0 shape0 dtype0
                                 lengths0 pin0 name0 = inr (r0, w1)) /\
  (forall c, cache_shape c !! SEG_DIM = Some (py_sum (cache_seg_lengths c))) /\
  (forall c w0 k_cache v_cache w1,
     TorchMixedDevice_init_cache_one_gpu_batch (TorchMixedDevice devices) w0 c
     = inr (k_cache, v_cache, w1) ->
     exists tk tv tensors_k tensors_v,
       objects w1 !! k_cache = Some tk /\
       objects w1 !! v_cache = Some tv /\
       shape tk = cache_shape c /\ shape tv = cache_shape c /\
       data tk = Segments tensors_k (make_seg_points (cache_seg_lengths c)) /\
       data tv = Segments tensors_v (make_seg_points (cache_seg_lengths c))) /\
  make_seg_points [50; 30; 20] = [0; 50; 80; 100].
Proof.
  intros Halloc. split; [| split; [| split; [| split; [| split]]]].
  - apply mixed_allocate_inv in Halloc
      as (news & t & tensors & Hobj & -> & Hext & Hshape & Hdev & Hdata
          & Hlen & Hsegs).
    exists t, tensors. split; [exact Hext |].
    split; [rewrite Hobj, app_assoc; apply lookup_last_app |].
    split; [exact Hshape |]. split; [exact Hdev |]. split; [exact Hdata |].
    split; [exact Hlen |].
    split; [intros i Hi; now apply make_seg_points_lookup |].
    intros i len Hi. specialize (Hsegs i len Hi).
    destruct (len =? 0); [exact Hsegs |].
    destruct Hsegs as (sub & tsub & H1 & H2 & H3 & d & Hd & _ & Hdev').
    exists sub, tsub. repeat split; try assumption. congruence.
  - intros w0 shape0 dtype0 lengths0 pin0 name0 extent Hext Hne.
    unfold TorchMixedDevice_allocate. cbn [base_devices_of bind ret].
    unfold py_getitem. rewrite Hext. cbn [bind ret]. unfold py_assert.
    destruct (Z.eqb_spec (py_sum lengths0) extent); [contradiction | reflexivity].
  - intros w0 shape0 dtype0 lengths0 pin0 name0 Hbase Hvalid Hext Hnonneg Hlen.
    unfold TorchMixedDevice_allocate. cbn [base_devices_of bind ret].
    unfold py_getitem. rewrite Hext. cbn [bind ret]. unfold py_assert.
    rewrite Z.eqb_refl. cbn [bind ret].
    rewrite Hlen, Nat.eqb_refl. cbn [bind ret].
    destruct (allocate_segments_total devices 0 lengths0 shape0 dtype0 pin0 w0
                Hbase Hvalid Hnonneg ltac:(lia)) as (ts & w1 & ->).
    cbn [bind ret].
    destruct (TorchTensor_init _ _ _ _ _ _) as [r0 w2]. now exists r0, w2.
  - intros c. rewrite cache_seg_lengths_sum. reflexivity.
  - intros c w0 k_cache v_cache w1.
    unfold TorchMixedDevice_init_cache_one_gpu_batch.
    destruct (n_head c =? 0); [discriminate |]. cbn [bind ret].
    destruct (head_share _ (cache_gpu_percent c)); [discriminate |].
    cbn [bind].
    destruct (if cache_disk_percent c =? 0 then _ else _); [discriminate |].
    cbn [bind].
    destruct (TorchMixedDevice_allocate (TorchMixedDevice devices) w0
                (cache_shape c) np_float16 (cache_seg_lengths c) (Some false)
                None) as [err | [k wk]] eqn:Ek; [discriminate |].
    cbn [bind].
    destruct (TorchMixedDevice_allocate (TorchMixedDevice devices) wk
                (cache_shape c) np_float16 (cache_seg_lengths c) (Some false)
                None) as [err | [v0 wv]] eqn:Ev; [discriminate |].
    cbn [bind]. unfold ret. intros [= <- <- <-].
    apply mixed_allocate_inv in Ek
      as (news_k & tk & tensors_k & Hobj_k & -> & _ & Hshape_k & _ & Hdata_k & _).
    apply mixed_allocate_inv in Ev
      as (news_v & tv & tensors_v & Hobj_v & -> & _ & Hshape_v & _ & Hdata_v & _).
    exists tk, tv, tensors_k, tensors_v.
    split.
    { rewrite Hobj_v. apply lookup_app_l_Some.
      rewrite Hobj_k, app_assoc. apply lookup_last_app. }
    split; [rewrite Hobj_v, app_assoc; apply lookup_last_app |].
    repeat split; assumption.
  - reflexivity.
Qed.

(** The 50/30/20 split of an axis of extent 100 over GPU, CPU and disk. *)
Lemma mixed_allocate_layout_witness :
  exists r w' t,
    TorchMixedDevice_allocate mixed empty_world [7; 100; 4] np_float16
                              [50; 30; 20] None None = inr (r, w') /\
    objects w' !! r = Some t /\
    data t = Segments [Some 0%nat; Some 1%nat; Some 2%nat] [0; 50; 80; 100] /\
    map shape (take 3 (objects w')) = [[7; 50; 4]; [7; 30; 4]; [7; 20; 4]].
Proof.
  destruct (TorchMixedDevice_allocate mixed empty_world [7; 100; 4] np_float16
              [50; 30; 20] None None) as [err | [r w']] eqn:Halloc;
    [vm_compute in Halloc; discriminate |].
  destruct (mixed_allocate_layout [gpu; cpu; disk] empty_world [7; 100; 4]
              np_float16 [50; 30; 20] None None r w' Halloc)
    as ((t & tensors & _ & Ht & _) & _).
  exists r, w', t. split; [reflexivity |].
  vm_compute in Halloc. injection Halloc as <- <-.
  vm_compute in Ht. injection Ht as <-.
  split; [reflexivity |]. split; reflexivity.
Defined.

(** ** Deletion *)

Lemma set_tensor_lookup (w : World) (r : ref) (t t' : TorchTensor) :
  objects w !! r = Some t -> objects (set_tensor w r t') !! r = Some t'.
Proof.
  intros H. simpl. apply list_lookup_insert_eq. eapply lookup_lt_Some, H.
Qed.

Lemma delete_deleted (w : World) (r : ref) :
  deleted w r -> TorchTensor_delete w r = inl UseAfterDelete.
Proof.
  intros (t & Ht & Hdev & _). unfold TorchTensor_delete.
  rewrite (get_tensor_lookup _ _ _ Ht). cbn [bind]. rewrite Hdev. reflexivity.
Qed.

(** C7. [delete] on a live handle invalidates it (device and data are
    gone); on a disk handle whose payload is its file name it also removes
    the backing file when the handle's [delete_file] flag is set and keeps
    the file otherwise, and leaves other files alone; a second [delete],
    like [delete] on any handle already deleted, fails with the
    "already deleted" assertion and changes nothing. *)
Theorem delete_invalidates_and_guards (w : World) (r : ref) (t : TorchTensor)
    (d : Device) :
  objects w !! r = Some t ->
  device t = Some d ->
  (device_type d = DISK -> exists path, data t = Filename path) ->
  (exists w',
     TorchTensor_delete w r = inr w' /\
     deleted w' r /\
     (forall path, device_type d = DISK -> data t = Filename path ->
        files w' !! path = if delete_file t then None else files w !! path) /\
     (forall path, data t <> Filename path -> files w' !! path = files w !! path) /\
     TorchTensor_delete w' r = inl UseAfterDelete) /\
  (forall w0 r0, deleted w0 r0 -> TorchTensor_delete w0 r0 = inl UseAfterDelete).
Proof.
  intros Ht Hdev Hpayload. split; [| intros; now apply delete_deleted].
  unfold TorchTensor_delete at 1.
  rewrite (get_tensor_lookup _ _ _ Ht). cbn [bind]. rewrite Hdev.
  assert (forall w1, objects w1 = objects w ->
            deleted (set_tensor w1 r (invalidated t)) r) as Hdeleted.
  { intros w1 Hobj. exists (invalidated t).
    split; [| split; reflexivity].
    apply set_tensor_lookup with t. now rewrite Hobj. }
  destruct d as [n c | dir | ds | b].
  - (* CPU or GPU *)
    replace (DeviceType_eqb (device_type (TorchDevice n c)) DISK) with false
      by (now destruct c).
    cbn [bind ret]. eexists. split; [reflexivity |].
    split; [now apply Hdeleted |].
    split; [intros path Hd; destruct c; discriminate |].
    split; [reflexivity |]. apply delete_deleted, Hdeleted. reflexivity.
  - (* disk *)
    destruct (Hpayload eq_refl) as [path Hdata].
    change (DeviceType_eqb (device_type (TorchDisk dir)) DISK) with true.
    cbv iota. unfold device_delete, TorchDisk_delete.
    rewrite (get_tensor_lookup _ _ _ Ht). cbn [bind]. rewrite Hdata.
    destruct (files w !! path) as [sh |] eqn:Efile.
    + rewrite bool_decide_eq_true_2 by (now exists sh).
      destruct (delete_file t) eqn:Eflag; cbn [andb bind ret].
      * eexists. split; [reflexivity |].
        split; [now apply Hdeleted |].
        split; [intros p _ [= <-]; simpl; apply lookup_delete_eq |].
        split; [intros p Hp; simpl; apply lookup_delete_ne; congruence |].
        apply delete_deleted, Hdeleted. reflexivity.
      * eexists. split; [reflexivity |].
        split; [now apply Hdeleted |].
        split; [intros p _ [= <-]; reflexivity |].
        split; [reflexivity |]. apply delete_deleted, Hdeleted. reflexivity.
    + rewrite bool_decide_eq_false_2 by (intros [x Hx]; congruence).
      cbn [andb bind ret]. eexists. split; [reflexivity |].
      split; [now apply Hdeleted |].
      split; [intros p _ [= <-]; simpl; rewrite Efile; now destruct (delete_file t) |].
      split; [reflexivity |]. apply delete_deleted, Hdeleted. reflexivity.
  - (* mixed *)
    change (DeviceType_eqb (device_type (TorchMixedDevice ds)) DISK) with false.
    cbn [bind ret]. eexists. split; [reflexivity |].
    split; [now apply Hdeleted |].
    split; [intros path Hd; discriminate |].
    split; [reflexivity |]. apply delete_deleted, Hdeleted. reflexivity.
  - (* compressed *)
    change (DeviceType_eqb (device_type (TorchCompressedDevice b)) DISK) with false.
    cbn [bind ret]. eexists. split; [reflexivity |].
    split; [now apply Hdeleted |].
    split; [intros path Hd; discriminate |].
    split; [reflexivity |]. apply delete_deleted, Hdeleted. reflexivity.
Qed.

(** Deleting the disk tensor of [disk_world] removes its file; deleting it
    again fails. *)
Lemma delete_invalidates_and_guards_witness :
  exists w',
    TorchTensor_delete disk_world 0%nat = inr w' /\
    files w' !! "/offload/t_0" = None /\
    TorchTensor_delete w' 0%nat = inl UseAfterDelete.
Proof.
  destruct (delete_invalidates_and_guards disk_world 0%nat
              (mkTorchTensor [7; 20; 4] np_float16 (Filename "/offload/t_0")
                             (Some disk) true "t_0") disk
              eq_refl eq_refl (fun _ => ex_intro _ "/offload/t_0" eq_refl))
    as [(w' & Hdel & _ & Hfile & _ & Hagain) _].
  exists w'. split; [exact Hdel |].
  split; [exact (Hfile "/offload/t_0" eq_refl eq_refl) | exact Hagain].
Defined.

(** C9. [delete] on a mixed handle only invalidates that handle: the
    world afterwards is the old one with the handle's device and data
    cleared, so every other object, each sub-handle among them, is as it
    was and still live if it was, and no file is removed.  The device's
    own [delete] is not called on this path, and a direct call of
    [TorchMixedDevice.delete] fails with AttributeError on any input. *)
Theorem mixed_delete_keeps_segments (w : World) (r : ref) (t : TorchTensor)
    (devices : list Device) (tensors : list (option ref)) (seg_points : list Z) :
  objects w !! r = Some t ->
  device t = Some (TorchMixedDevice devices) ->
  data t = Segments tensors seg_points ->
  TorchTensor_delete w r = inr (set_tensor w r (invalidated t)) /\
  deleted (set_tensor w r (invalidated t)) r /\
  files (set_tensor w r (invalidated t)) = files w /\
  (forall r', r' <> r ->
     objects (set_tensor w r (invalidated t)) !! r' = objects w !! r') /\
  (forall sub tsub, Some sub ∈ tensors -> sub <> r ->
     objects w !! sub = Some tsub ->
     objects (set_tensor w r (invalidated t)) !! sub = Some tsub /\
     (device tsub <> None -> ~ deleted (set_tensor w r (invalidated t)) sub)) /\
  (forall w0 tensor, TorchMixedDevice_delete w0 tensor = inl AttributeError) /\
  (forall w0 tensor,
     device_delete (TorchMixedDevice devices) w0 tensor = inl AttributeError).
Proof.
  intros Ht Hdev Hdata.
  assert (forall r', r' <> r ->
            objects (set_tensor w r (invalidated t)) !! r' = objects w !! r')
    as Hframe.
  { intros r' Hne. simpl. apply list_lookup_insert_ne. congruence. }
  split; [| split; [| split; [| split; [| split; [| split]]]]].
  - unfold TorchTensor_delete.
    rewrite (get_tensor_lookup _ _ _ Ht). cbn [bind]. rewrite Hdev.
    reflexivity.
  - exists (invalidated t). split; [| split; reflexivity].
    eapply set_tensor_lookup, Ht.
  - reflexivity.
  - exact Hframe.
  - intros sub tsub _ Hne Hsub. rewrite (Hframe sub Hne).
    split; [exact Hsub |].
    intros Hlive (t' & Ht' & Hnone & _).
    rewrite (Hframe sub Hne), Hsub in Ht'. congruence.
  - reflexivity.
  - reflexivity.
Qed.

(** Deleting the mixed tensor of [mixed_world] leaves its disk segment
    and the segment's file in place. *)
Lemma mixed_delete_keeps_segments_witness :
  exists w' tsub,
    TorchTensor_delete mixed_world 3%nat = inr w' /\
    objects w' !! 2%nat = Some tsub /\
    device tsub = Some disk /\
    files w' !! "/offload/t_2" = Some [7; 20; 4].
Proof.
  destruct (mixed_delete_keeps_segments mixed_world 3%nat
              (mkTorchTensor [7; 100; 4] np_float16
                 (Segments [Some 0%nat; Some 1%nat; Some 2%nat] [0; 50; 80; 100])
                 (Some mixed) true "t_3")
              [gpu; cpu; disk] [Some 0%nat; Some 1%nat; Some 2%nat]
              [0; 50; 80; 100] eq_refl eq_refl eq_refl)
    as (Hdel & _ & Hfiles & Hframe & _).
  eexists. eexists. split; [exact Hdel |].
  split; [exact (Hframe 2%nat ltac:(discriminate)) |].
  split; [reflexivity |]. rewrite Hfiles. reflexivity.
Defined.

(** ** The worker queue *)

Lemma count_threads_nonneg p threads : 0 <= count_threads p threads.
Proof.
  induction threads as [| t rest IH]; simpl; [lia |].
  destruct (p t); simpl; lia.
Qed.

Lemma count_threads_insert p threads (i : nat) t t' :
  threads !! i = Some t ->
  count_threads p (<[i := t']> threads)
  = count_threads p threads - b2z (p t) + b2z (p t').
Proof.
  revert i. induction threads as [| x rest IH]; intros [| i] H;
    simpl in *; try discriminate.
  - injection H as ->. lia.
  - rewrite (IH i H). lia.
Qed.

Lemma count_threads_lookup p threads (i : nat) t :
  threads !! i = Some t -> b2z (p t) <= count_threads p threads.
Proof.
  revert i. induction threads as [| x rest IH]; intros [| i] H;
    simpl in *; try discriminate.
  - injection H as ->. pose proof (count_threads_nonneg p rest). lia.
  - specialize (IH i H). destruct (p x); simpl; lia.
Qed.

Lemma count_threads_zero p threads :
  count_threads p threads = 0 -> Forall (fun t => p t = false) threads.
Proof.
  induction threads as [| t rest IH]; simpl; intros H; [constructor |].
  pose proof (count_threads_nonneg p rest).
  destruct (p t) eqn:Ept; simpl in H; [lia |].
  constructor; [exact Ept | apply IH; lia].
Qed.

Lemma count_threads_replicate p (n : nat) t :
  p t = false -> count_threads p (replicate n t) = 0.
Proof. intros Hp. induction n as [| n IH]; simpl; [| rewrite Hp, IH]; reflexivity. Qed.

Lemma tasks_in_hand_insert threads (i : nat) t t' :
  threads !! i = Some t ->
  option_list (thread_task t) ++ tasks_in_hand (<[i := t']> threads)
  ≡ₚ option_list (thread_task t') ++ tasks_in_hand threads.
Proof.
  unfold tasks_in_hand.
  revert i. induction threads as [| x rest IH]; intros [| i] H;
    simpl in *; try discriminate.
  - injection H as ->.
    destruct (thread_task t), (thread_task t'); simpl; solve_Permutation.
  - specialize (IH i H).
    destruct (thread_task x); simpl; [| exact IH].
    rewrite <- !Permutation_middle. now constructor.
Qed.

Lemma tasks_in_hand_none threads :
  Forall (fun t => in_hand t = false) threads -> tasks_in_hand threads = [].
Proof.
  unfold tasks_in_hand. induction 1 as [| t rest Ht _ IH]; [reflexivity |].
  simpl. destruct t as [| [item |] | | e [item |]]; try discriminate; exact IH.
Qed.

Lemma tasks_in_hand_replicate (n : nat) : tasks_in_hand (replicate n Waiting) = [].
Proof. unfold tasks_in_hand. induction n as [| n IH]; [reflexivity | exact IH]. Qed.

Lemma queue_invariant_init w n : queue_invariant (TorchDisk_init w n).
Proof.
  split; simpl.
  - now rewrite count_threads_replicate.
  - unfold queued_tasks. simpl. now rewrite tasks_in_hand_replicate.
Qed.

Lemma queue_invariant_submit s args :
  queue_invariant s -> queue_invariant (submit_copy s args).
Proof.
  intros [Hcount Hperm]. split; simpl.
  - rewrite length_app, Hcount. simpl. lia.
  - unfold queued_tasks in *. simpl. rewrite omap_app. simpl.
    rewrite Hperm. solve_Permutation.
Qed.

Lemma queue_invariant_put_none s :
  queue_invariant s ->
  queue_invariant (with_queue s (put_nowait (copy_queue s) None)).
Proof.
  intros [Hcount Hperm]. split; simpl.
  - rewrite length_app, Hcount. simpl. lia.
  - unfold queued_tasks in *. simpl. rewrite omap_app. simpl.
    rewrite app_nil_r. exact Hperm.
Qed.

Lemma queue_invariant_put_sentinels s :
  queue_invariant s -> queue_invariant (put_sentinels s).
Proof.
  unfold put_sentinels.
  assert (forall (l : list Thread) q,
            queue_invariant (with_queue s q) ->
            queue_invariant
              (with_queue s (foldl (fun q _ => put_nowait q None) q l))) as H.
  { induction l as [| t l IH]; intros q Hq; simpl; [exact Hq |].
    apply IH. apply (queue_invariant_put_none (with_queue s q)) in Hq.
    exact Hq. }
  intros Hs. apply H. destruct s; exact Hs.
Qed.

Lemma queue_invariant_effect s e :
  queue_invariant s -> queue_invariant (apply_effect s e).
Proof.
  destruct e; simpl; try (intros H; exact H).
  apply queue_invariant_submit.
Qed.

Lemma queue_invariant_effects es s :
  queue_invariant s -> queue_invariant (foldl apply_effect s es).
Proof.
  revert s. induction es as [| e es IH]; intros s Hs; simpl; [exact Hs |].
  apply IH, queue_invariant_effect, Hs.
Qed.

Lemma task_done_inv q q' :
  task_done q = inr q' ->
  items q' = items q /\ unfinished_tasks q' = unfinished_tasks q - 1.
Proof.
  unfold task_done. destruct (unfinished_tasks q - 1 <? 0); [discriminate |].
  unfold ret. intros [= <-]. split; reflexivity.
Qed.

Lemma queue_invariant_worker s i s' :
  queue_invariant s -> worker_step s i = Some s' -> queue_invariant s'.
Proof.
  intros [Hcount Hperm]. unfold worker_step.
  destruct (copy_threads s !! i) as [[| [item |] | | e item] |] eqn:Ethread;
    try discriminate.
  - (* queue.get() *)
    destruct (items (copy_queue s)) as [| item rest] eqn:Eitems; [discriminate |].
    intros [= <-]. split; simpl.
    + rewrite (count_threads_insert _ _ _ _ _ Ethread), Hcount. simpl length.
      simpl b2z. lia.
    + rewrite Hperm. unfold queued_tasks. rewrite Eitems. simpl items.
      pose proof (tasks_in_hand_insert _ _ _ (Holding item) Ethread) as Hins.
      destruct item as [a |]; simpl in Hins |- *; rewrite Hins;
        [solve_Permutation | reflexivity].
  - (* a live task *)
    destruct (copy_task (world s) item) as [e | []].
    + intros [= <-]. split; simpl.
      * rewrite (count_threads_insert _ _ _ _ _ Ethread), Hcount. simpl. lia.
      * rewrite Hperm.
        pose proof (tasks_in_hand_insert _ _ _ (Died e (Some item)) Ethread) as Hins.
        simpl in Hins. apply Permutation_cons_inv in Hins. now rewrite Hins.
    + destruct (task_done (copy_queue s)) as [e | q] eqn:Edone.
      * intros [= <-]. split; simpl.
        -- rewrite (count_threads_insert _ _ _ _ _ Ethread), Hcount. simpl. lia.
        -- rewrite Hperm.
           pose proof (tasks_in_hand_insert _ _ _ (Died e (Some item)) Ethread) as Hins.
           simpl in Hins. apply Permutation_cons_inv in Hins. now rewrite Hins.
      * apply task_done_inv in Edone as [Hitems Hunf].
        intros [= <-]. split; simpl.
        -- rewrite (count_threads_insert _ _ _ _ _ Ethread), Hunf, Hitems, Hcount.
           simpl. lia.
        -- rewrite Hperm. unfold queued_tasks. rewrite Hitems.
           pose proof (tasks_in_hand_insert _ _ _ Waiting Ethread) as Hins.
           simpl in Hins. rewrite <- Hins. solve_Permutation.
  - (* the sentinel *)
    destruct (task_done (copy_queue s)) as [e | q] eqn:Edone.
    + intros [= <-]. split; simpl.
      * rewrite (count_threads_insert _ _ _ _ _ Ethread), Hcount. simpl. lia.
      * rewrite Hperm.
        pose proof (tasks_in_hand_insert _ _ _ (Died e None) Ethread) as Hins.
        simpl in Hins. now rewrite Hins.
    + apply task_done_inv in Edone as [Hitems Hunf].
      intros [= <-]. split; simpl.
      * rewrite (count_threads_insert _ _ _ _ _ Ethread), Hunf, Hitems, Hcount.
        simpl. lia.
      * rewrite Hperm. unfold queued_tasks. rewrite Hitems.
        pose proof (tasks_in_hand_insert _ _ _ Returned Ethread) as Hins.
        simpl in Hins. now rewrite Hins.
Qed.

Lemma queue_invariant_perform s a s' :
  queue_invariant s -> perform s a = Some s' -> queue_invariant s'.
Proof.
  intros Hs. destruct a; simpl.
  - intros [= <-]. now apply queue_invariant_effects.
  - intros [= <-]. now apply queue_invariant_submit.
  - intros [= <-]. exact Hs.
  - unfold TorchDisk_synchronize.
    destruct (unfinished_tasks (copy_queue s) =? 0); [| discriminate].
    now intros [= <-].
  - intros [= <-]. now apply queue_invariant_put_sentinels.
  - now apply queue_invariant_worker.
Qed.

Lemma queue_invariant_execute trace s s' :
  queue_invariant s -> execute s trace = Some s' -> queue_invariant s'.
Proof.
  revert s. induction trace as [| a trace IH]; intros s Hs; simpl.
  - now intros [= <-].
  - destruct (perform s a) as [s1 |] eqn:Ea; [| discriminate].
    apply IH. eapply queue_invariant_perform; eassumption.
Qed.

Create HintDb queue.
#[local] Hint Resolve queue_invariant_init queue_invariant_submit
  queue_invariant_put_sentinels queue_invariant_effects
  queue_invariant_worker queue_invariant_perform queue_invariant_execute
  : queue.

Lemma apply_effects_threads es s :
  copy_threads (foldl apply_effect s es) = copy_threads s.
Proof.
  revert s. induction es as [| e es IH]; intros s; simpl; [reflexivity |].
  rewrite IH. destruct e; reflexivity.
Qed.

Lemma put_sentinels_threads s : copy_threads (put_sentinels s) = copy_threads s.
Proof. reflexivity. Qed.

(** A thread that an exception has ended stays that way. *)
Lemma dead_thread_perform s a s' (i : nat) e item :
  copy_threads s !! i = Some (Died e item) ->
  perform s a = Some s' ->
  copy_threads s' !! i = Some (Died e item).
Proof.
  intros Hdead. destruct a as [depth gdd args | args | | | | j]; simpl.
  - intros [= <-]. now rewrite apply_effects_threads.
  - now intros [= <-].
  - now intros [= <-].
  - unfold TorchDisk_synchronize.
    destruct (unfinished_tasks (copy_queue s) =? 0); [| discriminate].
    now intros [= <-].
  - now intros [= <-].
  - unfold worker_step.
    destruct (decide (j = i)) as [-> | Hne].
    + rewrite Hdead. discriminate.
    + destruct (copy_threads s !! j) as [[| [it |] | | e' it] |];
        try discriminate.
      * destruct (items (copy_queue s)); [discriminate |].
        intros [= <-]. simpl. now rewrite list_lookup_insert_ne.
      * destruct (copy_task (world s) it) as [e' | []].
        -- intros [= <-]. simpl. now rewrite list_lookup_insert_ne.
        -- destruct (task_done (copy_queue s));
             intros [= <-]; simpl; now rewrite list_lookup_insert_ne.
      * destruct (task_done (copy_queue s));
          intros [= <-]; simpl; now rewrite list_lookup_insert_ne.
Qed.

Lemma dead_thread_execute trace s s' (i : nat) e item :
  copy_threads s !! i = Some (Died e item) ->
  execute s trace = Some s' ->
  copy_threads s' !! i = Some (Died e item).
Proof.
  revert s. induction trace as [| a trace IH]; intros s Hdead; simpl.
  - now intros [= <-].
  - destruct (perform s a) as [s1 |] eqn:Ea; [| discriminate].
    apply IH. eapply dead_thread_perform; eassumption.
Qed.

(** With a dead thread the counter cannot reach zero: [join] blocks. *)
Lemma dead_thread_blocks_join s (i : nat) e item :
  queue_invariant s ->
  copy_threads s !! i = Some (Died e item) ->
  TorchDisk_synchronize s = None.
Proof.
  intros [Hcount _] Hdead. unfold TorchDisk_synchronize.
  pose proof (count_threads_lookup in_hand _ _ _ Hdead) as Hle. simpl in Hle.
  destruct (Z.eqb_spec (unfinished_tasks (copy_queue s)) 0); [lia | reflexivity].
Qed.

(** *** States the backend can reach *)

Section Reachable.

Variables (w : World) (num_copy_threads : nat).
Variables (trace : list action) (s : System).
Hypothesis Hreach : execute (TorchDisk_init w num_copy_threads) trace = Some s.

Lemma reachable_invariant : queue_invariant s.
Proof using Hreach. eauto with queue. Qed.

(** C2 (as amended). When [TorchDisk.synchronize()] returns, in any state
    the backend can reach, the pending-task counter is zero: the queue is
    empty and no worker has an item in hand, so the tasks submitted so far
    are exactly the ones the workers have carried out.  The call changes
    nothing else.  In particular it issues no device barrier and leaves
    the non-blocking device copies of [general_copy]'s direct branch
    pending; the barrier is [TorchDevice.synchronize()], a call of its
    own. *)
Theorem disk_synchronize_drains_queue s' :
  TorchDisk_synchronize s = Some s' ->
  s' = s /\
  unfinished_tasks (copy_queue s') = 0 /\
  items (copy_queue s') = [] /\
  Forall (fun t => in_hand t = false) (copy_threads s') /\
  submitted s' ≡ₚ completed s' /\
  device_barriers s' = device_barriers s /\
  device_pending s' = device_pending s /\
  device_barriers (TorchDevice_synchronize s') = S (device_barriers s) /\
  device_pending (TorchDevice_synchronize s') = [].
Proof using Hreach.
  intros Hsync. destruct reachable_invariant as [Hcount Hperm].
  unfold TorchDisk_synchronize in Hsync.
  destruct (Z.eqb_spec (unfinished_tasks (copy_queue s)) 0) as [Hzero |];
    [| discriminate].
  injection Hsync as <-.
  pose proof (count_threads_nonneg in_hand (copy_threads s)) as Hnonneg.
  assert (items (copy_queue s) = []) as Hitems.
  { destruct (items (copy_queue s)); [reflexivity | simpl in Hcount; lia]. }
  assert (Forall (fun t => in_hand t = false) (copy_threads s)) as Hidle.
  { apply count_threads_zero. rewrite Hitems in Hcount. simpl in Hcount. lia. }
  repeat split; try assumption; try reflexivity.
  rewrite Hperm. unfold queued_tasks. rewrite Hitems.
  rewrite (tasks_in_hand_none _ Hidle). simpl. now rewrite app_nil_r.
Qed.

(** C1 (as amended). In any state the backend can reach, a worker that
    holds a live task and whose copy succeeds marks the task done (the
    counter drops by one), records the copy and goes back to the queue; a
    worker that holds the shutdown sentinel marks it done and returns.
    A worker whose copy raises is ended by the exception: the task is not
    marked done, nothing is recorded, the thread takes no further step,
    and from then on [synchronize()] on the queue blocks in every state
    the backend can reach. *)
Theorem worker_marks_done_on_success_only (i : nat) :
  (forall item,
     copy_threads s !! i = Some (Holding (Some item)) ->
     match copy_task (world s) item with
     | inr _ =>
         exists s',
           worker_step s i = Some s' /\
           unfinished_tasks (copy_queue s')
           = unfinished_tasks (copy_queue s) - 1 /\
           copy_threads s' !! i = Some Waiting /\
           completed s' = completed s ++ [item]
     | inl e =>
         exists s',
           worker_step s i = Some s' /\
           unfinished_tasks (copy_queue s') = unfinished_tasks (copy_queue s) /\
           completed s' = completed s /\
           copy_threads s' !! i = Some (Died e (Some item)) /\
           worker_step s' i = None /\
           forall trace' s'',
             execute s' trace' = Some s'' ->
             copy_threads s'' !! i = Some (Died e (Some item)) /\
             TorchDisk_synchronize s'' = None
     end) /\
  (copy_threads s !! i = Some (Holding None) ->
   exists s',
     worker_step s i = Some s' /\
     unfinished_tasks (copy_queue s') = unfinished_tasks (copy_queue s) - 1 /\
     copy_threads s' !! i = Some Returned).
Proof using Hreach.
  pose proof reachable_invariant as Hinv.
  assert (forall item, copy_threads s !! i = Some (Holding item) ->
            exists q, task_done (copy_queue s) = inr q /\
                      unfinished_tasks q = unfinished_tasks (copy_queue s) - 1)
    as Hdone.
  { intros item Hthread. destruct Hinv as [Hcount _].
    pose proof (count_threads_lookup in_hand _ _ _ Hthread) as Hle.
    simpl in Hle. unfold task_done.
    destruct (Z.ltb_spec (unfinished_tasks (copy_queue s) - 1) 0); [lia |].
    eexists. split; reflexivity. }
  assert ((i < length (copy_threads s))%nat -> forall t,
            <[i := t]> (copy_threads s) !! i = Some t) as Hset
    by (intros; now apply list_lookup_insert_eq).
  split.
  - intros item Hthread.
    pose proof (lookup_lt_Some _ _ _ Hthread) as Hlt.
    destruct (copy_task (world s) item) as [e | []] eqn:Ecopy.
    + exists (with_thread s i (Died e (Some item))).
      assert (worker_step s i = Some (with_thread s i (Died e (Some item))))
        as Hstep by (unfold worker_step; now rewrite Hthread, Ecopy).
      split; [exact Hstep |]. split; [reflexivity |]. split; [reflexivity |].
      split; [simpl; now apply Hset |].
      split; [unfold worker_step; simpl; now rewrite Hset |].
      intros trace' s'' Hexec'.
      assert (copy_threads s'' !! i = Some (Died e (Some item))) as Hdead
        by (eapply dead_thread_execute; [| exact Hexec']; simpl; now apply Hset).
      split; [exact Hdead |].
      eapply dead_thread_blocks_join; [| exact Hdead]. eauto with queue.
    + destruct (Hdone _ Hthread) as (q & Hq & Hunf).
      eexists. split; [unfold worker_step; now rewrite Hthread, Ecopy, Hq |].
      split; [exact Hunf |]. split; [simpl; now apply Hset | reflexivity].
  - intros Hthread.
    pose proof (lookup_lt_Some _ _ _ Hthread) as Hlt.
    destruct (Hdone _ Hthread) as (q & Hq & Hunf).
    eexists. split; [unfold worker_step; now rewrite Hthread, Hq |].
    split; [exact Hunf | simpl; now apply Hset].
Qed.

End Reachable.

(** One task through the queue: submitted, taken, carried out, drained. *)
Lemma disk_synchronize_drains_queue_witness :
  exists s,
    execute (TorchDisk_init copy_world 4)
            [CallGeneralCopy 1 (Some disk) good_copy; Work 0; Work 0] = Some s /\
    TorchDisk_synchronize s = Some s /\
    items (copy_queue s) = [] /\
    submitted s ≡ₚ completed s.
Proof.
  destruct (execute (TorchDisk_init copy_world 4)
              [CallGeneralCopy 1 (Some disk) good_copy; Work 0; Work 0])
    as [s |] eqn:Hexec; [| vm_compute in Hexec; discriminate].
  assert (TorchDisk_synchronize s = Some s) as Hsync
    by (vm_compute in Hexec; injection Hexec as <-; reflexivity).
  destruct (disk_synchronize_drains_queue _ _ _ s Hexec s Hsync)
    as (_ & _ & Hitems & _ & Hperm & _).
  exists s. repeat split; assumption.
Defined.

(** After a direct GPU-to-GPU copy, [TorchDisk.synchronize()] returns
    with no device barrier issued and the device copy still pending. *)
Lemma disk_synchronize_issues_no_barrier :
  exists s s',
    execute (TorchDisk_init copy_world 4)
            [CallGeneralCopy 1 (Some disk) device_copy] = Some s /\
    TorchDisk_synchronize s = Some s' /\
    device_barriers s' = 0%nat /\
    device_pending s' = [device_copy].
Proof.
  eexists. eexists. split; [vm_compute; reflexivity |].
  split; [reflexivity |]. split; reflexivity.
Qed.

(** A task that copies well: the worker marks it done and goes on. *)
Lemma worker_marks_done_on_success_only_witness :
  exists s s',
    execute (TorchDisk_init copy_world 4)
            [CallGeneralCopy 1 (Some disk) good_copy; Work 0] = Some s /\
    worker_step s 0 = Some s' /\
    unfinished_tasks (copy_queue s') = unfinished_tasks (copy_queue s) - 1 /\
    copy_threads s' !! 0%nat = Some Waiting.
Proof.
  destruct (execute (TorchDisk_init copy_world 4)
              [CallGeneralCopy 1 (Some disk) good_copy; Work 0])
    as [s |] eqn:Hexec; [| vm_compute in Hexec; discriminate].
  destruct (worker_marks_done_on_success_only _ _ _ s Hexec 0%nat) as [Hlive _].
  assert (copy_threads s !! 0%nat = Some (Holding (Some good_copy))) as Hthread
    by (vm_compute in Hexec; injection Hexec as <-; reflexivity).
  specialize (Hlive good_copy Hthread).
  assert (copy_task (world s) good_copy = inr tt) as Hcopy
    by (vm_compute in Hexec; injection Hexec as <-; reflexivity).
  rewrite Hcopy in Hlive. destruct Hlive as (s' & Hstep & Hunf & Hwait & _).
  exists s, s'. repeat split; assumption.
Defined.

(** A task whose copy fails (the shapes differ): the worker that took it
    dies with the task not marked done, the counter stays at one, nothing
    is recorded, and [synchronize()] blocks from then on, whatever else
    happens, although another worker still serves a later task. *)
Lemma failed_copy_kills_worker_and_blocks_join :
  exists s,
    execute (TorchDisk_init copy_world 4)
            [CallGeneralCopy 1 (Some disk) bad_copy; Work 0; Work 0] = Some s /\
    copy_task copy_world bad_copy = inl RuntimeError /\
    copy_threads s !! 0%nat = Some (Died RuntimeError (Some bad_copy)) /\
    unfinished_tasks (copy_queue s) = 1 /\
    completed s = [] /\
    worker_step s 0 = None /\
    TorchDisk_synchronize s = None /\
    (forall trace s', execute s trace = Some s' ->
                      TorchDisk_synchronize s' = None) /\
    (exists s', execute s [CallGeneralCopy 1 (Some disk) good_copy;
                           Work 1; Work 1] = Some s' /\
                completed s' = [good_copy] /\
                unfinished_tasks (copy_queue s') = 1).
Proof.
  eexists. split; [vm_compute; reflexivity |].
  split; [reflexivity |]. split; [reflexivity |]. split; [reflexivity |].
  split; [reflexivity |]. split; [reflexivity |]. split; [reflexivity |].
  split.
  - intros trace s' Hexec.
    eapply (dead_thread_blocks_join s' 0%nat).
    + eapply queue_invariant_execute; [| exact Hexec].
      eapply queue_invariant_execute; [apply (queue_invariant_init copy_world 4) |].
      instantiate (1 := [CallGeneralCopy 1 (Some disk) bad_copy; Work 0; Work 0]).
      vm_compute. reflexivity.
    + eapply dead_thread_execute; [| exact Hexec]. reflexivity.
  - eexists. split; [vm_compute; reflexivity |]. split; reflexivity.
Qed.

(** ** Position indices of the embedding stage *)

Lemma map_result_length {A B} (f : A -> result B) xs ys :
  map_result f xs = inr ys -> length ys = length xs.
Proof.
  revert ys. induction xs as [| x xs IH]; intros ys; simpl.
  - unfold ret. now intros [= <-].
  - destruct (f x) as [e | y]; [discriminate |]. cbn [bind].
    destruct (map_result f xs) as [e | ys']; [discriminate |]. cbn [bind].
    unfold ret. intros [= <-]. simpl. f_equal. now apply IH.
Qed.

Lemma map_result_lookup {A B} (f : A -> result B) xs ys (j : nat) x :
  map_result f xs = inr ys -> xs !! j = Some x ->
  exists y, f x = inr y /\ ys !! j = Some y.
Proof.
  revert ys j. induction xs as [| x0 xs IH]; intros ys j; simpl.
  - intros _ H. discriminate.
  - destruct (f x0) as [e | y0] eqn:Ef; [discriminate |]. cbn [bind].
    destruct (map_result f xs) as [e | ys'] eqn:Emap; [discriminate |].
    cbn [bind]. unfold ret. intros [= <-].
    destruct j as [| j]; simpl.
    + intros [= <-]. exists y0. split; [exact Ef | reflexivity].
    + intros Hx. exact (IH ys' j eq_refl Hx).
Qed.

Lemma map_result_total {A B} (f : A -> result B) xs :
  Forall (fun x => exists y, f x = inr y) xs ->
  exists ys, map_result f xs = inr ys.
Proof.
  induction 1 as [| x xs [y Hy] _ [ys IH]]; simpl.
  - now exists [].
  - rewrite Hy, IH. now exists (y :: ys).
Qed.

Lemma count_true_app (xs ys : list bool) :
  count_true (xs ++ ys) = count_true xs + count_true ys.
Proof. induction xs as [| x xs IH]; simpl; lia. Qed.

Lemma cumsum_from_lookup (mask : list bool) (acc : Z) (j : nat) :
  (j < length mask)%nat ->
  cumsum_from acc mask !! j = Some (acc + count_true (take (S j) mask)).
Proof.
  revert acc j. induction mask as [| m rest IH]; intros acc j Hj.
  - simpl in Hj. lia.
  - destruct j as [| j]; simpl.
    + f_equal. lia.
    + simpl in Hj. rewrite IH by lia. f_equal. simpl. lia.
Qed.

Lemma cumsum_from_length (mask : list bool) (acc : Z) :
  length (cumsum_from acc mask) = length mask.
Proof.
  revert acc. induction mask as [| m rest IH]; intros acc; simpl;
    [| rewrite IH]; reflexivity.
Qed.

(** [cumsum * mask + 1]: the running count plus one on a token, one on a
    pad. *)
Lemma positions_of_lookup (mask : list bool) (j : nat) (m : bool) :
  mask !! j = Some m ->
  positions_of mask !! j = Some (if m then count_nonpad mask j + 1 else 1).
Proof.
  intros Hm. unfold positions_of, cumsum.
  rewrite lookup_zip_with.
  rewrite cumsum_from_lookup by (eapply lookup_lt_Some, Hm).
  simpl. rewrite Hm. simpl. unfold count_nonpad.
  destruct m; simpl; f_equal; lia.
Qed.

Lemma positions_of_length (mask : list bool) :
  length (positions_of mask) = length mask.
Proof.
  unfold positions_of, cumsum.
  rewrite length_zip_with, cumsum_from_length. lia.
Qed.

Lemma cut_positions_drop (mask : list bool) (token_ids : list Z) :
  (length token_ids <= length mask)%nat ->
  cut_positions mask token_ids
  = drop (length mask - length token_ids) (positions_of mask).
Proof.
  intros Hle. unfold cut_positions, py_drop.
  rewrite positions_of_length.
  destruct (Z.ltb_spec (Z.of_nat (length mask) - Z.of_nat (length token_ids)) 0);
    [lia |].
  f_equal. lia.
Qed.

Lemma count_nonpad_split (mask : list bool) (past j : nat) :
  count_nonpad mask (past + j)
  = count_true (take past mask) + count_true (take (S j) (drop past mask)).
Proof.
  unfold count_nonpad. rewrite <- count_true_app. f_equal.
  replace (S (past + j)) with (past + S j)%nat by lia.
  symmetry. apply take_take_drop.
Qed.

(** The batch is embedded sequence by sequence. *)
Lemma opt_input_embed_rows inputs attention_mask w_token w_pos outs
    (b : nat) token_ids mask :
  opt_input_embed inputs attention_mask w_token w_pos = inr outs ->
  inputs !! b = Some token_ids -> attention_mask !! b = Some mask ->
  exists out,
    opt_input_embed_row token_ids mask w_token w_pos = inr out /\
    outs !! b = Some out.
Proof.
  unfold opt_input_embed.
  destruct (length inputs =? length attention_mask)%nat; [| discriminate].
  intros Houts Hids Hmask.
  assert (zip inputs attention_mask !! b = Some (token_ids, mask)) as Hzip.
  { rewrite lookup_zip_with, Hids. simpl. now rewrite Hmask. }
  exact (map_result_lookup _ _ _ _ _ Houts Hzip).
Qed.

(** C8 (as amended). For a sequence whose mask covers the cached prefix
    and the new tokens, position [j] of the new tokens gets, when it is
    not padding, the running count of non-padding tokens up to and
    including it, counted from the start of the mask (the non-padding
    tokens of the cached prefix plus those among the new tokens so far),
    plus one; a padding position gets index 1.  The indices of the cached
    prefix are cut off.  The output at a padding position is the sum of
    the token-table row of its token and row 1 of the position table.
    A batch is embedded sequence by sequence in this way. *)
Theorem position_index_is_running_count_plus_one
    (token_ids : list Z) (mask : list bool) (j : nat) (m : bool) :
  (length token_ids <= length mask)%nat ->
  mask !! (length mask - length token_ids + j)%nat = Some m ->
  cut_positions mask token_ids !! j
  = Some (if m
          then count_true (take (length mask - length token_ids) mask)
               + count_true (take (S j)
                               (drop (length mask - length token_ids) mask))
               + 1
          else 1) /\
  length (cut_positions mask token_ids) = length token_ids /\
  (forall w_token w_pos out,
     opt_input_embed_row token_ids mask w_token w_pos = inr out ->
     m = false ->
     exists id tok_row pos_row,
       token_ids !! j = Some id /\
       w_token !! Z.to_nat id = Some tok_row /\
       w_pos !! 1%nat = Some pos_row /\
       out !! j = Some (zip_with Z.add tok_row pos_row)) /\
  (forall inputs attention_mask w_token w_pos outs (b : nat),
     opt_input_embed inputs attention_mask w_token w_pos = inr outs ->
     inputs !! b = Some token_ids -> attention_mask !! b = Some mask ->
     exists out,
       opt_input_embed_row token_ids mask w_token w_pos = inr out /\
       outs !! b = Some out).
Proof.
  intros Hle Hm. set (past := (length mask - length token_ids)%nat) in *.
  assert (cut_positions mask token_ids !! j
          = Some (if m then count_nonpad mask (past + j) + 1 else 1)) as Hpos.
  { rewrite cut_positions_drop by exact Hle. fold past.
    rewrite lookup_drop. now apply positions_of_lookup. }
  assert (length (cut_positions mask token_ids) = length token_ids) as Hlen.
  { rewrite cut_positions_drop by exact Hle.
    rewrite length_drop, positions_of_length. lia. }
  split; [| split; [exact Hlen |]; split;
             [| intros; eapply opt_input_embed_rows; eassumption]].
  - rewrite Hpos. destruct m; [| reflexivity].
    now rewrite count_nonpad_split.
  - intros w_token w_pos out Hout ->. revert Hout.
    unfold opt_input_embed_row.
    destruct (embedding token_ids w_token) as [e | token_embed] eqn:Etok;
      [discriminate |].
    cbn [bind].
    destruct (embedding (cut_positions mask token_ids) w_pos)
      as [e | pos_embed] eqn:Epos; [discriminate |].
    cbn [bind]. unfold seq_add.
    pose proof (map_result_length _ _ _ Etok) as Hlt.
    pose proof (map_result_length _ _ _ Epos) as Hlp.
    rewrite Hlen in Hlp.
    destruct (Nat.eqb_spec (length token_embed) (length pos_embed)); [| lia].
    intros Hout.
    assert (j < length token_ids)%nat as Hj.
    { apply lookup_lt_Some in Hm. subst past. lia. }
    destruct (lookup_lt_is_Some_2 token_ids j Hj) as [id Hid].
    destruct (map_result_lookup _ _ _ _ _ Etok Hid) as (tok_row & Htok & Htj).
    destruct (map_result_lookup _ _ _ _ _ Epos Hpos) as (pos_row & Hrow & Hpj).
    assert (zip token_embed pos_embed !! j = Some (tok_row, pos_row)) as Hzip.
    { rewrite lookup_zip_with, Htj. simpl. rewrite Hpj. reflexivity. }
    destruct (map_result_lookup _ _ _ _ _ Hout Hzip) as (row & Hadd & Hoj).
    exists id, tok_row, pos_row. split; [exact Hid |].
    destruct (id <? 0); [discriminate |].
    apply py_getitem_inv in Htok. split; [exact Htok |].
    simpl in Hrow. apply py_getitem_inv in Hrow. split; [exact Hrow |].
    rewrite Hoj. f_equal. unfold vec_add in Hadd.
    destruct (length tok_row =? length pos_row)%nat; [| discriminate].
    unfold ret in Hadd. congruence.
Qed.

(** A decode step: three cached positions, the first one padding, and one
    new token, which gets index 3 + 1. *)
Lemma position_index_is_running_count_plus_one_witness :
  cut_positions [false; true; true; true] [5] !! 0%nat = Some 4.
Proof.
  exact (proj1 (position_index_is_running_count_plus_one
                  [5] [false; true; true; true] 0 true
                  ltac:(simpl; lia) eq_refl)).
Defined.

(** Three tokens and no padding: the indices are 2, 3, 4 where the
    running counts are 1, 2, 3; and the output at the padding position of
    a second sequence is row 1 of the position table, not zero. *)
Lemma position_index_is_not_running_count :
  cut_positions [true; true; true] [5; 6; 7] = [2; 3; 4] /\
  map (count_nonpad [true; true; true]) [0; 1; 2]%nat = [1; 2; 3] /\
  opt_input_embed_row [1; 7] [false; true] w_token_example w_pos_example
  = inr [[10; 10]; [27; 27]] /\
  w_token_example !! 1%nat = Some [0; 0].
Proof. repeat split; reflexivity. Qed.

(** ** The output stage *)

(** The threshold is an ordinary number, a little above 10^-5. *)
Lemma temperature_threshold_value :
  exists d, temperature_threshold = Finite d /\
            (d == 5902958103587057 # 590295810358705651712)%Q.
Proof. eexists. split; [vm_compute; reflexivity | reflexivity]. Qed.

(** [not temperature < 1e-5] holds of the temperatures of at least 1e-5
    and of NaN. *)
Lemma temperature_too_low_spec (temperature : pyfloat) :
  temperature_too_low temperature = false
  <-> temperature = NaN \/ float_le temperature_threshold temperature = true.
Proof.
  unfold temperature_too_low.
  destruct temperature_threshold_value as (d & -> & _).
  destruct temperature as [q | | |]; cbn [float_lt float_le].
  - rewrite negb_false_iff. split; [now right | now intros [|]].
  - split; [now right | reflexivity].
  - split; [discriminate | now intros [|]].
  - split; [now left | reflexivity].
Qed.

Lemma last_token_spec (logits : list (list (list Q))) (rows : list (list Q)) :
  last_token logits = inr rows
  <-> Forall2 (fun positions row => last positions = Some row) logits rows.
Proof.
  unfold last_token. revert rows.
  induction logits as [| positions logits IH]; intros rows; cbn [map_result].
  - unfold ret. split.
    + intros [= <-]. constructor.
    + intros H. inversion H. reflexivity.
  - destruct (last positions) as [row |] eqn:Hlast; cbn [bind].
    + destruct (map_result _ logits) as [e | rows'] eqn:Hrest; cbn [bind].
      * split; [discriminate |]. intros H. inversion H as [| ? ? ? ? Hrow Htl];
          subst. apply IH in Htl. discriminate.
      * unfold ret. split.
        -- intros [= <-]. constructor; [exact Hlast | now apply IH].
        -- intros H. inversion H as [| ? ? ? ? Hrow Htl]; subst.
           apply IH in Htl. injection Htl as <-.
           rewrite Hlast in Hrow. now injection Hrow as <-.
    + split; [discriminate |]. intros H. inversion H; congruence.
Qed.

(** [argmax_from] returns the position of a largest entry of what it has
    seen and what is left. *)
Lemma argmax_from_spec (rest seen : list Q) (best : Q) (best_i : nat) :
  seen !! best_i = Some best ->
  Forall (fun y => (y <= best)%Q) seen ->
  exists m,
    (seen ++ rest) !! argmax_from best best_i (length seen) rest = Some m /\
    Forall (fun y => (y <= m)%Q) (seen ++ rest).
Proof.
  revert seen best best_i.
  induction rest as [| x rest IH]; intros seen best best_i Hbest Hseen; simpl.
  - exists best. rewrite app_nil_r. split; assumption.
  - destruct (Qle_bool x best) eqn:Hle.
    + apply Qle_bool_iff in Hle.
      destruct (IH (seen ++ [x]) best best_i) as (m & Hm & Hall).
      * now apply lookup_app_l_Some.
      * apply Forall_app. split; [exact Hseen | now constructor].
      * rewrite length_app, Nat.add_1_r, <- app_assoc in Hm.
        rewrite <- app_assoc in Hall. exists m. split; assumption.
    + assert (best < x)%Q as Hlt.
      { apply Qnot_le_lt. intros H. apply Qle_bool_iff in H. congruence. }
      destruct (IH (seen ++ [x]) x (length seen)) as (m & Hm & Hall).
      * apply lookup_last_app.
      * apply Forall_app. split.
        -- eapply Forall_impl; [exact Hseen |]. simpl. intros y Hy.
           eapply Qle_trans; [exact Hy | now apply Qlt_le_weak].
        -- constructor; [apply Qle_refl | constructor].
      * rewrite length_app, Nat.add_1_r, <- app_assoc in Hm.
        rewrite <- app_assoc in Hall. exists m. split; assumption.
Qed.

Lemma argmax_spec (row : list Q) (i : nat) :
  argmax row = inr i ->
  exists m, row !! i = Some m /\ Forall (fun y => (y <= m)%Q) row.
Proof.
  destruct row as [| x rest]; [discriminate |].
  unfold argmax, ret. intros [= <-].
  apply (argmax_from_spec rest [x] x 0%nat); [reflexivity |].
  constructor; [apply Qle_refl | constructor].
Qed.

(** C10 (as amended). From the logits on, [opt_output_embed] works on
    the logits of the last position of every sequence.  It samples
    (multinomial over the softmax of those logits divided by the
    temperature) exactly when [do_sample] is set and the test
    [temperature < 1e-5] fails, which it does for a temperature of at
    least 1e-5 and also for NaN.  In every other case, a set [do_sample]
    with a temperature below 1e-5 among them, it returns for every
    sequence the position of a largest logit of the last position, with no
    error or warning for the ignored flag. *)
Theorem output_samples_only_above_threshold
    (logits : list (list (list Q))) (last_token_logits : list (list Q))
    (do_sample : bool) (temperature : pyfloat) :
  Forall2 (fun positions row => last positions = Some row)
          logits last_token_logits ->
  (do_sample = true /\
   (temperature = NaN \/ float_le temperature_threshold temperature = true) ->
   opt_output_embed logits do_sample temperature
   = inr (Multinomial last_token_logits temperature)) /\
  (do_sample = false \/ float_lt temperature temperature_threshold = true ->
   opt_output_embed logits do_sample temperature
   = bind (map_result argmax last_token_logits) (fun ids => ret (ArgMax ids))) /\
  (forall rows t,
     opt_output_embed logits do_sample temperature = inr (Multinomial rows t) ->
     rows = last_token_logits /\ t = temperature /\ do_sample = true /\
     (temperature = NaN \/
      float_le temperature_threshold temperature = true)) /\
  (forall ids (b : nat) row,
     opt_output_embed logits do_sample temperature = inr (ArgMax ids) ->
     last_token_logits !! b = Some row ->
     exists i m, ids !! b = Some i /\ row !! i = Some m /\
                 Forall (fun y => (y <= m)%Q) row) /\
  (Forall (fun row => row <> []) last_token_logits ->
   exists choice, opt_output_embed logits do_sample temperature = inr choice).
Proof.
  intros Hlast. apply last_token_spec in Hlast.
  unfold opt_output_embed. rewrite Hlast. cbn [bind].
  pose proof (temperature_too_low_spec temperature) as Hlow.
  unfold temperature_too_low in Hlow.
  assert (forall ids (b : nat) row,
            bind (map_result argmax last_token_logits)
                 (fun ids => ret (ArgMax ids)) = inr (ArgMax ids) ->
            last_token_logits !! b = Some row ->
            exists i m, ids !! b = Some i /\ row !! i = Some m /\
                        Forall (fun y => (y <= m)%Q) row) as Hargmax.
  { intros ids b row Hids Hrow.
    destruct (map_result argmax last_token_logits) as [e | ids'] eqn:Emap;
      [discriminate |].
    cbn [bind] in Hids. unfold ret in Hids. injection Hids as ->.
    destruct (map_result_lookup _ _ _ _ _ Emap Hrow) as (i & Hi & Hb).
    destruct (argmax_spec _ _ Hi) as (m & Hm & Hall).
    now exists i, m. }
  assert (Htotal : Forall (fun row => row <> []) last_token_logits ->
                   exists choice,
                     bind (map_result argmax last_token_logits)
                          (fun ids => ret (ArgMax ids)) = inr choice).
  { intros Hrows.
    destruct (map_result_total argmax last_token_logits) as [ids Hids].
    - eapply Forall_impl; [exact Hrows |].
      intros [| x row] Hne; [contradiction |]. now eexists.
    - rewrite Hids. now eexists. }
  unfold temperature_too_low.
  destruct (float_lt temperature temperature_threshold) eqn:Etemp.
  - (* temperature < 1e-5 *)
    assert (Hnot : ~ (temperature = NaN \/
                      float_le temperature_threshold temperature = true)).
    { intros H. apply Hlow in H. discriminate. }
    rewrite andb_false_r.
    split; [intros [_ H]; contradiction |].
    split; [reflexivity |].
    split.
    { intros rows t.
      destruct (map_result argmax last_token_logits); discriminate. }
    split; [exact Hargmax | exact Htotal].
  - (* not temperature < 1e-5 *)
    assert (Hge : temperature = NaN \/
                  float_le temperature_threshold temperature = true)
      by now apply Hlow.
    destruct do_sample; cbn [andb negb].
    + split; [reflexivity |].
      split; [intros [Hf | Hlt]; discriminate |].
      split; [unfold ret; intros rows t [= <- <-]; now repeat split |].
      split; [discriminate |]. intros _. now eexists.
    + split; [intros [Hf _]; discriminate |].
      split; [reflexivity |].
      split.
      { intros rows t.
        destruct (map_result argmax last_token_logits); discriminate. }
      split; [exact Hargmax | exact Htotal].
Qed.

(** With [do_sample] set and temperature 1e-6, the token with the largest
    logit of the last position is returned. *)
Lemma output_samples_only_above_threshold_witness :
  opt_output_embed [[[9 # 1; 0 # 1; 0 # 1]; [1 # 2; 3 # 1; 2 # 1]]]%Q true
                   (binary64 (1 # 1000000))
  = inr (ArgMax [1%nat]).
Proof.
  exact (proj1 (proj2 (output_samples_only_above_threshold
                         [[[9 # 1; 0 # 1; 0 # 1]; [1 # 2; 3 # 1; 2 # 1]]]%Q
                         [[1 # 2; 3 # 1; 2 # 1]]%Q
                         true (binary64 (1 # 1000000))
                         ltac:(repeat constructor)))
               (or_intror eq_refl)).
Defined.

(** With [do_sample] set and a NaN temperature the stage samples, although
    the temperature is not at least 1e-5. *)
Lemma nan_temperature_samples :
  opt_output_embed [[[1 # 2; 3 # 1; 2 # 1]]]%Q true NaN
  = inr (Multinomial [[1 # 2; 3 # 1; 2 # 1]]%Q NaN) /\
  float_le temperature_threshold NaN = false /\
  float_lt NaN temperature_threshold = false.
Proof. repeat split; reflexivity. Qed.
(** ** Sparse decode attention *)

#[global] Instance score_ge_total : Total score_ge.
Proof.
  intros a b. unfold score_ge. rewrite !Qle_bool_iff.
  destruct (Qlt_le_dec (fst a) (fst b)) as [Hlt | Hle]; [| now left].
  right. now apply Qlt_le_weak.
Qed.

#[global] Instance score_ge_trans : Transitive score_ge.
Proof.
  intros a b c. unfold score_ge. rewrite !Qle_bool_iff.
  intros Hba Hcb. eapply Qle_trans; eassumption.
Qed.

Lemma history_length {A} (row : list A) :
  length (history row) = (length row - 1)%nat.
Proof. unfold history. rewrite length_take. lia. Qed.

Lemma history_lookup {A} (row : list A) (i : nat) (x : A) :
  history row !! i = Some x -> row !! i = Some x /\ (i < length row - 1)%nat.
Proof.
  unfold history. intros H.
  pose proof (lookup_lt_Some _ _ _ H) as Hlt. rewrite length_take in Hlt.
  rewrite lookup_take_lt in H by lia. split; [exact H | lia].
Qed.

Lemma zip_seq_elem {A} (row : list A) (base : nat) (x : A) (i : nat) :
  (x, i) ∈ zip row (seq base (length row)) <->
  (base <= i)%nat /\ row !! (i - base)%nat = Some x.
Proof.
  revert base. induction row as [| y row IH]; intros base; simpl.
  - split; [intros H; now apply not_elem_of_nil in H | intros [_ H]; discriminate].
  - rewrite elem_of_cons, IH. split.
    + intros [[= -> ->] | [Hle Hx]].
      * split; [lia |]. now rewrite Nat.sub_diag.
      * split; [lia |]. replace (i - base)%nat with (S (i - S base)) by lia.
        exact Hx.
    + intros [Hle Hx].
      destruct (decide (i = base)) as [-> | Hne].
      * left. rewrite Nat.sub_diag in Hx. simpl in Hx. congruence.
      * right. split; [lia |].
        replace (i - base)%nat with (S (i - S base)) in Hx by lia. exact Hx.
Qed.

Lemma zip_seq_snd {A} (row : list A) (base : nat) :
  map snd (zip row (seq base (length row))) = seq base (length row).
Proof.
  revert base. induction row as [| y row IH]; intros base; simpl;
    [| rewrite IH]; reflexivity.
Qed.

(** What [topk] returns: [k] entries at distinct positions of the row,
    each with its score, and no entry left out scores higher than one
    taken. *)
Lemma topk_spec (row : list Q) (k : Z) :
  0 <= k <= Z.of_nat (length row) ->
  exists selected,
    topk row k = inr selected /\
    Z.of_nat (length selected) = k /\
    NoDup (map snd selected) /\
    (forall x i, (x, i) ∈ selected -> row !! i = Some x) /\
    (forall x i y j, (x, i) ∈ selected -> row !! j = Some y ->
                     j ∉ map snd selected -> (y <= x)%Q).
Proof.
  intros Hk. unfold topk.
  destruct (Z.ltb_spec k 0) as [| _]; [lia |].
  destruct (Z.ltb_spec (Z.of_nat (length row)) k) as [| _]; [lia |].
  cbn [orb].
  set (pairs := zip row (seq 0 (length row))).
  set (sorted := merge_sort score_ge pairs).
  assert (sorted ≡ₚ pairs) as Hperm by apply merge_sort_Permutation.
  assert (StronglySorted score_ge sorted) as Hsorted
    by apply (StronglySorted_merge_sort _).
  assert (length sorted = length row) as Hlen.
  { rewrite Hperm. unfold pairs. rewrite length_zip_with, length_seq. lia. }
  assert (NoDup (map snd sorted)) as Hnodup.
  { rewrite Hperm. unfold pairs. rewrite zip_seq_snd. apply NoDup_seq. }
  exists (take (Z.to_nat k) sorted). split; [reflexivity |].
  split; [rewrite length_take; lia |].
  split.
  { rewrite <- (take_drop (Z.to_nat k) sorted), map_app in Hnodup.
    now apply NoDup_app in Hnodup as [Hfirst _]. }
  split.
  - intros x i Hin. apply elem_of_take in Hin as (n & Hin & _).
    apply list_elem_of_lookup_2 in Hin. rewrite Hperm in Hin.
    apply zip_seq_elem in Hin as [_ Hin]. now rewrite Nat.sub_0_r in Hin.
  - intros x i y j Hin Hy Hout.
    assert ((y, j) ∈ sorted) as Hj.
    { rewrite Hperm. apply zip_seq_elem. split; [lia |].
      now rewrite Nat.sub_0_r. }
    rewrite <- (take_drop (Z.to_nat k) sorted) in Hj, Hsorted.
    apply elem_of_app in Hj as [Hj | Hj].
    + exfalso. apply Hout. apply list_elem_of_fmap. now exists (y, j).
    + pose proof (StronglySorted_app_1_elem_of _ _ _ _ _ Hsorted Hin Hj) as Hge.
      unfold score_ge in Hge. simpl in Hge. now apply Qle_bool_iff in Hge.
Qed.

Lemma forallb_Forall {A} (f : A -> bool) (xs : list A) :
  Forall (fun x => f x = true) xs -> forallb f xs = true.
Proof. induction 1 as [| x xs Hx _ IH]; simpl; [| rewrite Hx, IH]; reflexivity. Qed.

Lemma last_entry_total (row : list Q) :
  (1 <= length row)%nat -> exists c, last_entry row = inr c /\ last row = Some c.
Proof.
  intros Hlen. unfold last_entry. destruct (last row) as [c |] eqn:E.
  - now exists c.
  - apply last_None in E. subst row. simpl in Hlen. lia.
Qed.

(** Lines 519 to 526: for every head, [k] distinct historical positions
    none of which scores lower than a historical position left out, and
    [k + 1] weights: the selected scores and the score of the current
    position. *)
Lemma sparse_select_spec (s : pyfloat) (weights : list (list Q))
    (b src_s n_head k : Z) :
  Z.of_nat (length weights) = b * n_head ->
  Forall (fun row => Z.of_nat (length row) = src_s) weights ->
  1 <= src_s -> sparse_topk s src_s = inr k -> 0 <= k <= src_s - 1 ->
  exists heads weights',
    sparse_select s weights b src_s n_head
    = inr (k, mkIndexTensor k heads, weights') /\
    length heads = length weights /\
    forall (h : nat) row, weights !! h = Some row ->
      exists sel ws,
        heads !! h = Some sel /\ weights' !! h = Some ws /\
        Z.of_nat (length sel) = k /\ NoDup sel /\
        (forall i : nat, i ∈ sel -> Z.of_nat i < src_s - 1) /\
        (forall (i j : nat) x y,
           i ∈ sel -> Z.of_nat j < src_s - 1 -> j ∉ sel ->
           row !! i = Some x -> row !! j = Some y -> (y <= x)%Q) /\
        Z.of_nat (length ws) = k + 1 /\
        (forall (n i : nat), sel !! n = Some i -> ws !! n = row !! i) /\
        last ws = last row.
Proof.
  intros Hrows Hlens Hl Hk Hrange. unfold sparse_select.
  rewrite (proj2 (Z.eqb_eq _ _) Hrows). cbn [andb].
  rewrite forallb_Forall
    by (eapply Forall_impl; [exact Hlens | intros row; apply Z.eqb_eq]).
  cbn [bind ret]. rewrite Hk. cbn [bind].
  destruct (Z.ltb_spec k 0) as [| _]; [lia |].
  destruct (Z.ltb_spec (Z.max (src_s - 1) 0) k) as [| _]; [lia |].
  cbn [orb bind ret].
  destruct (map_result_total (fun row => topk (history row) k) weights)
    as [top Htop].
  { eapply Forall_impl; [exact Hlens |]. intros row Hrow. simpl in Hrow.
    destruct (topk_spec (history row) k) as (selected & Hsel & _).
    - rewrite history_length. lia.
    - now exists selected. }
  rewrite Htop. cbn [bind].
  destruct (Z.eqb_spec src_s 0) as [| _]; [lia |]. cbn [bind ret].
  destruct (map_result_total last_entry weights) as [current Hcurrent].
  { eapply Forall_impl; [exact Hlens |]. intros row Hrow. simpl in Hrow.
    destruct (last_entry_total row) as (c & Hc & _); [lia | now exists c]. }
  rewrite Hcurrent. cbn [bind].
  eexists _, _. split; [reflexivity |].
  split; [rewrite length_map; exact (map_result_length _ _ _ Htop) |].
  intros h row Hh.
  pose proof (proj1 (Forall_lookup _ _) Hlens h row Hh) as Hrow.
  simpl in Hrow.
  destruct (map_result_lookup _ _ _ _ _ Htop Hh) as (selected & Hsel & Htoph).
  destruct (map_result_lookup _ _ _ _ _ Hcurrent Hh) as (c & Hc & Hcurh).
  destruct (topk_spec (history row) k)
    as (selected' & Hsel' & Hlen & Hnodup & Hscore & Hbest).
  { rewrite history_length. lia. }
  rewrite Hsel in Hsel'. injection Hsel' as <-.
  exists (map snd selected), (map fst selected ++ [c]).
  split; [rewrite lookup_map, Htoph; reflexivity |].
  split; [rewrite lookup_zip_with, Htoph, Hcurh; reflexivity |].
  split; [rewrite length_map; exact Hlen |].
  split; [exact Hnodup |].
  assert (Hbound : forall i : nat,
             i ∈ map snd selected -> Z.of_nat i < src_s - 1).
  { intros i ([x i'] & -> & Hin)%list_elem_of_fmap. simpl.
    apply Hscore, history_lookup in Hin as [_ Hlt]. lia. }
  split; [exact Hbound |].
  split.
  { intros i j x y Hi Hj Hout Hx Hy.
    apply list_elem_of_fmap in Hi as ([x' i'] & -> & Hin). simpl in *.
    pose proof (Hscore _ _ Hin) as Hx'.
    apply history_lookup in Hx' as [Hx' _].
    assert (x' = x) as -> by congruence.
    eapply (Hbest x i' y j Hin); [| exact Hout].
    unfold history. rewrite lookup_take_lt by lia. exact Hy. }
  split; [rewrite length_app, length_map; simpl; lia |].
  split.
  { intros n i Hn. rewrite lookup_map in Hn.
    destruct (selected !! n) as [[x i'] |] eqn:En; [| discriminate].
    simpl in Hn. injection Hn as ->.
    assert (Hin : (x, i) ∈ selected) by (eapply list_elem_of_lookup_2; exact En).
    apply Hscore, history_lookup in Hin as [Hin _]. rewrite Hin.
    apply lookup_app_l_Some. rewrite lookup_map, En. reflexivity. }
  rewrite last_snoc. unfold last_entry in Hc.
  destruct (last row); [now injection Hc as -> | discriminate].
Qed.

Lemma slice_length_prefix (n k : Z) :
  0 <= k <= n -> slice_length n (slice2 0 k) = inr k.
Proof.
  intros Hk. unfold slice_length, slice2. simpl.
  destruct (Z.ltb_spec k 0); [lia |]. unfold ret. f_equal. lia.
Qed.

Lemma np_prod_3 (x y z : Z) : np_prod [x; y; z] = x * (y * z).
Proof. unfold np_prod. simpl. f_equal. f_equal. lia. Qed.

(** A gather from a disk tensor into a GPU tensor is queued on the disk
    device. *)
Lemma general_copy_gather_from_disk depth w gdd args tdst tsrc gpu_name dir :
  get_tensor w (g_dst args) = inr tdst ->
  device tdst = Some (TorchDevice gpu_name true) ->
  get_tensor w (g_src args) = inr tsrc ->
  device tsrc = Some (TorchDisk dir) ->
  general_copy_gather (S depth) w gdd args
  = ([SubmitGather (TorchDisk dir) args], inr tt).
Proof.
  intros Hdst Hddst Hsrc Hdsrc.
  unfold general_copy_gather, tensor_device.
  rewrite Hdst. cbn [glift gbind]. rewrite Hddst. cbn [glift gbind device_type].
  change (DeviceType_eqb CUDA MIXED) with false. cbn iota.
  rewrite Hsrc. cbn [glift gbind]. rewrite Hdsrc. cbn [glift gbind device_type].
  change (DeviceType_eqb DISK MIXED) with false. cbn iota.
  unfold general_copy_gather_leaf. cbn [device_type].
  change (DeviceType_eqb DISK COMPRESSED) with false.
  change (DeviceType_eqb CUDA COMPRESSED) with false.
  change (DeviceType_eqb DISK DISK) with true.
  reflexivity.
Qed.




(** With the cache in CPU memory the copy is not queued:
    [general_copy] reaches [src.data[src_indices] if src_indices else
    src.data], and an index tensor of more than one element has no truth
    value.  The step raises and nothing is gathered. *)
Lemma sparse_attention_in_memory_raises :
  snd (_sparse_attention_value 1 cpu sparse_cpu_world (Some disk)
         weights_example false [1; 2; 3] (TensorPair 0%nat 1%nat)
         1 10 2 3 (Finite (1 # 2)))
  = ([], inl RuntimeError).
Proof. vm_compute. reflexivity. Qed.

(** * Further properties *)

(** ** What [cut_indices] selects *)

Lemma cut_length_eq (indices : list slice) (a b lo hi base n : Z) :
  unit_stride indices ->
  indices !! SEG_DIM = Some (slice2 a b) ->
  cut_length indices lo hi base n
  = slice_length n (slice2 (Z.max a lo - base) (Z.min b hi - base)).
Proof.
  intros Hunit Hseg. unfold cut_length, cut_indices, py_assert.
  rewrite (forallb_step_unit _ Hunit). cbn [bind ret].
  unfold py_getitem at 1. rewrite Hseg. cbn [bind ret].
  destruct indices as [| first [| seg rest]]; try discriminate.
  reflexivity.
Qed.

Lemma cut_columns_eq (indices : list slice) (a b lo hi base n : Z) :
  unit_stride indices ->
  indices !! SEG_DIM = Some (slice2 a b) ->
  cut_columns indices lo hi base n
  = slice_columns n (slice2 (Z.max a lo - base) (Z.min b hi - base)).
Proof.
  intros Hunit Hseg. unfold cut_columns, cut_indices, py_assert.
  rewrite (forallb_step_unit _ Hunit). cbn [bind ret].
  unfold py_getitem at 1. rewrite Hseg. cbn [bind ret].
  destruct indices as [| first [| seg rest]]; try discriminate.
  reflexivity.
Qed.

Lemma map_fmap {A B} (f : A -> B) (xs : list A) : map f xs = f <$> xs.
Proof. induction xs as [|x xs IH]; [reflexivity | simpl; now rewrite IH]. Qed.

(** The positions of a unit-stride slice are consecutive. *)
Lemma slice_columns_unit (n u v : Z) :
  slice_columns n (slice2 u v)
  = inr (seqZ (clip_index n u)
              (Z.max (clip_index n v - clip_index n u) 0)).
Proof.
  unfold slice_columns, slice_length, slice2, clip_index, ret.
  cbn [start stop step bind]. f_equal.
  match goal with
  | |- map _ (seqZ 0 ?len) = seqZ ?c _ =>
      transitivity (Z.add c <$> seqZ 0 len);
        [ rewrite map_fmap; apply list_fmap_ext; intros _ i _; lia
        | rewrite fmap_add_seqZ, Z.add_0_r; reflexivity ]
  end.
Qed.

Lemma cut_columns_overlap (indices : list slice) (a b lo hi n : Z) :
  unit_stride indices ->
  indices !! SEG_DIM = Some (slice2 a b) ->
  0 <= a <= b -> 0 <= lo <= hi ->
  (Z.min b hi <= n ->
   cut_columns indices lo hi 0 n
   = inr (seqZ (Z.max a lo) (overlap a b lo hi))) /\
  (lo <= b ->
   cut_columns indices lo hi lo (hi - lo)
   = inr (seqZ (Z.max a lo - lo) (overlap a b lo hi))).
Proof.
  intros Hunit Hseg Hab Hlohi. split; intros Hn.
  - rewrite (cut_columns_eq _ a b), slice_columns_unit by assumption.
    unfold clip_index, overlap.
    destruct (Z.ltb_spec (Z.max a lo - 0) 0), (Z.ltb_spec (Z.min b hi - 0) 0);
      try lia.
    destruct (Z.le_gt_cases (Z.min b hi) (Z.max a lo)) as [Hempty | Hne].
    + rewrite !seqZ_nil by lia. reflexivity.
    + do 2 f_equal; lia.
  - rewrite (cut_columns_eq _ a b), slice_columns_unit by assumption.
    unfold clip_index, overlap.
    destruct (Z.ltb_spec (Z.max a lo - lo) 0), (Z.ltb_spec (Z.min b hi - lo) 0);
      try lia.
    destruct (Z.le_gt_cases (Z.min b hi) (Z.max a lo)) as [Hempty | Hne].
    + rewrite !seqZ_nil by lia. reflexivity.
    + do 2 f_equal; lia.
Qed.

Lemma cut_length_overlap (indices : list slice) (a b lo hi n : Z) :
  unit_stride indices ->
  indices !! SEG_DIM = Some (slice2 a b) ->
  0 <= a <= b -> 0 <= lo <= hi ->
  (Z.min b hi <= n -> cut_length indices lo hi 0 n = inr (overlap a b lo hi)) /\
  (lo <= b -> cut_length indices lo hi lo (hi - lo) = inr (overlap a b lo hi)).
Proof.
  intros Hunit Hseg Hab Hlohi. split; intros Hn.
  - rewrite (cut_length_eq _ a b) by assumption.
    unfold slice_length, slice2, overlap, ret. cbn [start stop step]. f_equal.
    destruct (Z.ltb_spec (Z.max a lo - 0) 0), (Z.ltb_spec (Z.min b hi - 0) 0);
      lia.
  - rewrite (cut_length_eq _ a b) by assumption.
    unfold slice_length, slice2, overlap, ret. cbn [start stop step]. f_equal.
    destruct (Z.ltb_spec (Z.max a lo - lo) 0), (Z.ltb_spec (Z.min b hi - lo) 0);
      lia.
Qed.

(** X1. For a unit-stride index tuple whose range on the segment axis is
    [a, b) with [0 <= a <= b], and a segment [lo, hi) with
    [0 <= lo <= hi]: the cut without re-basing selects, on any tensor that
    reaches [min(b, hi)] along the axis, exactly the columns of the
    intersection of the two intervals, in order; the cut re-based to the
    segment selects, of a sub-handle of extent [hi - lo], the same columns
    counted from the start of the segment, provided the range does not
    end before the segment starts. *)
Theorem cut_selects_intersection (indices : list slice) (a b lo hi n : Z) :
  unit_stride indices ->
  indices !! SEG_DIM = Some (slice2 a b) ->
  0 <= a <= b -> 0 <= lo <= hi ->
  (Z.min b hi <= n ->
   cut_columns indices lo hi 0 n
   = inr (seqZ (Z.max a lo) (overlap a b lo hi)) /\
   (forall c, c ∈ seqZ (Z.max a lo) (overlap a b lo hi)
              <-> a <= c < b /\ lo <= c < hi) /\
   cut_length indices lo hi 0 n = inr (overlap a b lo hi)) /\
  (lo <= b ->
   cut_columns indices lo hi lo (hi - lo)
   = inr (map (fun c => c - lo) (seqZ (Z.max a lo) (overlap a b lo hi))) /\
   cut_length indices lo hi lo (hi - lo) = inr (overlap a b lo hi)).
Proof.
  intros Hunit Hseg Hab Hlohi.
  destruct (cut_columns_overlap indices a b lo hi n Hunit Hseg Hab Hlohi)
    as [Hplain Hrebased].
  destruct (cut_length_overlap indices a b lo hi n Hunit Hseg Hab Hlohi)
    as [Hplain_len Hrebased_len].
  split; intros Hn.
  - split; [now apply Hplain|]. split; [|now apply Hplain_len].
    intros c. rewrite elem_of_seqZ. unfold overlap. lia.
  - split; [|now apply Hrebased_len].
    rewrite (Hrebased Hn). f_equal.
    replace (Z.max a lo - lo) with (- lo + Z.max a lo) by lia.
    rewrite <- (fmap_add_seqZ (- lo) (Z.max a lo)).
    apply (map_ext (Z.add (- lo)) (fun c => c - lo)). intros c. lia.
Qed.

(** Columns [10, 90) against the segment [50, 80): columns 50 to 79 of
    the whole tensor, which are columns 0 to 29 of the sub-handle. *)
Lemma cut_selects_intersection_witness :
  cut_columns [slice2 0 7; slice2 10 90; slice2 0 4] 50 80 0 100
  = inr (seqZ 50 30) /\
  cut_columns [slice2 0 7; slice2 10 90; slice2 0 4] 50 80 50 30
  = inr (map (fun c => c - 50) (seqZ 50 30)).
Proof.
  destruct (cut_selects_intersection
              [slice2 0 7; slice2 10 90; slice2 0 4] 10 90 50 80 100)
    as [Hplain Hrebased].
  - repeat constructor.
  - reflexivity.
  - lia.
  - lia.
  - split; [apply Hplain; lia | apply Hrebased; lia].
Defined.

(** X2. When the range [a, b) ends before the segment [lo, hi) starts,
    the re-based cut has a negative stop, which indexing counts from the
    end of the sub-handle: it selects [max(0, b + hi - 2 lo)] columns of
    the sub-handle, where the cut without re-basing selects none. *)
Theorem cut_rebased_wraps_before_segment
    (indices : list slice) (a b lo hi n : Z) :
  unit_stride indices ->
  indices !! SEG_DIM = Some (slice2 a b) ->
  0 <= a <= b -> b < lo -> lo <= hi ->
  cut_length indices lo hi lo (hi - lo) = inr (Z.max 0 (b + hi - 2 * lo)) /\
  cut_length indices lo hi 0 n = inr 0.
Proof.
  intros Hunit Hseg Hab Hb Hlohi. split.
  - rewrite (cut_length_eq _ a b) by assumption.
    unfold slice_length, slice2, ret. cbn [start stop step]. f_equal.
    destruct (Z.ltb_spec (Z.max a lo - lo) 0), (Z.ltb_spec (Z.min b hi - lo) 0);
      lia.
  - rewrite (cut_length_eq _ a b) by assumption.
    unfold slice_length, slice2, ret. cbn [start stop step]. f_equal.
    destruct (Z.ltb_spec (Z.max a lo - 0) 0), (Z.ltb_spec (Z.min b hi - 0) 0);
      lia.
Qed.

(** Columns [0, 70) against the segment [80, 100): ten columns of the
    sub-handle are selected, none of the other side. *)
Lemma cut_rebased_wraps_before_segment_witness :
  cut_length [slice2 0 7; slice2 0 70] 80 100 80 20 = inr 10 /\
  cut_length [slice2 0 7; slice2 0 70] 80 100 0 70 = inr 0.
Proof.
  exact (cut_rebased_wraps_before_segment [slice2 0 7; slice2 0 70] 0 70 80 100 70
           ltac:(repeat constructor) eq_refl ltac:(lia) ltac:(lia) ltac:(lia)).
Defined.

Lemma segments_cons (off l : Z) (ls : list Z) :
  segments (off :: seg_points_from off (l :: ls))
  = (off, off + l) :: segments ((off + l) :: seg_points_from (off + l) ls).
Proof. reflexivity. Qed.

Lemma py_sum_cons (x : Z) (xs : list Z) : py_sum (x :: xs) = x + py_sum xs.
Proof. reflexivity. Qed.

Lemma py_sum_nonneg (xs : list Z) :
  Forall (fun l => 0 <= l) xs -> 0 <= py_sum xs.
Proof.
  induction 1 as [| y ys Hy _ IH]; [reflexivity |]. rewrite py_sum_cons. lia.
Qed.

(** The intersections with consecutive segments add up to the
    intersection with their union. *)
Lemma overlap_tiles (lens : list Z) (a b off : Z) :
  Forall (fun l => 0 <= l) lens -> a <= b ->
  py_sum (map (fun '(lo, hi) => overlap a b lo hi)
              (segments (off :: seg_points_from off lens)))
  = overlap a b off (off + py_sum lens).
Proof.
  intros Hlens Hab. revert off.
  induction Hlens as [| l ls Hl Hls IH]; intros off.
  - unfold py_sum, overlap. simpl. lia.
  - rewrite segments_cons. cbn [map]. rewrite !py_sum_cons, IH.
    pose proof (py_sum_nonneg ls Hls) as Hsum.
    unfold overlap. lia.
Qed.

Lemma map_result_pure {A B} (f : A -> result B) (g : A -> B) (xs : list A) :
  Forall (fun x => f x = inr (g x)) xs -> map_result f xs = inr (map g xs).
Proof.
  induction 1 as [| x xs Hx _ IH]; [reflexivity |].
  cbn [map_result map]. rewrite Hx, IH. reflexivity.
Qed.

Lemma segments_bounds (lens : list Z) (off : Z) :
  Forall (fun l => 0 <= l) lens ->
  Forall (fun '(lo, hi) => off <= lo <= hi /\ hi <= off + py_sum lens)
         (segments (off :: seg_points_from off lens)).
Proof.
  intros Hlens. revert off.
  induction Hlens as [| l ls Hl Hls IH]; intros off; [constructor |].
  rewrite segments_cons, py_sum_cons.
  pose proof (py_sum_nonneg ls Hls) as Hsum.
  constructor; [lia |].
  eapply Forall_impl; [apply IH |]. intros [lo hi]. lia.
Qed.

(** The columns of the intersections with consecutive segments, put one
    after the other, are the columns of the intersection with their
    union. *)
Lemma columns_tile (lens : list Z) (a b off : Z) :
  Forall (fun l => 0 <= l) lens -> a <= b ->
  concat (map (fun '(lo, hi) => seqZ (Z.max a lo) (overlap a b lo hi))
              (segments (off :: seg_points_from off lens)))
  = seqZ (Z.max a off) (overlap a b off (off + py_sum lens)).
Proof.
  intros Hlens Hab. revert off.
  induction Hlens as [| l ls Hl Hls IH]; intros off.
  - unfold py_sum, overlap. simpl. rewrite seqZ_nil by lia. reflexivity.
  - rewrite segments_cons. cbn [map concat]. rewrite IH, py_sum_cons.
    pose proof (py_sum_nonneg ls Hls) as Hsum.
    set (n1 := overlap a b off (off + l)).
    set (n2 := overlap a b (off + l) (off + l + py_sum ls)).
    assert (Hn1 : 0 <= n1) by (unfold n1, overlap; lia).
    assert (Hn2 : 0 <= n2) by (unfold n2, overlap; lia).
    replace (overlap a b off (off + (l + py_sum ls))) with (n1 + n2)
      by (unfold n1, n2, overlap; lia).
    rewrite seqZ_app by assumption. f_equal.
    destruct (Z.eq_dec n2 0) as [-> | Hpos].
    + rewrite !seqZ_nil by lia. reflexivity.
    + f_equal. unfold n1, n2, overlap in *. lia.
Qed.

(** X3. The boundary intervals of a mixed tensor tile its segment axis:
    for segment lengths that are not negative and a unit-stride range
    [a, b) inside the axis, the cut at each segment selects exactly the
    columns of the segment's intersection with the range, and the columns
    selected at all segments, taken in the order of the segments, are the
    columns [a, b), each one once.  When the range reaches the end of the
    axis, the re-based cuts select the same columns of the sub-handles,
    counted from the start of each segment. *)
Theorem cuts_tile_range (indices : list slice) (a b : Z) (lens : list Z) :
  unit_stride indices ->
  indices !! SEG_DIM = Some (slice2 a b) ->
  Forall (fun l => 0 <= l) lens ->
  0 <= a <= b -> b <= py_sum lens ->
  let segs := segments (make_seg_points lens) in
  let per_segment :=
    map (fun '(lo, hi) => seqZ (Z.max a lo) (overlap a b lo hi)) segs in
  map_result (fun '(lo, hi) => cut_columns indices lo hi 0 (py_sum lens)) segs
  = inr per_segment /\
  concat per_segment = seqZ a (b - a) /\
  map_result (fun '(lo, hi) => cut_length indices lo hi 0 (py_sum lens)) segs
  = inr (map (fun '(lo, hi) => overlap a b lo hi) segs) /\
  py_sum (map (fun '(lo, hi) => overlap a b lo hi) segs) = b - a /\
  (b = py_sum lens ->
   map_result (fun '(lo, hi) => cut_columns indices lo hi lo (hi - lo)) segs
   = inr (map (fun '(lo, hi) =>
                 map (fun c => c - lo)
                     (seqZ (Z.max a lo) (overlap a b lo hi))) segs) /\
   map_result (fun '(lo, hi) => cut_length indices lo hi lo (hi - lo)) segs
   = inr (map (fun '(lo, hi) => overlap a b lo hi) segs)).
Proof.
  intros Hunit Hseg Hlens Hab Hb segs per_segment.
  pose proof (segments_bounds lens 0 Hlens) as Hbounds.
  change (0 :: seg_points_from 0 lens) with (make_seg_points lens) in Hbounds.
  fold segs in Hbounds.
  assert (Hshift : forall lo n,
             seqZ (Z.max a lo - lo) n
             = map (fun c => c - lo) (seqZ (Z.max a lo) n)).
  { intros lo n. replace (Z.max a lo - lo) with (- lo + Z.max a lo) by lia.
    rewrite <- (fmap_add_seqZ (- lo) (Z.max a lo)).
    apply (map_ext (Z.add (- lo)) (fun c => c - lo)). intros c. lia. }
  split; [| split; [| split; [| split]]].
  - unfold per_segment.
    apply (map_result_pure
             (fun '(lo, hi) => cut_columns indices lo hi 0 (py_sum lens))
             (fun '(lo, hi) => seqZ (Z.max a lo) (overlap a b lo hi))).
    eapply Forall_impl; [exact Hbounds |]. intros [lo hi] Hlohi.
    apply (cut_columns_overlap indices a b lo hi (py_sum lens));
      try assumption; lia.
  - unfold per_segment, segs, make_seg_points.
    rewrite columns_tile by (assumption || lia).
    unfold overlap. f_equal; lia.
  - apply (map_result_pure
             (fun '(lo, hi) => cut_length indices lo hi 0 (py_sum lens))
             (fun '(lo, hi) => overlap a b lo hi)).
    eapply Forall_impl; [exact Hbounds |]. intros [lo hi] Hlohi.
    apply (cut_length_overlap indices a b lo hi (py_sum lens));
      try assumption; lia.
  - unfold segs, make_seg_points.
    rewrite overlap_tiles by (assumption || lia).
    unfold overlap. lia.
  - intros ->. split.
    + apply (map_result_pure
               (fun '(lo, hi) => cut_columns indices lo hi lo (hi - lo))
               (fun '(lo, hi) =>
                  map (fun c => c - lo)
                      (seqZ (Z.max a lo) (overlap a (py_sum lens) lo hi)))).
      eapply Forall_impl; [exact Hbounds |]. intros [lo hi] Hlohi.
      rewrite <- Hshift.
      apply (cut_columns_overlap indices a (py_sum lens) lo hi (py_sum lens));
        try assumption; lia.
    + apply (map_result_pure
               (fun '(lo, hi) => cut_length indices lo hi lo (hi - lo))
               (fun '(lo, hi) => overlap a (py_sum lens) lo hi)).
      eapply Forall_impl; [exact Hbounds |]. intros [lo hi] Hlohi.
      apply (cut_length_overlap indices a (py_sum lens) lo hi (py_sum lens));
        try assumption; lia.
Qed.

(** Columns [10, 100) of a 50/30/20 split: columns 10 to 49, 50 to 79
    and 80 to 99, which the sub-handles hold as their columns 10 to 49,
    0 to 29 and 0 to 19. *)
Lemma cuts_tile_range_witness :
  map_result (fun '(lo, hi) =>
                cut_columns [slice2 0 7; slice2 10 100] lo hi 0 100)
             (segments (make_seg_points [50; 30; 20]))
  = inr [seqZ 10 40; seqZ 50 30; seqZ 80 20] /\
  map_result (fun '(lo, hi) =>
                cut_columns [slice2 0 7; slice2 10 100] lo hi lo (hi - lo))
             (segments (make_seg_points [50; 30; 20]))
  = inr [seqZ 10 40; seqZ 0 30; seqZ 0 20].
Proof.
  destruct (cuts_tile_range [slice2 0 7; slice2 10 100] 10 100
              [50; 30; 20] ltac:(repeat constructor) eq_refl
              ltac:(repeat constructor; lia) ltac:(lia)
              ltac:(vm_compute; discriminate))
    as (Hplain & _ & _ & _ & Hrebased).
  split; [exact Hplain |].
  destruct (Hrebased eq_refl) as [Hcols _]. exact Hcols.
Defined.

(** ** Copying and moving a tensor to a device *)

Lemma device_delete_objects (d : Device) (w w1 : World) (r : ref) :
  device_delete d w r = inr w1 -> objects w1 = objects w.
Proof.
  destruct d; simpl; unfold TorchDevice_delete, TorchDisk_delete,
    TorchMixedDevice_delete, raise; try discriminate.
  - intros [= <-]. reflexivity.
  - destruct (get_tensor w r) as [|t]; cbn [bind]; [discriminate|].
    destruct (data t); try discriminate.
    destruct (_ && _); intros [= <-]; reflexivity.
Qed.

Lemma delete_lookup (w w2 : World) (r : ref) :
  TorchTensor_delete w r = inr w2 ->
  exists t, objects w !! r = Some t /\ objects w2 !! r = Some (invalidated t).
Proof.
  unfold TorchTensor_delete.
  destruct (get_tensor w r) as [|t] eqn:Ht; cbn [bind]; [discriminate|].
  apply get_tensor_inv in Ht.
  destruct (device t) as [d|]; [|discriminate].
  destruct (DeviceType_eqb (device_type d) DISK).
  - destruct (device_delete d w r) as [|w1] eqn:Hd; cbn [bind]; [discriminate|].
    intros [= <-]. exists t. split; [exact Ht|].
    apply (set_tensor_lookup _ _ t).
    rewrite (device_delete_objects _ _ _ _ Hd). exact Ht.
  - cbn [bind ret]. intros [= <-]. exists t. split; [exact Ht|].
    now apply (set_tensor_lookup _ _ t).
Qed.

Lemma copy_task_deleted_source (w : World) (item : copy_args) (t : TorchTensor) :
  objects w !! src item = Some t -> device t = None ->
  copy_task w item = inl AttributeError.
Proof.
  intros Ht Hdev. unfold copy_task, map_to_torch_tensor.
  rewrite (get_tensor_lookup _ _ _ Ht). cbn [bind].
  unfold tensor_device_type, tensor_device. rewrite Hdev. reflexivity.
Qed.

(** X4. [move] does not wait for the copy it starts.  Whenever the copy
    was put on a worker queue (a disk endpoint, or a relayed GPU-to-CPU
    copy) with the moved tensor as its source, the source handle is
    already deleted when [move] returns, so the queued task can no longer
    run: in the world [move] leaves, the worker's body fails on it with
    AttributeError. *)
Theorem move_queued_copy_reads_deleted_source
    (compressed_allocate :
       Device -> World -> list Z -> np_dtype -> TensorData -> World * result ref)
    (depth : nat) (gdd : option Device) (w w2 : World) (self new : ref)
    (dst_device : Device) (es : list effect) :
  TorchTensor_move compressed_allocate depth gdd w self dst_device
  = (w2, (es, inr new)) ->
  forall owner args,
    SubmitCopy owner args ∈ es -> src args = self ->
    copy_task w2 args = inl AttributeError.
Proof.
  unfold TorchTensor_move. intros Hmove owner args Hin Hsrc.
  destruct (get_tensor w self) as [|t]; [discriminate|].
  destruct (on_device t dst_device).
  - injection Hmove as <- <- _. apply elem_of_nil in Hin. contradiction.
  - destruct (TorchTensor_copy _ _ _ _ _ _ _)
      as [w1 [es1 [e|new1]]]; [discriminate|].
    destruct (TorchTensor_delete w1 self) as [|w2'] eqn:Hdel; [discriminate|].
    injection Hmove as <- _ _.
    apply delete_lookup in Hdel as (t1 & _ & Hlook).
    apply (copy_task_deleted_source _ _ (invalidated t1)).
    + rewrite Hsrc. exact Hlook.
    + reflexivity.
Qed.

(** Moving the disk tensor of [disk_world] to the CPU queues the copy on
    the disk's worker and deletes the source at once. *)
Lemma move_queued_copy_reads_deleted_source_witness :
  exists w2,
    TorchTensor_move no_compression 2 None disk_world 0%nat cpu
    = (w2, ([SubmitCopy disk (CopyArgs 1%nat None 0%nat None)], inr 1%nat)) /\
    copy_task w2 (CopyArgs 1%nat None 0%nat None) = inl AttributeError.
Proof.
  eexists. split; [vm_compute; reflexivity |].
  eapply (move_queued_copy_reads_deleted_source no_compression 2 None
            disk_world _ 0%nat 1%nat cpu).
  - vm_compute. reflexivity.
  - apply list_elem_of_here.
  - reflexivity.
Defined.

Lemma slice_length_within (x : slice) (n : Z) :
  slice_within x n -> slice_length n x = inr (stop x - start x).
Proof.
  intros (Hstep & Hlo & Hhi). unfold slice_length. rewrite Hstep.
  destruct (start x <? 0) eqn:Ea; [lia|].
  destruct (stop x <? 0) eqn:Eb; [lia|].
  unfold ret. f_equal. lia.
Qed.

Lemma index_shape_within (shape_ : list Z) (xs : list slice) :
  Forall2 slice_within xs (take (length xs) shape_) ->
  index_shape shape_ xs
  = inr (map (fun y => stop y - start y) xs ++ drop (length xs) shape_).
Proof.
  revert shape_. induction xs as [|x xs IH]; intros shape_ H.
  - destruct shape_; reflexivity.
  - destruct shape_ as [|n ns]; [inversion H|].
    simpl in H. apply Forall2_cons in H as [Hx Hxs].
    cbn [index_shape]. rewrite (slice_length_within _ _ Hx). cbn [bind].
    rewrite (IH _ Hxs). reflexivity.
Qed.

Lemma within_step_is_None (xs : list slice) (ns : list Z) :
  Forall2 slice_within xs ns -> forallb step_is_None xs = true.
Proof.
  induction 1 as [|x n xs ns (Hstep & _) _ IH]; [reflexivity|].
  simpl. rewrite IH. unfold step_is_None. rewrite Hstep. reflexivity.
Qed.

Lemma valid_shape_Forall (shape_ : list Z) :
  Forall (fun n => 0 <= n) shape_ -> valid_shape shape_ = true.
Proof.
  intros H. unfold valid_shape. apply forallb_forall. intros n Hn.
  apply Z.leb_le. rewrite Forall_forall in H. apply H.
  now apply list_elem_of_In.
Qed.

Lemma within_valid (shape_ : list Z) (xs : list slice) (ns : list Z) :
  Forall (fun n => 0 <= n) shape_ ->
  Forall2 slice_within xs ns ->
  valid_shape (map (fun y => stop y - start y) xs ++ drop (length xs) shape_)
  = true.
Proof.
  intros Hshape Hxs. apply valid_shape_Forall, Forall_app. split.
  - clear Hshape. induction Hxs as [|x n xs ns' (_ & Hx & _) _ IH]; simpl.
    + constructor.
    + constructor; [lia | exact IH].
  - now apply Forall_drop.
Qed.

Lemma copy_shape_within (t : TorchTensor) (si : option (list slice)) :
  Forall (fun n => 0 <= n) (shape t) ->
  slices_within (shape t) si ->
  exists shape_,
    copy_shape t si = inr shape_ /\
    view_shape (shape t) si = inr shape_ /\
    valid_shape shape_ = true.
Proof.
  intros Hshape Hsi. destruct si as [[|x xs]|].
  - exists (shape t). repeat split. now apply valid_shape_Forall.
  - exists (map (fun y => stop y - start y) (x :: xs)
            ++ drop (length (x :: xs)) (shape t)).
    simpl in Hsi. split; [|split].
    + unfold copy_shape. rewrite (within_step_is_None _ _ Hsi). reflexivity.
    + unfold view_shape. now apply index_shape_within.
    + eapply within_valid; eassumption.
  - exists (shape t). repeat split. now apply valid_shape_Forall.
Qed.

(** X5. [copy] between CPU and GPU tensors, with source slices that stay
    within the tensor: the call succeeds, the source and the files are
    untouched, and the one new handle is on the target device with the
    shape of the selected view (pinned exactly when the target is the
    CPU).  The data is transferred by one non-blocking copy of the
    selected view into the whole new tensor, issued at once and never
    through a worker queue; the source is pinned first exactly when it
    is an unpinned CPU tensor bound for a GPU. *)
Theorem copy_between_devices
    (compressed_allocate :
       Device -> World -> list Z -> np_dtype -> TensorData -> World * result ref)
    (depth : nat) (gdd : option Device) (w : World) (self : ref)
    (t : TorchTensor) (sname dname : string) (scuda dcuda pinned : bool)
    (si : option (list slice)) :
  objects w !! self = Some t ->
  device t = Some (TorchDevice sname scuda) ->
  data t = Primitive pinned ->
  Forall (fun n => 0 <= n) (shape t) ->
  slices_within (shape t) si ->
  exists shape_,
    view_shape (shape t) si = inr shape_ /\
    let new := length (objects w) in
    let args := CopyArgs new None self si in
    TorchTensor_copy compressed_allocate (S depth) gdd w self
                     (TorchDevice dname dcuda) si
    = (mkWorld
         (objects w
          ++ [mkTorchTensor shape_ (dtype t) (Primitive (negb dcuda))
                            (Some (TorchDevice dname dcuda)) true
                            ("t_" +:+ pretty (name_count w))])
         (files w) (S (name_count w)),
       ([if negb scuda && dcuda && negb pinned
         then PinnedCopy args else DirectCopy args],
        inr new)).
Proof.
  intros Ht Hdev Hdata Hshape Hsi.
  destruct (copy_shape_within t si Hshape Hsi) as (shape_ & Hcs & Hview & Hvalid).
  exists shape_. split; [exact Hview|]. intros new args.
  set (tnew := mkTorchTensor shape_ (dtype t) (Primitive (negb dcuda))
                 (Some (TorchDevice dname dcuda)) true
                 ("t_" +:+ pretty (name_count w))).
  set (w1 := mkWorld (objects w ++ [tnew]) (files w) (S (name_count w))).
  assert (Halloc : TorchDevice_allocate (TorchDevice dname dcuda) w shape_
                     (dtype t) None None = inr (new, w1)).
  { unfold TorchDevice_allocate. rewrite Hvalid.
    destruct dcuda; reflexivity. }
  unfold TorchTensor_copy. rewrite (get_tensor_lookup _ _ _ Ht), Hcs.
  unfold copy_allocate. rewrite Halloc. unfold ret. f_equal.
  assert (Hnew : get_tensor w1 new = inr tnew).
  { apply get_tensor_lookup. unfold w1, new. simpl.
    apply list_lookup_middle. reflexivity. }
  assert (Hself : get_tensor w1 self = inr t).
  { apply get_tensor_lookup. unfold w1. simpl.
    apply lookup_app_l_Some. exact Ht. }
  subst args.
  rewrite (general_copy_flat depth w1 gdd (CopyArgs new None self si) tnew t
             (TorchDevice dname dcuda) (TorchDevice sname scuda));
    [| exact Hnew | reflexivity | destruct dcuda; discriminate
     | exact Hself | exact Hdev | destruct scuda; discriminate ].
  unfold general_copy_leaf, relay_condition, pin_condition, native_copy,
    is_pinned.
  cbn [dst_indices src_indices shape data tnew view_shape device_type].
  rewrite Hdata, Hview. cbn [bind ret].
  rewrite copy__refl.
  destruct scuda, dcuda, pinned; reflexivity.
Qed.

(** Rows 3 and 4 of the GPU tensor of [relay_world] are copied into a
    new pinned CPU tensor of two rows. *)
Lemma copy_between_devices_witness :
  exists w1,
    TorchTensor_copy no_compression 1 None relay_world 0%nat cpu
                     (Some [slice2 3 5])
    = (w1, ([DirectCopy (CopyArgs 2%nat None 0%nat (Some [slice2 3 5]))],
            inr 2%nat)) /\
    objects w1 !! 2%nat
    = Some (mkTorchTensor [2; 4] np_float16 (Primitive true) (Some cpu) true
                          "t_2").
Proof.
  assert (Hshape : Forall (fun n => 0 <= n) [10; 4])
    by (repeat constructor; lia).
  assert (Hwithin : slices_within [10; 4] (Some [slice2 3 5])).
  { simpl. repeat constructor; simpl; lia. }
  destruct (copy_between_devices no_compression 0 None relay_world 0%nat
              (mkTorchTensor [10; 4] np_float16 (Primitive false) (Some gpu)
                             true "t_0")
              "cuda:0" "cpu" true false false (Some [slice2 3 5])
              eq_refl eq_refl eq_refl Hshape Hwithin)
    as (shape_ & Hview & Hcopy).
  vm_compute in Hview. injection Hview as <-.
  eexists. split; [apply Hcopy | reflexivity].
Defined.

Lemma base_copy_allocate
    (compressed_allocate :
       Device -> World -> list Z -> np_dtype -> TensorData -> World * result ref)
    (dst_device : Device) (w w1 : World) (shape_ : list Z) (t : TorchTensor)
    (new : ref) :
  is_base dst_device = true ->
  copy_allocate compressed_allocate dst_device w shape_ t = (w1, inr new) ->
  new = length (objects w) /\
  exists tnew, objects w1 = objects w ++ [tnew] /\
               shape tnew = shape_ /\ device tnew = Some dst_device.
Proof.
  intros Hbase Halloc.
  assert (H : base_allocate dst_device w shape_ (dtype t) None = inr (new, w1)).
  { destruct dst_device; try discriminate; unfold copy_allocate in Halloc;
      cbn [base_allocate].
    - destruct (TorchDevice_allocate _ _ _ _ _ _) as [|[r w']];
        [discriminate|]. now injection Halloc as <- <-.
    - destruct (TorchDisk_allocate _ _ _ _ _ _) as [|[r w']];
        [discriminate|]. now injection Halloc as <- <-. }
  apply base_allocate_spec in H as (-> & _ & tnew & Hobjs & Hshape & Hdev).
  split; [reflexivity|]. now exists tnew.
Qed.

(** X12. The flag of [smart_copy] tells the caller whether it got a
    tensor of its own.  For a CPU, GPU or disk target: when the tensor is
    already on the target device the call returns the tensor itself with
    flag [False], issues nothing and changes nothing; otherwise a
    successful call returns flag [True] and a new handle on the target
    device, different from the source, and the source handle is as it
    was. *)
Theorem smart_copy_flag_marks_new_tensor
    (compressed_allocate :
       Device -> World -> list Z -> np_dtype -> TensorData -> World * result ref)
    (depth : nat) (gdd : option Device) (w w1 : World) (self new : ref)
    (t : TorchTensor) (dst_device : Device) (si : option (list slice))
    (es : list effect) (flag : bool) :
  is_base dst_device = true ->
  objects w !! self = Some t ->
  TorchTensor_smart_copy compressed_allocate depth gdd w self dst_device si
  = (w1, (es, inr (new, flag))) ->
  if on_device t dst_device
  then flag = false /\ new = self /\ w1 = w /\ es = []
  else flag = true /\ new <> self /\
       objects w1 !! self = Some t /\
       exists tnew, objects w1 !! new = Some tnew /\
                    device tnew = Some dst_device.
Proof.
  intros Hbase Ht. unfold TorchTensor_smart_copy.
  rewrite (get_tensor_lookup _ _ _ Ht).
  destruct (on_device t dst_device).
  - unfold lift, ret. intros [= <- <- <- <-]. repeat split.
  - unfold TorchTensor_copy. rewrite (get_tensor_lookup _ _ _ Ht).
    destruct (copy_shape t si) as [|shape_]; [discriminate|].
    destruct (copy_allocate _ _ _ _ _) as [w2 [|new2]] eqn:Halloc;
      [discriminate|].
    apply base_copy_allocate in Halloc as (-> & tnew & Hobjs & _ & Hdev);
      [|exact Hbase].
    destruct (general_copy _ _ _ _) as [es1 [|[]]]; [discriminate|].
    cbn [tbind lift ret]. intros [= <- _ <- <-].
    pose proof (lookup_lt_Some _ _ _ Ht) as Hlt.
    split; [reflexivity|]. split; [lia|]. split.
    + rewrite Hobjs. now apply lookup_app_l_Some.
    + exists tnew. split; [|exact Hdev].
      rewrite Hobjs. apply list_lookup_middle. reflexivity.
Qed.

(** The GPU tensor of [relay_world] is copied to the CPU. *)
Lemma smart_copy_flag_marks_new_tensor_witness :
  exists w1 es,
    TorchTensor_smart_copy no_compression 1 None relay_world 0%nat cpu None
    = (w1, (es, inr (2%nat, true))) /\
    objects w1 !! 0%nat = objects relay_world !! 0%nat.
Proof.
  destruct (TorchTensor_smart_copy no_compression 1 None relay_world 0%nat
              cpu None) as [w1 [es r]] eqn:Hcopy.
  assert (Hr : r = inr (2%nat, true)).
  { vm_compute in Hcopy. now injection Hcopy as _ _ <-. }
  subst r. exists w1, es. split; [reflexivity|].
  destruct (smart_copy_flag_marks_new_tensor no_compression 1 None relay_world
              w1 0%nat 2%nat _ cpu None es true eq_refl eq_refl Hcopy)
    as (_ & _ & Hself & _).
  exact Hself.
Defined.

(** X13. [copy] looks at the source only after it has allocated the
    target.  On a deleted tensor a copy to a CPU, GPU or disk device
    fails with AttributeError and issues nothing, but the tensor
    allocated for the result stays in the world, for a disk target
    together with its new file, and no handle to it is returned. *)
Theorem copy_of_deleted_tensor_leaves_allocation
    (compressed_allocate :
       Device -> World -> list Z -> np_dtype -> TensorData -> World * result ref)
    (depth : nat) (gdd : option Device) (w : World) (self : ref)
    (t : TorchTensor) (dst_device : Device) (si : option (list slice))
    (shape_ : list Z) :
  objects w !! self = Some t ->
  device t = None ->
  is_base dst_device = true ->
  copy_shape t si = inr shape_ ->
  valid_shape shape_ = true ->
  exists w1 tnew,
    TorchTensor_copy compressed_allocate (S depth) gdd w self dst_device si
    = (w1, ([], inl AttributeError)) /\
    objects w1 = objects w ++ [tnew] /\
    shape tnew = shape_ /\ device tnew = Some dst_device /\
    match dst_device with
    | TorchDisk _ =>
        exists path, data tnew = Filename path /\
                     files w1 !! path = Some shape_
    | _ => files w1 = files w
    end.
Proof.
  intros Ht Hdev Hbase Hcs Hvalid.
  unfold TorchTensor_copy. rewrite (get_tensor_lookup _ _ _ Ht), Hcs.
  assert (Hgc : forall w1 tnew,
             objects w1 = objects w ++ [tnew] ->
             device tnew = Some dst_device ->
             tbind (general_copy (S depth) w1 gdd
                      (CopyArgs (length (objects w)) None self si))
                   (fun _ => lift (ret (length (objects w))))
             = ([], inl AttributeError)).
  { intros w1 tnew Hobjs Hnewdev. cbn [general_copy dst src].
    assert (Hnew : get_tensor w1 (length (objects w)) = inr tnew).
    { apply get_tensor_lookup. rewrite Hobjs.
      apply list_lookup_middle. reflexivity. }
    assert (Hself : get_tensor w1 self = inr t).
    { apply get_tensor_lookup. rewrite Hobjs. now apply lookup_app_l_Some. }
    rewrite Hnew, tbind_lift_ret. unfold tensor_device at 1.
    rewrite Hnewdev, tbind_lift_ret.
    unfold DeviceType_eqb at 1.
    rewrite (bool_decide_eq_false_2 _ (is_base_not_mixed _ Hbase)).
    rewrite Hself, tbind_lift_ret. unfold tensor_device. rewrite Hdev.
    reflexivity. }
  destruct dst_device as [dname dcuda | dir | |]; try discriminate.
  - set (tnew := mkTorchTensor shape_ (dtype t) (Primitive (negb dcuda))
                   (Some (TorchDevice dname dcuda)) true
                   ("t_" +:+ pretty (name_count w))).
    set (w1 := mkWorld (objects w ++ [tnew]) (files w) (S (name_count w))).
    assert (Halloc : TorchDevice_allocate (TorchDevice dname dcuda) w shape_
                       (dtype t) None None = inr (length (objects w), w1)).
    { unfold TorchDevice_allocate. rewrite Hvalid.
      destruct dcuda; reflexivity. }
    exists w1, tnew. unfold copy_allocate. rewrite Halloc.
    split; [f_equal; now apply (Hgc w1 tnew)|]. repeat split.
  - set (n := "t_" +:+ pretty (name_count w)).
    set (tnew := mkTorchTensor shape_ (dtype t) (Filename (path_join dir n))
                   (Some (TorchDisk dir)) true n).
    set (w1 := mkWorld (objects w ++ [tnew])
                       (<[path_join dir n := shape_]> (files w))
                       (S (name_count w))).
    assert (Halloc : TorchDisk_allocate (TorchDisk dir) w shape_
                       (dtype t) None None = inr (length (objects w), w1)).
    { unfold TorchDisk_allocate. cbn [name_or_next next_name].
      rewrite Hvalid. reflexivity. }
    exists w1, tnew. unfold copy_allocate. rewrite Halloc.
    split; [f_equal; now apply (Hgc w1 tnew)|].
    split; [reflexivity|]. split; [reflexivity|]. split; [reflexivity|].
    exists (path_join dir n). split; [reflexivity|].
    apply lookup_insert_eq.
Qed.

(** Copying the deleted tensor of [deleted_world] to the disk fails and
    leaves a second object and a new file behind. *)
Lemma copy_of_deleted_tensor_leaves_allocation_witness :
  exists w1,
    TorchTensor_copy no_compression 1 None deleted_world 0%nat disk None
    = (w1, ([], inl AttributeError)) /\
    length (objects w1) = 2%nat /\
    files w1 !! "/offload/t_1" = Some [7; 20; 4].
Proof.
  destruct (copy_of_deleted_tensor_leaves_allocation no_compression 0 None
              deleted_world 0%nat _ disk None [7; 20; 4]
              eq_refl eq_refl eq_refl eq_refl eq_refl)
    as (w1 & tnew & Hcopy & Hobjs & _ & _ & _).
  exists w1. split; [exact Hcopy |].
  split; [rewrite Hobjs; reflexivity |].
  vm_compute in Hcopy. injection Hcopy as <-. reflexivity.
Defined.

(** ** Filling a mixed tensor *)

Lemma for_each_omap {A} (xs : list A) (body : A -> traced unit)
    (f : A -> option effect) :
  (forall x, x ∈ xs -> body x = (option_list (f x), inr tt)) ->
  for_each xs body = (omap f xs, inr tt).
Proof.
  induction xs as [|x xs IH]; intros H; [reflexivity|].
  cbn [for_each]. rewrite (H x), IH.
  - simpl. destruct (f x); reflexivity.
  - intros y Hy. apply H. now apply list_elem_of_further.
  - apply list_elem_of_here.
Qed.

Lemma full_indices_unit (ns : list Z) :
  forallb step_is_None (full_indices ns) = true.
Proof. induction ns as [|n ns IH]; [reflexivity | exact IH]. Qed.

Lemma full_indices_within (ns : list Z) :
  Forall (fun n => 0 <= n) ns -> Forall2 slice_within (full_indices ns) ns.
Proof.
  induction 1 as [|n ns Hn _ IH]; simpl; constructor; [|exact IH].
  unfold slice_within. simpl. split; [reflexivity | lia].
Qed.

Lemma full_indices_extents (ns : list Z) :
  map (fun y => stop y - start y) (full_indices ns) = ns.
Proof.
  induction ns as [|n ns IH]; [reflexivity|]. simpl. rewrite IH.
  f_equal. lia.
Qed.

(** The shape of the view that the full index tuple with the slice
    [[a, b)] on the segment axis selects. *)
Lemma view_shape_segment (s0 e : Z) (rest : list Z) (a b : Z) :
  0 <= s0 -> Forall (fun n => 0 <= n) rest -> 0 <= a <= b -> b <= e ->
  view_shape (s0 :: e :: rest)
             (Some (<[SEG_DIM := slice2 a b]> (full_indices (s0 :: e :: rest))))
  = inr (s0 :: b - a :: rest).
Proof.
  intros Hs0 Hrest Hab Hbe.
  change (view_shape _ _)
    with (index_shape (s0 :: e :: rest)
            (slice2 0 s0 :: slice2 a b :: full_indices rest)).
  rewrite index_shape_within.
  - cbn [map length drop stop start slice2]. rewrite full_indices_extents.
    rewrite drop_ge by (unfold full_indices; rewrite length_map; lia).
    rewrite app_nil_r. do 2 f_equal. lia.
  - rewrite take_ge by (simpl; unfold full_indices; rewrite length_map; lia).
    constructor; [unfold slice_within; simpl; split; [reflexivity | lia]|].
    constructor; [unfold slice_within; simpl; split; [reflexivity | lia]|].
    now apply full_indices_within.
Qed.

Lemma cut_full_indices (shape_ : list Z) (e lo hi base : Z) :
  shape_ !! SEG_DIM = Some e -> 0 <= lo -> hi <= e ->
  cut_indices (full_indices shape_) lo hi base
  = inr (<[SEG_DIM := slice2 (lo - base) (hi - base)]> (full_indices shape_)).
Proof.
  intros He Hlo Hhi. destruct shape_ as [|s0 [|e' rest]]; try discriminate.
  injection He as ->.
  unfold cut_indices. rewrite full_indices_unit.
  cbn. unfold ret. do 3 f_equal. unfold slice2. f_equal; lia.
Qed.

Lemma py_sum_take_bounds (lens : list Z) (i : nat) (len : Z) :
  Forall (fun l => 0 <= l) lens -> lens !! i = Some len ->
  0 <= py_sum (take i lens) /\ 0 <= len /\
  py_sum (take i lens) + len <= py_sum lens.
Proof.
  intros Hlens Hi.
  assert (H1 : 0 <= py_sum (take i lens))
    by (apply py_sum_nonneg, Forall_take, Hlens).
  assert (H2 : 0 <= py_sum (drop (S i) lens))
    by (apply py_sum_nonneg, Forall_drop, Hlens).
  pose proof (take_S_lookup_sum _ _ _ Hi) as H3.
  pose proof (py_sum_app (take (S i) lens) (drop (S i) lens)) as H4.
  rewrite take_drop in H4.
  rewrite Forall_forall in Hlens.
  pose proof (Hlens _ (list_elem_of_lookup_2 _ _ _ Hi)) as H5. simpl in H5.
  lia.
Qed.

Section FillMixed.

Variables (w : World) (gdd : option Device) (depth : nat).
Variables (r s : ref) (t tsrc : TorchTensor).
Variables (devices : list Device) (tensors : list (option ref)).
Variables (lens : list Z) (cpu_name : string).

Hypothesis Hr : objects w !! r = Some t.
Hypothesis Hdev : device t = Some (TorchMixedDevice devices).
Hypothesis Hdata : data t = Segments tensors (make_seg_points lens).
Hypothesis Hlen : length lens = length devices.
Hypothesis Hext : shape t !! SEG_DIM = Some (py_sum lens).
Hypothesis Hlens : Forall (fun l => 0 <= l) lens.
Hypothesis Hshape : Forall (fun n => 0 <= n) (shape t).
Hypothesis Hs : objects w !! s = Some tsrc.
Hypothesis Hsdev : device tsrc = Some (TorchDevice cpu_name false).
Hypothesis Hsdata : data tsrc = Primitive true.
Hypothesis Hsshape : shape tsrc = shape t.
Hypothesis Hsegs :
  forall (i : nat) len, lens !! i = Some len ->
    if len =? 0 then tensors !! i = Some None
    else exists sub tsub,
        tensors !! i = Some (Some sub) /\
        objects w !! sub = Some tsub /\
        shape tsub = <[SEG_DIM := len]> (shape t) /\
        exists d, devices !! i = Some d /\ is_base d = true /\
                  device tsub = Some d.

Lemma fill_segment (sub : ref) (tsub : TorchTensor) (d : Device) (lo len : Z) :
  objects w !! sub = Some tsub ->
  shape tsub = <[SEG_DIM := len]> (shape t) ->
  is_base d = true -> device tsub = Some d ->
  0 <= lo -> 0 <= len -> lo + len <= py_sum lens ->
  general_copy (S depth) w gdd
    (CopyArgs sub (Some (<[SEG_DIM := slice2 0 len]> (full_indices (shape t))))
              s (Some (<[SEG_DIM := slice2 lo (lo + len)]>
                         (full_indices (shape t)))))
  = ([segment_fill (shape t) s d sub lo len], inr tt).
Proof.
  intros Hsub Hsubshape Hbase Hsubdev Hlo Hlen0 Hhi.
  rewrite (general_copy_flat depth w gdd _ tsub tsrc d
             (TorchDevice cpu_name false));
    [| now apply get_tensor_lookup | exact Hsubdev
     | now apply is_base_not_mixed | now apply get_tensor_lookup
     | exact Hsdev | discriminate ].
  unfold segment_fill, general_copy_leaf.
  destruct d as [dname dcuda | path | |]; try discriminate.
  - unfold relay_condition, pin_condition, is_pinned, native_copy.
    cbn [dst_indices src_indices]. rewrite Hsdata, Hsubshape, Hsshape.
    destruct (shape t) as [|s0 [|e rest]]; try discriminate.
    injection Hext as ->.
    apply Forall_cons in Hshape as [Hs0 Hrest'].
    apply Forall_cons in Hrest' as [_ Hrest].
    rewrite view_shape_segment by (try assumption; lia).
    change (<[SEG_DIM := len]> (s0 :: py_sum lens :: rest))
      with (s0 :: len :: rest).
    change (<[SEG_DIM := slice2 0 len]>
              (full_indices (s0 :: py_sum lens :: rest)))
      with (<[SEG_DIM := slice2 0 len]> (full_indices (s0 :: len :: rest))).
    rewrite view_shape_segment by (try assumption; lia).
    replace (lo + len - lo) with (len - 0) by lia.
    cbn [bind ret]. rewrite copy__refl.
    destruct dcuda; reflexivity.
  - reflexivity.
Qed.

Lemma fill_mixed_effects :
  general_copy (S (S depth)) w gdd (CopyArgs r None s None)
  = (fill_effects (shape t) s devices tensors lens, inr tt).
Proof.
  remember (S depth) as d1 eqn:Hd1. cbn [general_copy dst src].
  rewrite (get_tensor_lookup _ _ _ Hr), tbind_lift_ret.
  unfold tensor_device at 1. rewrite Hdev, tbind_lift_ret.
  cbn [device_type]. change (DeviceType_eqb MIXED MIXED) with true. cbv iota.
  rewrite (get_tensor_lookup _ _ _ Hs), tbind_lift_ret.
  unfold tensor_device at 1. rewrite Hsdev, tbind_lift_ret.
  cbn [device_type]. change (DeviceType_eqb CPU MIXED) with false.
  cbn [negb py_assert]. rewrite tbind_lift_ret, Hdata.
  cbn [base_devices_of]. rewrite tbind_lift_ret.
  apply for_each_omap. intros i Hi.
  apply elem_of_seq in Hi as [_ Hi]. rewrite Nat.add_0_l, <- Hlen in Hi.
  destruct (lookup_lt_is_Some_2 _ _ Hi) as [len Hlook].
  destruct (py_sum_take_bounds _ _ _ Hlens Hlook) as (Hlo & Hlen0 & Hhi).
  unfold py_getitem.
  rewrite !make_seg_points_lookup by lia.
  rewrite !tbind_lift_ret, (take_S_lookup_sum _ _ _ Hlook), Hlook.
  set (lo := py_sum (take i lens)) in *.
  pose proof (Hsegs i len Hlook) as Hseg.
  destruct (len =? 0) eqn:Ezero.
  - apply Z.eqb_eq in Ezero as ->. rewrite Z.add_0_r, Z.eqb_refl, Hseg.
    destruct (devices !! i); reflexivity.
  - apply Z.eqb_neq in Ezero.
    destruct Hseg as (sub & tsub & Hsub & Hobj & Hsubshape & d & Hd & Hbase
                      & Hsubdev).
    rewrite Hsub, Hd.
    replace (lo =? lo + len) with false by (symmetry; apply Z.eqb_neq; lia).
    cbn [indices_or src_indices dst_indices]. rewrite Hsshape.
    rewrite !(cut_full_indices _ _ _ _ _ Hext) by lia.
    rewrite !tbind_lift_ret.
    unfold sub_handle, py_getitem. rewrite Hsub. unfold ret. cbn [bind].
    rewrite tbind_lift_ret. subst d1.
    replace (lo - 0) with lo by lia. replace (lo + len - 0) with (lo + len) by lia.
    replace (lo - lo) with 0 by lia. replace (lo + len - lo) with len by lia.
    now apply (fill_segment sub tsub d lo len).
Qed.

End FillMixed.

Lemma mixed_allocate_lengths devices w shape_ dtype_ seg_lengths pin name_ r w' :
  TorchMixedDevice_allocate (TorchMixedDevice devices) w shape_ dtype_
                            seg_lengths pin name_ = inr (r, w') ->
  length seg_lengths = length devices.
Proof.
  unfold TorchMixedDevice_allocate. cbn [base_devices_of bind ret].
  destruct (py_getitem shape_ SEG_DIM) as [|extent]; cbn [bind];
    [discriminate|].
  destruct (py_sum seg_lengths =? extent); cbn [py_assert bind ret];
    [|discriminate].
  destruct (length seg_lengths =? length devices)%nat eqn:E;
    cbn [py_assert bind ret]; [|discriminate].
  intros _. now apply Nat.eqb_eq.
Qed.

(** X6. Allocation and copy compose: a tensor just allocated on a mixed
    device can be filled from a pinned CPU tensor of its shape.  The call
    succeeds and issues exactly one copy per base device with a non-empty
    segment, in the order of the devices: a task on the disk's own worker
    queue for a disk segment, a direct copy for a CPU or GPU segment.
    The copy for segment [i] takes the source columns from the sum of
    the lengths before [i] up to that sum plus the segment's length, and
    writes all columns of the segment's sub-tensor. *)
Theorem fill_allocated_mixed_tensor
    (devices : list Device) (w w' : World) (shape_ : list Z)
    (dtype_ : np_dtype) (seg_lengths : list Z) (pin : option bool)
    (name_ : option string) (r s : ref) (tsrc : TorchTensor)
    (cpu_name : string) (gdd : option Device) (depth : nat) :
  TorchMixedDevice_allocate (TorchMixedDevice devices) w shape_ dtype_
                            seg_lengths pin name_ = inr (r, w') ->
  objects w !! s = Some tsrc ->
  device tsrc = Some (TorchDevice cpu_name false) ->
  data tsrc = Primitive true ->
  shape tsrc = shape_ ->
  Forall (fun n => 0 <= n) shape_ ->
  Forall (fun l => 0 <= l) seg_lengths ->
  exists t tensors,
    objects w' !! r = Some t /\
    data t = Segments tensors (make_seg_points seg_lengths) /\
    general_copy (S (S depth)) w' gdd (CopyArgs r None s None)
    = (fill_effects shape_ s devices tensors seg_lengths, inr tt).
Proof.
  intros Halloc Hs Hsdev Hsdata Hsshape Hshape Hlens.
  pose proof (mixed_allocate_lengths _ _ _ _ _ _ _ _ _ Halloc) as Hlen.
  apply mixed_allocate_inv in Halloc
    as (news & t & tensors & Hobjs & -> & Hext & Htshape & Hdev & Hdata
        & _ & Hsegs).
  assert (Hr : objects w' !! length (objects w ++ news) = Some t).
  { rewrite Hobjs, app_assoc. apply list_lookup_middle. reflexivity. }
  exists t, tensors. split; [exact Hr|]. split; [exact Hdata|].
  rewrite <- Htshape.
  apply (fill_mixed_effects w' gdd depth _ s t tsrc devices tensors
           seg_lengths cpu_name); try assumption.
  - now rewrite Htshape.
  - now rewrite Htshape.
  - rewrite Hobjs. now apply lookup_app_l_Some.
  - now rewrite Htshape.
  - now rewrite Htshape.
Qed.

(** A 50/30/20 tensor over GPU, CPU and disk is allocated next to the
    pinned CPU tensor of [fill_world] and filled from it: two direct
    copies and one task for the disk's worker. *)
Lemma fill_allocated_mixed_tensor_witness :
  exists r w',
    TorchMixedDevice_allocate mixed fill_world [7; 100; 4] np_float16
                              [50; 30; 20] None None = inr (r, w') /\
    general_copy 2 w' None (CopyArgs r None 0%nat None)
    = ([DirectCopy
          (CopyArgs 1%nat (Some [slice2 0 7; slice2 0 50; slice2 0 4])
                    0%nat (Some [slice2 0 7; slice2 0 50; slice2 0 4]));
        DirectCopy
          (CopyArgs 2%nat (Some [slice2 0 7; slice2 0 30; slice2 0 4])
                    0%nat (Some [slice2 0 7; slice2 50 80; slice2 0 4]));
        SubmitCopy disk
          (CopyArgs 3%nat (Some [slice2 0 7; slice2 0 20; slice2 0 4])
                    0%nat (Some [slice2 0 7; slice2 80 100; slice2 0 4]))],
       inr tt).
Proof.
  destruct (TorchMixedDevice_allocate mixed fill_world [7; 100; 4] np_float16
              [50; 30; 20] None None) as [e | [r w']] eqn:Halloc;
    [vm_compute in Halloc; discriminate |].
  exists r, w'. split; [reflexivity |].
  assert (Hshape : Forall (fun n => 0 <= n) [7; 100; 4])
    by (repeat constructor; lia).
  assert (Hlens : Forall (fun l => 0 <= l) [50; 30; 20])
    by (repeat constructor; lia).
  destruct (fill_allocated_mixed_tensor [gpu; cpu; disk] fill_world w'
              [7; 100; 4] np_float16 [50; 30; 20] None None r 0%nat
              _ "cpu" None 0 Halloc eq_refl eq_refl eq_refl eq_refl
              Hshape Hlens)
    as (t & tensors & Hr & Hdata & Hcopy).
  vm_compute in Halloc. injection Halloc as <- <-.
  vm_compute in Hr. injection Hr as <-.
  vm_compute in Hdata. injection Hdata as <-.
  rewrite Hcopy. vm_compute. reflexivity.
Defined.

(** ** Attention masks and positions during decoding *)

Lemma iter_extend_attention_mask (n : nat) (attention_mask : list (list bool)) :
  Nat.iter n extend_attention_mask attention_mask
  = map (fun row => row ++ replicate n true) attention_mask.
Proof.
  induction n as [|n IH]; simpl.
  - rewrite <- (map_id attention_mask) at 1. apply map_ext.
    intros row. now rewrite app_nil_r.
  - rewrite IH. unfold extend_attention_mask. rewrite map_map.
    apply map_ext. intros row. rewrite <- app_assoc. f_equal.
    change (true :: replicate n true) with (replicate (S n) true).
    now rewrite replicate_S_end.
Qed.

Lemma count_true_replicate (n : nat) : count_true (replicate n true) = Z.of_nat n.
Proof. induction n as [|n IH]; simpl replicate; simpl count_true; lia. Qed.

Lemma count_true_real_tokens (ids : list Z) (pad_token_id : Z) :
  count_true (map (fun x => negb (x =? pad_token_id)) ids)
  = real_tokens ids pad_token_id.
Proof.
  unfold real_tokens. induction ids as [|x ids IH]; [reflexivity|].
  cbn [map count_true]. rewrite IH, filter_cons.
  destruct (decide (x <> pad_token_id)) as [Hx|Hx].
  - apply Z.eqb_neq in Hx. rewrite Hx. simpl. lia.
  - apply dec_stable in Hx. apply Z.eqb_eq in Hx. rewrite Hx. simpl. lia.
Qed.

Lemma drop_last_one {A} (xs : list A) (x : A) :
  xs !! (length xs - 1)%nat = Some x -> drop (length xs - 1) xs = [x].
Proof.
  intros H. rewrite (drop_S _ _ _ H).
  rewrite drop_ge; [reflexivity|]. apply lookup_lt_Some in H. lia.
Qed.

(** X7. Positions during decoding continue the prompt's numbering.  After
    the prompt's mask has been extended [k + 1] times, the single token of
    that decoding step is embedded at position (number of prompt tokens
    that are not padding) + k + 2, wherever the padding sits in the
    prompt and whatever the new token is, the pad token included. *)
Theorem decode_position_counts_real_tokens
    (token_ids : list (list Z)) (pad_token_id : Z) (k i : nat)
    (ids : list Z) (tok : Z) :
  token_ids !! i = Some ids ->
  exists mask,
    Nat.iter (S k) extend_attention_mask
             (gen_attention_mask token_ids pad_token_id) !! i = Some mask /\
    length mask = (length ids + S k)%nat /\
    cut_positions mask [tok]
    = [real_tokens ids pad_token_id + Z.of_nat k + 2].
Proof.
  intros Hids. rewrite iter_extend_attention_mask.
  unfold gen_attention_mask. rewrite map_map.
  set (row := map (fun x => negb (x =? pad_token_id)) ids).
  exists (row ++ replicate (S k) true).
  assert (Hlen : length (row ++ replicate (S k) true) = (length ids + S k)%nat).
  { unfold row. now rewrite length_app, length_map, length_replicate. }
  split; [|split].
  - rewrite lookup_map, Hids. reflexivity.
  - exact Hlen.
  - rewrite cut_positions_drop by (rewrite Hlen; simpl; lia).
    rewrite <- (positions_of_length (row ++ replicate (S k) true)).
    simpl length at 2.
    apply drop_last_one. rewrite positions_of_length, Hlen.
    assert (Hlast : (row ++ replicate (S k) true)
                      !! (length ids + S k - 1)%nat = Some true).
    { rewrite lookup_app_r by (unfold row; rewrite length_map; lia).
      apply lookup_replicate_2. unfold row. rewrite length_map. lia. }
    rewrite (positions_of_lookup _ _ _ Hlast). f_equal.
    unfold count_nonpad.
    rewrite take_ge by (rewrite Hlen; lia).
    rewrite count_true_app, count_true_replicate.
    unfold row. rewrite count_true_real_tokens. lia.
Qed.

(** A prompt with two pad tokens on the left and three real tokens: the
    second generated token is embedded at position 6. *)
Lemma decode_position_counts_real_tokens_witness :
  exists mask,
    Nat.iter 2 extend_attention_mask
             (gen_attention_mask [[1; 1; 5; 6; 7]] 1) !! 0%nat = Some mask /\
    length mask = 7%nat /\
    cut_positions mask [8] = [6].
Proof.
  exact (decode_position_counts_real_tokens [[1; 1; 5; 6; 7]] 1 1 0
           [1; 1; 5; 6; 7] 8 eq_refl).
Defined.

(** ** The key/value cache of one GPU batch *)

Lemma mixed_allocate_total devices w shape_ dtype_ seg_lengths pin name_ :
  Forall (fun d => is_base d = true) devices ->
  valid_shape shape_ = true ->
  shape_ !! SEG_DIM = Some (py_sum seg_lengths) ->
  Forall (fun l => 0 <= l) seg_lengths ->
  length seg_lengths = length devices ->
  exists r w',
    TorchMixedDevice_allocate (TorchMixedDevice devices) w shape_ dtype_
                              seg_lengths pin name_ = inr (r, w').
Proof.
  intros Hbase Hvalid Hext Hnonneg Hlen.
  unfold TorchMixedDevice_allocate. cbn [base_devices_of bind ret].
  unfold py_getitem. rewrite Hext. cbn [bind ret]. unfold py_assert.
  rewrite Z.eqb_refl. cbn [bind ret].
  rewrite Hlen, Nat.eqb_refl. cbn [bind ret].
  destruct (allocate_segments_total devices 0 seg_lengths shape_ dtype_ pin w
              Hbase Hvalid Hnonneg ltac:(lia)) as (ts & w1 & ->).
  cbn [bind ret].
  destruct (TorchTensor_init _ _ _ _ _ _) as [r0 w2]. now exists r0, w2.
Qed.

Lemma round_to_heads_spec (extent percent num_head : Z) :
  0 < num_head -> 0 <= extent -> 0 <= percent ->
  extent * percent < 100 * 2 ^ 46 ->
  head_share extent percent = inr (extent * percent / 100) /\
  exists q, round_to_heads extent percent num_head = q * num_head /\
            0 <= q * num_head /\
            100 * (q * num_head) <= extent * percent.
Proof.
  intros Hn He Hp Hsmall.
  assert (Hep : 0 <= extent * percent) by nia.
  pose proof (head_share_exact extent percent (conj Hep Hsmall)) as Hshare.
  split; [exact Hshare|].
  unfold round_to_heads. rewrite Hshare.
  set (a := extent * percent / 100).
  assert (Ha : 0 <= a) by (apply Z.div_pos; lia).
  assert (Ha' : 100 * a <= extent * percent) by (apply Z.mul_div_le; lia).
  assert (Hq : 0 <= a / num_head) by (apply Z.div_pos; lia).
  assert (Hq' : num_head * (a / num_head) <= a) by (apply Z.mul_div_le; lia).
  exists (a / num_head). split; [reflexivity|]. split; nia.
Qed.

(** Beyond the range in which the float quotient is exact the share can
    be rounded up: one percent of an axis of 10^18 - 1 columns comes out
    as 10^16 columns. *)
Example head_share_rounds_up : head_share (10 ^ 18 - 1) 1 = inr (10 ^ 16).
Proof. vm_compute. reflexivity. Qed.

(** X8. The split of the key/value cache over GPU, CPU and disk never
    cuts through a group of heads.  With a positive number of heads, an
    axis of fewer than [2 ^ 46] columns (so that the float quotient
    [extent * percent / 100] is exact before [int] truncates it) and
    percentages that are not negative and add up to at most 100 for GPU
    and CPU, every segment length is a non-negative multiple of [n_head],
    the GPU segment is at most its percentage of the axis, and on three
    base devices [init_cache_one_gpu_batch] succeeds and returns two
    different handles for the key and the value cache. *)
Theorem mixed_cache_split_respects_heads
    (c : CacheConfig) (w : World) (d0 d1 d2 : Device) :
  0 < n_head c -> 0 <= gpu_batch_size c ->
  gpu_batch_size c * n_head c < 2 ^ 46 ->
  0 <= cache_gpu_percent c -> 0 <= cache_cpu_percent c ->
  cache_gpu_percent c + cache_cpu_percent c <= 100 ->
  1 <= prompt_len c + gen_len c -> 0 <= input_dim c ->
  is_base d0 = true -> is_base d1 = true -> is_base d2 = true ->
  Forall (fun l => 0 <= l /\ (n_head c | l)) (cache_seg_lengths c) /\
  (exists len_gpu rest,
     cache_seg_lengths c = len_gpu :: rest /\
     100 * len_gpu
     <= gpu_batch_size c * n_head c * cache_gpu_percent c) /\
  exists k_cache v_cache w',
    TorchMixedDevice_init_cache_one_gpu_batch
      (TorchMixedDevice [d0; d1; d2]) w c = inr (k_cache, v_cache, w') /\
    k_cache <> v_cache.
Proof.
  intros Hn Hb Hsmall Hpg Hpc Hsum Hlen Hdim Hd0 Hd1 Hd2.
  set (extent := gpu_batch_size c * n_head c) in *.
  assert (He : 0 <= extent) by (unfold extent; nia).
  assert (Hsg : extent * cache_gpu_percent c < 100 * 2 ^ 46) by nia.
  assert (Hsc : extent * cache_cpu_percent c < 100 * 2 ^ 46) by nia.
  destruct (round_to_heads_spec extent (cache_gpu_percent c) (n_head c)
              Hn He Hpg Hsg) as (Hshare_g & qg & Hg & Hg0 & Hg100).
  destruct (round_to_heads_spec extent (cache_cpu_percent c) (n_head c)
              Hn He Hpc Hsc) as (Hshare_c & qc & Hc & Hc0 & Hc100).
  assert (Hlens : Forall (fun l => 0 <= l /\ (n_head c | l))
                         (cache_seg_lengths c)).
  { unfold cache_seg_lengths. fold extent. rewrite Hg, Hc.
    destruct (cache_disk_percent c =? 0); repeat constructor; try nia.
    - now exists qg.
    - exists (gpu_batch_size c - qg). unfold extent. lia.
    - now exists 0.
    - now exists qg.
    - now exists qc.
    - exists (gpu_batch_size c - qg - qc). unfold extent. lia. }
  split; [exact Hlens|]. split.
  { unfold cache_seg_lengths. fold extent. rewrite Hg.
    destruct (cache_disk_percent c =? 0); eexists _, _;
      (split; [reflexivity | exact Hg100]). }
  assert (Hvalid : valid_shape (cache_shape c) = true).
  { apply valid_shape_Forall. unfold cache_shape. fold extent.
    repeat constructor; try lia. apply Z.div_pos; lia. }
  assert (Hnonneg : Forall (fun l => 0 <= l) (cache_seg_lengths c)).
  { eapply Forall_impl; [exact Hlens|]. now intros l [H _]. }
  assert (Hbase : Forall (fun d => is_base d = true) [d0; d1; d2])
    by (repeat constructor; assumption).
  assert (Hext : cache_shape c !! SEG_DIM = Some (py_sum (cache_seg_lengths c)))
    by (rewrite cache_seg_lengths_sum; reflexivity).
  assert (Hlen3 : length (cache_seg_lengths c) = length [d0; d1; d2]).
  { unfold cache_seg_lengths. destruct (cache_disk_percent c =? 0); reflexivity. }
  unfold TorchMixedDevice_init_cache_one_gpu_batch.
  replace (n_head c =? 0) with false by (symmetry; apply Z.eqb_neq; lia).
  cbn [bind ret]. fold extent. rewrite Hshare_g. cbn [bind].
  replace (bind (if cache_disk_percent c =? 0 then ret 0
                 else head_share extent (cache_cpu_percent c)))
    with (fun k : Z -> result (ref * ref * World) =>
            k (if cache_disk_percent c =? 0 then 0
               else extent * cache_cpu_percent c / 100))
    by (destruct (cache_disk_percent c =? 0);
        [reflexivity | rewrite Hshare_c; reflexivity]).
  cbv beta.
  destruct (mixed_allocate_total [d0; d1; d2] w (cache_shape c) np_float16
              (cache_seg_lengths c) (Some false) None
              Hbase Hvalid Hext Hnonneg Hlen3) as (k & wk & Hk).
  destruct (mixed_allocate_total [d0; d1; d2] wk (cache_shape c) np_float16
              (cache_seg_lengths c) (Some false) None
              Hbase Hvalid Hext Hnonneg Hlen3) as (v & wv & Hv).
  rewrite Hk. cbn [bind]. rewrite Hv. cbn [bind].
  exists k, v, wv. split; [reflexivity|].
  apply mixed_allocate_inv in Hk as (news_k & tk & _ & Hobj_k & -> & _).
  apply mixed_allocate_inv in Hv as (news_v & tv & _ & Hobj_v & -> & _).
  rewrite Hobj_k, !length_app. simpl. lia.
Qed.

(** With four heads and an axis of extent 20, a 33/33/34 policy gives
    one group of heads to the GPU, one to the CPU and three to the disk. *)
Lemma mixed_cache_split_respects_heads_witness :
  cache_seg_lengths cache_example = [4; 4; 12] /\
  exists k_cache v_cache w',
    TorchMixedDevice_init_cache_one_gpu_batch mixed empty_world cache_example
    = inr (k_cache, v_cache, w') /\
    k_cache <> v_cache.
Proof.
  split; [reflexivity |].
  exact (proj2 (proj2 (mixed_cache_split_respects_heads cache_example
                         empty_world gpu cpu disk
                         ltac:(simpl; lia) ltac:(simpl; lia)
                         ltac:(vm_compute; reflexivity)
                         ltac:(simpl; lia) ltac:(simpl; lia) ltac:(simpl; lia)
                         ltac:(simpl; lia) ltac:(simpl; lia)
                         eq_refl eq_refl eq_refl))).
Defined.

Lemma cache_shape_valid (c : CacheConfig) :
  0 < n_head c -> 0 <= gpu_batch_size c ->
  1 <= prompt_len c + gen_len c -> 0 <= input_dim c ->
  valid_shape (cache_shape c) = true.
Proof.
  intros Hn Hb Hlen Hdim. apply valid_shape_Forall. unfold cache_shape.
  repeat constructor; try lia; try nia. apply Z.div_pos; lia.
Qed.

(** X15. The cache of a CPU device is not pinned, so filling it from the
    GPU goes through the disk's worker.  After
    [TorchDevice.init_cache_one_gpu_batch] on the CPU, a [general_copy]
    from a GPU tensor of more than one row into the key or the value
    cache, with any indices, is not carried out by the call: it is put
    on the queue of the global disk device without any shape check, and
    it fails with AttributeError when there is no disk device. *)
Theorem cpu_cache_is_filled_through_the_disk_queue
    (cpu_name gpu_name : string) (w w' : World) (c : CacheConfig)
    (k_cache v_cache s : ref) (tsrc : TorchTensor) (rows : Z)
    (rest : list Z) (gdd : option Device) (depth : nat)
    (di si : option (list slice)) (cache : ref) :
  TorchDevice_init_cache_one_gpu_batch (TorchDevice cpu_name false) w c
  = inr (k_cache, v_cache, w') ->
  objects w !! s = Some tsrc ->
  device tsrc = Some (TorchDevice gpu_name true) ->
  shape tsrc = rows :: rest -> 1 < rows ->
  cache = k_cache \/ cache = v_cache ->
  general_copy (S depth) w' gdd (CopyArgs cache di s si)
  = match gdd with
    | Some d => ([SubmitCopy d (CopyArgs cache di s si)], inr tt)
    | None => ([], inl AttributeError)
    end.
Proof.
  intros Hinit Hs Hsdev Hsshape Hrows Hcache.
  unfold TorchDevice_init_cache_one_gpu_batch in Hinit.
  destruct (n_head c =? 0); [discriminate|]. cbn [bind ret] in Hinit.
  unfold TorchDevice_allocate in Hinit.
  destruct (valid_shape (cache_shape c)); [|discriminate].
  cbn [bind ret device_type] in Hinit.
  unfold TorchTensor_init, name_or_next, next_name, new_tensor in Hinit.
  cbn [objects files name_count bind ret] in Hinit.
  injection Hinit as <- <- <-.
  set (tk := mkTorchTensor _ _ _ _ _ _).
  set (tv := mkTorchTensor _ _ _ _ _ _).
  set (w' := mkWorld _ _ _).
  assert (Hcache' : exists tc, get_tensor w' cache = inr tc /\
                               device tc = Some (TorchDevice cpu_name false) /\
                               data tc = Primitive false).
  { destruct Hcache as [-> | ->].
    - exists tk. split; [|split; reflexivity].
      apply get_tensor_lookup. unfold w'. cbn [objects].
      apply lookup_app_l_Some, list_lookup_middle. reflexivity.
    - exists tv. split; [|split; reflexivity].
      apply get_tensor_lookup. unfold w'. cbn [objects].
      apply list_lookup_middle. reflexivity. }
  destruct Hcache' as (tc & Htc & Htcdev & Htcdata).
  assert (Hsrc : get_tensor w' s = inr tsrc).
  { apply get_tensor_lookup. unfold w'. cbn [objects].
    now apply lookup_app_l_Some, lookup_app_l_Some. }
  rewrite (general_copy_flat depth w' gdd _ tc tsrc
             (TorchDevice cpu_name false) (TorchDevice gpu_name true));
    [| exact Htc | exact Htcdev | discriminate
     | exact Hsrc | exact Hsdev | discriminate ].
  unfold general_copy_leaf, relay_condition, is_pinned, py_getitem.
  cbn [device_type]. rewrite Htcdata, Hsshape.
  change (DeviceType_eqb CUDA COMPRESSED) with false.
  change (DeviceType_eqb CPU COMPRESSED) with false.
  change (DeviceType_eqb CUDA DISK) with false.
  change (DeviceType_eqb CPU DISK) with false.
  change (DeviceType_eqb CUDA CUDA) with true.
  change (DeviceType_eqb CPU CPU) with true.
  cbn [orb negb bind ret lookup list_lookup].
  replace (1 <? rows) with true by (symmetry; apply Z.ltb_lt; lia).
  rewrite tbind_lift_ret. destruct gdd; reflexivity.
Qed.

(** The CPU cache allocated next to the GPU tensor of [relay_world]:
    filling the key cache is queued on the disk, and filling the value
    cache fails when no disk device exists. *)
Lemma cpu_cache_is_filled_through_the_disk_queue_witness :
  exists k_cache v_cache w',
    TorchDevice_init_cache_one_gpu_batch cpu relay_world cache_example
    = inr (k_cache, v_cache, w') /\
    general_copy 1 w' (Some disk) (CopyArgs k_cache None 0%nat None)
    = ([SubmitCopy disk (CopyArgs k_cache None 0%nat None)], inr tt) /\
    general_copy 1 w' None (CopyArgs v_cache None 0%nat None)
    = ([], inl AttributeError).
Proof.
  destruct (TorchDevice_init_cache_one_gpu_batch cpu relay_world cache_example)
    as [e | [[k_cache v_cache] w']] eqn:Hinit;
    [vm_compute in Hinit; discriminate |].
  exists k_cache, v_cache, w'. split; [reflexivity |]. split.
  - exact (cpu_cache_is_filled_through_the_disk_queue "cpu" "cuda:0"
             relay_world w' cache_example k_cache v_cache 0%nat _ 10 [4]
             (Some disk) 0 None None k_cache Hinit eq_refl eq_refl eq_refl
             ltac:(lia) (or_introl eq_refl)).
  - exact (cpu_cache_is_filled_through_the_disk_queue "cpu" "cuda:0"
             relay_world w' cache_example k_cache v_cache 0%nat _ 10 [4]
             None 0 None None v_cache Hinit eq_refl eq_refl eq_refl
             ltac:(lia) (or_intror eq_refl)).
Defined.

(** X16. On a disk the key and the value cache get files of their own.
    For a valid cache shape [TorchDisk.init_cache_one_gpu_batch]
    succeeds and returns two different handles whose backing files have
    different paths; both files exist afterwards with the shape of the
    cache. *)
Theorem disk_cache_files_are_distinct
    (dir : string) (w : World) (c : CacheConfig) :
  0 < n_head c -> 0 <= gpu_batch_size c ->
  1 <= prompt_len c + gen_len c -> 0 <= input_dim c ->
  exists k_cache v_cache w' tk tv path_k path_v,
    TorchDisk_init_cache_one_gpu_batch (TorchDisk dir) w c
    = inr (k_cache, v_cache, w') /\
    k_cache <> v_cache /\
    objects w' !! k_cache = Some tk /\ data tk = Filename path_k /\
    objects w' !! v_cache = Some tv /\ data tv = Filename path_v /\
    path_k <> path_v /\
    files w' !! path_k = Some (cache_shape c) /\
    files w' !! path_v = Some (cache_shape c).
Proof.
  intros Hn Hb Hlen Hdim.
  pose proof (cache_shape_valid c Hn Hb Hlen Hdim) as Hvalid.
  unfold TorchDisk_init_cache_one_gpu_batch.
  replace (n_head c =? 0) with false by (symmetry; apply Z.eqb_neq; lia).
  cbn [bind ret].
  unfold TorchDisk_allocate. cbn [name_or_next next_name]. rewrite Hvalid.
  unfold TorchTensor_init. cbn [name_or_next next_name new_tensor bind ret
                                objects files name_count].
  cbn [bind ret objects files name_count].
  set (path_k := path_join dir ("t_" +:+ pretty (name_count w))).
  set (path_v := path_join dir ("t_" +:+ pretty (S (name_count w)))).
  assert (Hpaths : path_k <> path_v).
  { unfold path_k, path_v, path_join. intros E.
    apply String.app_inj in E. apply String.app_inj in E.
    apply String.app_inj in E. apply pretty_nat_inj in E. lia. }
  eexists _, _, _, _, _, path_k, path_v.
  split; [reflexivity|]. cbn [objects files].
  split; [rewrite length_app; simpl; lia|].
  split; [apply lookup_app_l_Some, list_lookup_middle; reflexivity|].
  split; [reflexivity|].
  split; [apply list_lookup_middle; reflexivity|].
  split; [reflexivity|].
  split; [exact Hpaths|].
  split.
  - rewrite lookup_insert_ne by (intros E; now apply Hpaths).
    apply lookup_insert_eq.
  - apply lookup_insert_eq.
Qed.

(** The two cache files of the example configuration on the disk
    [/offload]. *)
Lemma disk_cache_files_are_distinct_witness :
  exists k_cache v_cache w',
    TorchDisk_init_cache_one_gpu_batch disk empty_world cache_example
    = inr (k_cache, v_cache, w') /\
    files w' !! "/offload/t_0" = Some [10; 20; 4] /\
    files w' !! "/offload/t_1" = Some [10; 20; 4].
Proof.
  destruct (disk_cache_files_are_distinct "/offload" empty_world cache_example
              ltac:(simpl; lia) ltac:(simpl; lia) ltac:(simpl; lia)
              ltac:(simpl; lia))
    as (k_cache & v_cache & w' & tk & tv & path_k & path_v & Hinit & _).
  exists k_cache, v_cache, w'. split; [exact Hinit |].
  vm_compute in Hinit. injection Hinit as _ _ <-.
  split; reflexivity.
Defined.

(** ** The attention workspace of a CPU device *)

Lemma TorchDevice_allocate_spec self w shape_ dtype_ pin name_ r w' :
  TorchDevice_allocate self w shape_ dtype_ pin name_ = inr (r, w') ->
  r = length (objects w) /\ length (objects w') = S (length (objects w)).
Proof.
  unfold TorchDevice_allocate. destruct (valid_shape shape_); [|discriminate].
  unfold ret. intros [= H]. apply TorchTensor_init_spec in H
    as (-> & _ & n & ->).
  split; [reflexivity|]. rewrite length_app. simpl. lia.
Qed.

Lemma workspace_pairs_S (base rounds : nat) :
  workspace_pairs base (S rounds)
  = (base, S base) :: workspace_pairs (S (S base)) rounds.
Proof.
  unfold workspace_pairs. cbn [seq map]. f_equal; [f_equal; lia|].
  rewrite <- seq_shift, map_map. apply map_ext. intros i. f_equal; lia.
Qed.

Lemma workspace_loop_spec self rounds shape_ pairs w pairs' w' :
  workspace_loop self rounds shape_ pairs w = (pairs', w', inr tt) ->
  pairs' = pairs ++ workspace_pairs (length (objects w)) rounds.
Proof.
  revert pairs w. induction rounds as [|rounds IH]; intros pairs w.
  - simpl. intros [= <- <-]. unfold workspace_pairs. simpl.
    now rewrite app_nil_r.
  - cbn [workspace_loop].
    destruct (TorchDevice_allocate self w shape_ np_float32 (Some false) None)
      as [|[k w1]] eqn:Ek; [discriminate|].
    destruct (TorchDevice_allocate self w1 shape_ np_float32 (Some false) None)
      as [|[v w2]] eqn:Ev; [discriminate|].
    apply TorchDevice_allocate_spec in Ek as (-> & Hk).
    apply TorchDevice_allocate_spec in Ev as (-> & Hv).
    intros H. apply IH in H. rewrite H, Hv, Hk, workspace_pairs_S.
    rewrite <- app_assoc. reflexivity.
Qed.

Lemma after_calls_ring (pairs : list (ref * ref)) (calls : nat) :
  pairs <> [] ->
  after_calls calls (mkWorkspace (Some pairs) 0)
  = mkWorkspace (Some pairs) (Z.of_nat (calls mod length pairs)).
Proof.
  intros Hne. assert (Hlen : length pairs <> 0%nat)
    by (destruct pairs; [contradiction | discriminate]).
  induction calls as [|calls IH].
  - simpl. now rewrite Nat.Div0.mod_0_l.
  - change (after_calls (S calls) ?st)
      with (fst (next_attention_compute_workspace (after_calls calls st))).
    rewrite IH. unfold next_attention_compute_workspace.
    cbn [attention_compute_workspace workspace_pt].
    replace (Z.of_nat (length pairs) =? 0) with false
      by (symmetry; apply Z.eqb_neq; lia).
    cbn [fst]. f_equal.
    rewrite !Nat2Z.inj_mod, Nat2Z.inj_succ.
    rewrite <- Z.add_1_r. now rewrite Zplus_mod_idemp_l.
Qed.

Lemma workspace_pairs_length (base rounds : nat) :
  length (workspace_pairs base rounds) = rounds.
Proof. unfold workspace_pairs. now rewrite length_map, length_seq. Qed.

(** X9. The attention workspace of a CPU device is a ring.  After a
    successful [init_attention_compute_workspace] without cache
    compression the device holds one pair of buffers if [sep_layer] is
    set and two pairs otherwise, made of fresh, consecutive handles, and
    the pointer is 0.  From then on the [j]-th call of
    [next_attention_compute_workspace] returns pair number [j mod rounds]:
    always the same pair with [sep_layer], and otherwise the two pairs in
    turn, the first call returning the second pair. *)
Theorem workspace_is_a_ring
    (compressed_init_workspace :
       Workspace -> World -> CacheConfig -> Workspace * World * result unit)
    (self : Device) (st st' : Workspace) (w w' : World) (c : CacheConfig)
    (sep_layer : bool) :
  device_type self = CPU ->
  init_attention_compute_workspace compressed_init_workspace self st w c
                                   false sep_layer = (st', w', inr tt) ->
  let rounds := if sep_layer then 1%nat else 2%nat in
  let pairs := workspace_pairs (length (objects w)) rounds in
  st' = mkWorkspace (Some pairs) 0 /\
  forall calls : nat,
    exists p,
      pairs !! (S calls mod rounds)%nat = Some p /\
      next_attention_compute_workspace (after_calls calls st')
      = (after_calls (S calls) st', inr p).
Proof.
  intros Hcpu Hinit rounds pairs.
  unfold init_attention_compute_workspace in Hinit. rewrite Hcpu in Hinit.
  change (negb (DeviceType_eqb CPU CPU)) with false in Hinit.
  cbn [negb] in Hinit.
  destruct (n_head c =? 0); [discriminate|].
  destruct (workspace_loop _ _ _ _ _) as [[pairs' w1] r] eqn:Hloop.
  injection Hinit as <- <- ->.
  apply workspace_loop_spec in Hloop. simpl app in Hloop. subst pairs'.
  fold rounds. fold pairs. split; [reflexivity|].
  assert (Hlen : length pairs = rounds) by apply workspace_pairs_length.
  assert (Hrounds : rounds <> 0%nat) by (unfold rounds; destruct sep_layer; lia).
  assert (Hne : pairs <> []).
  { intros E. rewrite E in Hlen. simpl in Hlen. lia. }
  intros calls.
  assert (Hidx : (S calls mod rounds < length pairs)%nat).
  { rewrite Hlen. now apply Nat.mod_upper_bound. }
  destruct (lookup_lt_is_Some_2 _ _ Hidx) as [p Hp].
  exists p. split; [exact Hp|].
  rewrite !(after_calls_ring pairs _ Hne), Hlen.
  unfold next_attention_compute_workspace.
  cbn [attention_compute_workspace workspace_pt].
  replace (Z.of_nat (length pairs) =? 0) with false
    by (symmetry; apply Z.eqb_neq; lia).
  assert (Hpt : (Z.of_nat (calls mod rounds) + 1) mod Z.of_nat (length pairs)
                = Z.of_nat (S calls mod rounds)).
  { rewrite Hlen, !Nat2Z.inj_mod, Nat2Z.inj_succ, <- Z.add_1_r.
    now rewrite Zplus_mod_idemp_l. }
  rewrite Hpt, Nat2Z.id. unfold py_getitem. rewrite Hp. reflexivity.
Qed.

(** On the CPU, without [sep_layer]: the handles of the two pairs, and
    the pair the first call returns. *)
Lemma workspace_is_a_ring_witness :
  exists st' w',
    init_attention_compute_workspace
      (fun st w _ => (st, w, inr tt)) cpu no_workspace empty_world
      cache_example false false = (st', w', inr tt) /\
    attention_compute_workspace st'
    = Some [(0%nat, 1%nat); (2%nat, 3%nat)] /\
    snd (next_attention_compute_workspace st') = inr (2%nat, 3%nat).
Proof.
  destruct (init_attention_compute_workspace
              (fun st w _ => (st, w, inr tt)) cpu no_workspace empty_world
              cache_example false false) as [[st' w'] r] eqn:Hinit.
  assert (Hr : r = inr tt).
  { vm_compute in Hinit. now injection Hinit as _ _ <-. }
  subst r. exists st', w'. split; [reflexivity|].
  destruct (workspace_is_a_ring _ cpu no_workspace st' empty_world w'
              cache_example false eq_refl Hinit) as [Hst Hnext].
  split; [rewrite Hst; reflexivity|].
  destruct (Hnext 0%nat) as (p & Hp & Hcall).
  vm_compute in Hp. injection Hp as <-.
  change (after_calls 0 st') with st' in Hcall. rewrite Hcall. reflexivity.
Defined.

(** ** One worker serves the queue in order *)

Lemma serve_run (i : nat) (tasks : list copy_args)
    (rest : list (option copy_args)) (s : System) :
  copy_threads s !! i = Some Waiting ->
  items (copy_queue s) = map Some tasks ++ rest ->
  Z.of_nat (length tasks) <= unfinished_tasks (copy_queue s) ->
  Forall (fun t => copy_task (world s) t = inr tt) tasks ->
  execute s (serve i tasks) = Some (served s tasks rest).
Proof.
  revert s. induction tasks as [|t tasks IH]; intros s Hi Hitems Hcount Hok.
  - simpl. unfold served. simpl. rewrite app_nil_r, Z.sub_0_r.
    destruct s as [w [its u] ths c sub p b]. simpl in *. now rewrite Hitems.
  - apply Forall_cons in Hok as [Ht Hok].
    change (serve i (t :: tasks)) with (Work i :: Work i :: serve i tasks).
    cbn [execute perform]. unfold worker_step at 1. rewrite Hi, Hitems.
    cbn [map app].
    set (s1 := with_thread _ i (Holding (Some t))).
    assert (Hi1 : copy_threads s1 !! i = Some (Holding (Some t))).
    { unfold s1. simpl. apply list_lookup_insert_eq.
      eapply lookup_lt_Some, Hi. }
    unfold worker_step. rewrite Hi1.
    change (world s1) with (world s). rewrite Ht.
    unfold task_done. cbn [copy_queue s1 with_thread with_queue
                           unfinished_tasks items].
    cbn [length] in Hcount. rewrite Nat2Z.inj_succ in Hcount.
    replace (unfinished_tasks (copy_queue s) - 1 <? 0) with false
      by (symmetry; apply Z.ltb_ge; lia).
    cbn [ret world copy_queue copy_threads completed submitted device_pending
         device_barriers with_thread with_queue].
    subst s1.
    cbn [world copy_queue copy_threads completed submitted device_pending
         device_barriers with_thread with_queue].
    rewrite list_insert_insert_eq, (list_insert_id _ _ _ Hi).
    rewrite IH; cbn [world copy_queue copy_threads items unfinished_tasks];
      try assumption; try reflexivity; try lia.
    unfold served. cbn [world copy_queue copy_threads completed submitted
                        device_pending device_barriers unfinished_tasks length].
    rewrite <- app_assoc. do 3 f_equal. lia.
Qed.

(** X10. One live worker is enough, and it serves the queue in order.  In
    any state the backend can reach in which worker [i] is waiting and the
    queue holds tasks whose copies all succeed, the run in which worker
    [i] alone takes and carries out one task after the other goes
    through: the tasks are recorded as completed in the order they were
    queued, the queue is empty, and the counter has gone down by their
    number.  If no other worker has an item in hand,
    [TorchDisk.synchronize()] returns after that run. *)
Theorem single_worker_serves_in_order
    (w : World) (num_copy_threads : nat) (trace : list action) (s : System)
    (i : nat) (tasks : list copy_args) :
  execute (TorchDisk_init w num_copy_threads) trace = Some s ->
  copy_threads s !! i = Some Waiting ->
  items (copy_queue s) = map Some tasks ->
  Forall (fun t => copy_task (world s) t = inr tt) tasks ->
  execute s (serve i tasks) = Some (served s tasks []) /\
  completed (served s tasks []) = completed s ++ tasks /\
  (count_threads in_hand (copy_threads s) = 0 ->
   TorchDisk_synchronize (served s tasks []) = Some (served s tasks [])).
Proof.
  intros Hreach Hi Hitems Hok.
  destruct (reachable_invariant _ _ _ _ Hreach) as [Hcount _].
  rewrite Hitems, length_map in Hcount.
  pose proof (count_threads_nonneg in_hand (copy_threads s)) as Hnonneg.
  split; [|split].
  - apply serve_run; try assumption.
    + now rewrite app_nil_r.
    + lia.
  - reflexivity.
  - intros Hnone. unfold TorchDisk_synchronize, served.
    cbn [copy_queue unfinished_tasks].
    replace (unfinished_tasks (copy_queue s) - Z.of_nat (length tasks) =? 0)
      with true by (symmetry; apply Z.eqb_eq; lia).
    reflexivity.
Qed.

(** Two tasks are submitted to a disk with four workers; worker 1 alone
    carries them out in order, and [synchronize()] returns. *)
Lemma single_worker_serves_in_order_witness :
  exists s s',
    execute (TorchDisk_init copy_world 4)
            [CallSubmitCopy good_copy; CallSubmitCopy good_copy] = Some s /\
    execute s [Work 1; Work 1; Work 1; Work 1] = Some s' /\
    completed s' = [good_copy; good_copy] /\
    TorchDisk_synchronize s' = Some s'.
Proof.
  destruct (execute (TorchDisk_init copy_world 4)
              [CallSubmitCopy good_copy; CallSubmitCopy good_copy])
    as [s |] eqn:Hexec; [| vm_compute in Hexec; discriminate].
  assert (Hs : s = submit_copy (submit_copy (TorchDisk_init copy_world 4)
                                            good_copy) good_copy)
    by (cbn in Hexec; now injection Hexec as <-).
  destruct (single_worker_serves_in_order copy_world 4 _ s 1
              [good_copy; good_copy] Hexec) as (Hrun & Hdone & Hsync).
  - rewrite Hs. reflexivity.
  - rewrite Hs. reflexivity.
  - rewrite Hs. repeat constructor.
  - exists s, (served s [good_copy; good_copy] []).
    split; [reflexivity |]. split; [exact Hrun |].
    split; [rewrite Hdone, Hs; reflexivity |].
    apply Hsync. rewrite Hs. reflexivity.
Defined.

(** ** Shutting the copy workers down *)

Lemma put_sentinels_queue (threads : list Thread) (q : Queue) :
  foldl (fun q _ => put_nowait q None) q threads
  = mkQueue (items q ++ replicate (length threads) None)
            (unfinished_tasks q + Z.of_nat (length threads)).
Proof.
  revert q. induction threads as [|t threads IH]; intros q.
  - simpl. rewrite app_nil_r, Z.add_0_r. now destruct q.
  - cbn [foldl]. rewrite IH. unfold put_nowait. cbn [items unfinished_tasks].
    rewrite <- app_assoc. cbn [length replicate app]. f_equal. lia.
Qed.

Lemma count_threads_replicate_true p (n : nat) t :
  p t = true -> count_threads p (replicate n t) = Z.of_nat n.
Proof.
  intros Hp. induction n as [|n IH]; [reflexivity|].
  cbn [replicate count_threads]. rewrite Hp, IH. simpl b2z. lia.
Qed.

Lemma shutdown_starts (s : System) (n : nat) :
  copy_threads s = replicate n Waiting ->
  items (copy_queue s) = [] ->
  unfinished_tasks (copy_queue s) = 0 ->
  shutting_down (put_sentinels s) /\
  shutdown_steps_left (put_sentinels s) = 2 * Z.of_nat n.
Proof.
  intros Hthreads Hitems Hcount.
  unfold shutting_down, shutdown_steps_left, put_sentinels.
  rewrite put_sentinels_queue.
  cbn [with_queue copy_threads copy_queue items unfinished_tasks].
  rewrite Hthreads, Hitems, Hcount, length_replicate.
  rewrite (count_threads_replicate_true is_waiting) by reflexivity.
  rewrite (count_threads_replicate holds_sentinel) by reflexivity.
  rewrite Nat2Z.id. repeat split; try lia.
  apply Forall_replicate. now left.
Qed.

Lemma count_threads_positive p threads :
  0 < count_threads p threads ->
  exists (i : nat) t, threads !! i = Some t /\ p t = true.
Proof.
  induction threads as [|t threads IH]; simpl; [lia|].
  destruct (p t) eqn:Ept.
  - intros _. now exists 0%nat, t.
  - simpl. intros H. destruct (IH ltac:(lia)) as (i & t' & Hi & Hp).
    now exists (S i), t'.
Qed.

Lemma shutdown_step (s s' : System) (i : nat) :
  shutting_down s -> worker_step s i = Some s' ->
  shutting_down s' /\ shutdown_steps_left s' = shutdown_steps_left s - 1.
Proof.
  intros (Hkinds & Hitems & Hcount) Hstep.
  unfold worker_step in Hstep.
  destruct (copy_threads s !! i) as [t|] eqn:Hi; [|discriminate].
  pose proof (count_threads_lookup is_waiting _ _ _ Hi) as Hw.
  pose proof (count_threads_lookup holds_sentinel _ _ _ Hi) as Hh.
  pose proof (count_threads_nonneg is_waiting (copy_threads s)) as Hw0.
  pose proof (count_threads_nonneg holds_sentinel (copy_threads s)) as Hh0.
  rewrite Forall_forall in Hkinds.
  destruct (Hkinds t (list_elem_of_lookup_2 _ _ _ Hi)) as [-> | [-> | ->]];
    [| | discriminate].
  - simpl in Hw.
    destruct (Z.to_nat (count_threads is_waiting (copy_threads s)))
      as [|k] eqn:Ek; [lia|].
    rewrite Hitems in Hstep. cbn [replicate] in Hstep.
    injection Hstep as <-.
    unfold shutting_down, shutdown_steps_left.
    cbn [with_thread with_queue copy_threads copy_queue items unfinished_tasks].
    rewrite !(count_threads_insert _ _ _ _ _ Hi). simpl b2z.
    split; [split; [|split]|]; try lia.
    + apply Forall_insert; [now apply Forall_forall | now right; left].
    + f_equal. lia.
  - simpl in Hh. unfold task_done in Hstep.
    replace (unfinished_tasks (copy_queue s) - 1 <? 0) with false in Hstep
      by (symmetry; apply Z.ltb_ge; lia).
    injection Hstep as <-.
    unfold shutting_down, shutdown_steps_left.
    cbn [with_thread with_queue copy_threads copy_queue items unfinished_tasks].
    rewrite !(count_threads_insert _ _ _ _ _ Hi). simpl b2z.
    split; [split; [|split]|]; try lia.
    + apply Forall_insert; [now apply Forall_forall | now right; right].
    + rewrite Hitems. f_equal. lia.
Qed.

Lemma shutdown_run (schedule : list nat) (s s' : System) :
  shutting_down s -> execute s (map Work schedule) = Some s' ->
  shutting_down s' /\
  shutdown_steps_left s'
  = shutdown_steps_left s - Z.of_nat (length schedule).
Proof.
  revert s. induction schedule as [|i schedule IH]; intros s Hs Hrun.
  - simpl in Hrun. injection Hrun as <-. split; [exact Hs | simpl; lia].
  - cbn [map execute perform] in Hrun.
    destruct (worker_step s i) as [s1|] eqn:Hstep; [|discriminate].
    destruct (shutdown_step _ _ _ Hs Hstep) as [Hs1 Hleft1].
    destruct (IH _ Hs1 Hrun) as [Hs' Hleft'].
    split; [exact Hs'|]. rewrite Hleft', Hleft1. cbn [length]. lia.
Qed.

Lemma shutdown_progress (s : System) :
  shutting_down s -> 0 < shutdown_steps_left s ->
  close_copy_threads_returns s = false /\
  exists i s', worker_step s i = Some s'.
Proof.
  intros (Hkinds & Hitems & Hcount) Hleft. unfold shutdown_steps_left in Hleft.
  pose proof (count_threads_nonneg is_waiting (copy_threads s)) as Hw0.
  pose proof (count_threads_nonneg holds_sentinel (copy_threads s)) as Hh0.
  split.
  - unfold close_copy_threads_returns.
    replace (unfinished_tasks (copy_queue s) =? 0) with false
      by (symmetry; apply Z.eqb_neq; lia).
    apply andb_false_r.
  - destruct (Z.ltb_spec 0 (count_threads is_waiting (copy_threads s)))
      as [Hw|Hw].
    + destruct (count_threads_positive _ _ Hw) as (i & t & Hi & Ht).
      destruct t as [| | |]; try discriminate.
      exists i. unfold worker_step. rewrite Hi, Hitems.
      destruct (Z.to_nat _) as [|k] eqn:Ek; [lia|]. cbn [replicate].
      eexists. reflexivity.
    + destruct (count_threads_positive holds_sentinel (copy_threads s)
                  ltac:(lia)) as (i & t & Hi & Ht).
      destruct t as [|[item|] | |]; try discriminate.
      exists i. unfold worker_step. rewrite Hi.
      destruct (task_done (copy_queue s)); eexists; reflexivity.
Qed.

Lemma shutdown_done (s : System) :
  shutting_down s -> shutdown_steps_left s = 0 ->
  close_copy_threads_returns s = true /\
  Forall (fun t => t = Returned) (copy_threads s) /\
  items (copy_queue s) = [].
Proof.
  intros (Hkinds & Hitems & Hcount) Hleft. unfold shutdown_steps_left in Hleft.
  pose proof (count_threads_nonneg is_waiting (copy_threads s)) as Hw0.
  pose proof (count_threads_nonneg holds_sentinel (copy_threads s)) as Hh0.
  assert (Hw : count_threads is_waiting (copy_threads s) = 0) by lia.
  assert (Hh : count_threads holds_sentinel (copy_threads s) = 0) by lia.
  assert (Hall : Forall (fun t => t = Returned) (copy_threads s)).
  { apply count_threads_zero in Hw, Hh.
    rewrite Forall_forall in Hkinds, Hw, Hh. apply Forall_forall.
    intros t Ht. specialize (Hw t Ht). specialize (Hh t Ht).
    destruct (Hkinds t Ht) as [-> | [-> | ->]];
      [discriminate | discriminate | reflexivity]. }
  split; [|split].
  - unfold close_copy_threads_returns. rewrite Hcount, Hw, Hh.
    rewrite andb_true_r. apply forallb_forall. intros t Ht.
    rewrite Forall_forall in Hall.
    now rewrite (Hall t (proj2 (list_elem_of_In _ _) Ht)).
  - exact Hall.
  - rewrite Hitems, Hw. reflexivity.
Qed.

(** X11. [close_copy_threads] shuts idle workers down under every
    scheduling.  Start from a state in which all [n] workers wait on an
    empty queue with no task unfinished, and put the sentinels.  Then
    every run of worker steps has at most [2 * n] steps.  Before that
    number is reached some worker can always take a step and the joins of
    [close_copy_threads] still block; once it is reached every worker has
    returned, the queue is empty, and the joins return. *)
Theorem close_copy_threads_shuts_down
    (s s' : System) (n : nat) (schedule : list nat) :
  copy_threads s = replicate n Waiting ->
  items (copy_queue s) = [] ->
  unfinished_tasks (copy_queue s) = 0 ->
  execute (put_sentinels s) (map Work schedule) = Some s' ->
  (length schedule <= 2 * n)%nat /\
  (if (length schedule =? 2 * n)%nat
   then close_copy_threads_returns s' = true /\
        Forall (fun t => t = Returned) (copy_threads s') /\
        items (copy_queue s') = []
   else close_copy_threads_returns s' = false /\
        exists i s'', worker_step s' i = Some s'').
Proof.
  intros Hthreads Hitems Hcount Hrun.
  destruct (shutdown_starts s n Hthreads Hitems Hcount) as [Hstart Hleft].
  destruct (shutdown_run _ _ _ Hstart Hrun) as [Hs' Hleft'].
  rewrite Hleft in Hleft'.
  assert (Hnonneg : 0 <= shutdown_steps_left s').
  { unfold shutdown_steps_left.
    pose proof (count_threads_nonneg is_waiting (copy_threads s')).
    pose proof (count_threads_nonneg holds_sentinel (copy_threads s')).
    lia. }
  split; [lia|].
  destruct (Nat.eqb_spec (length schedule) (2 * n)) as [E|E].
  - apply shutdown_done; [exact Hs' | lia].
  - apply shutdown_progress; [exact Hs' | lia].
Qed.

(** Two idle workers: whichever order they take their sentinels in, after
    four steps both have returned and the joins return. *)
Lemma close_copy_threads_shuts_down_witness :
  exists s',
    execute (put_sentinels (TorchDisk_init empty_world 2))
            [Work 1; Work 0; Work 0; Work 1] = Some s' /\
    close_copy_threads_returns s' = true /\
    copy_threads s' = [Returned; Returned].
Proof.
  destruct (execute (put_sentinels (TorchDisk_init empty_world 2))
              (map Work [1; 0; 0; 1]%nat)) as [s' |] eqn:Hrun;
    [| vm_compute in Hrun; discriminate].
  destruct (close_copy_threads_shuts_down (TorchDisk_init empty_world 2) s' 2
              [1; 0; 0; 1]%nat eq_refl eq_refl eq_refl Hrun)
    as (_ & Hret & _ & _).
  exists s'. split; [exact Hrun |]. split; [exact Hret |].
  vm_compute in Hrun. now injection Hrun as <-.
Defined.

(** ** Loading a tensor from a numpy array *)

(** X14. Loading into a disk tensor checks no shape.  [load_from_np] on
    a live disk tensor succeeds for an array of any shape and only
    rewrites the tensor's file, and [load_from_np_file] does the same
    with the contents of an existing file.  From then on a worker reads
    the tensor with the shape of the array, not the shape of the handle:
    a queued copy of the whole tensor into a CPU tensor succeeds exactly
    when the array's shape broadcasts to the target's. *)
Theorem disk_load_defers_shape_check
    (compressed_load : World -> ref -> list Z -> result World)
    (w : World) (r : ref) (t : TorchTensor) (dir path : string)
    (np_array : list Z) :
  objects w !! r = Some t ->
  device t = Some (TorchDisk dir) ->
  data t = Filename path ->
  let w' := mkWorld (objects w) (<[path := np_array]> (files w))
                    (name_count w) in
  TorchTensor_load_from_np compressed_load w r np_array = inr w' /\
  (forall filename,
     files w !! filename = Some np_array ->
     TorchTensor_load_from_np_file compressed_load w r filename = inr w') /\
  map_to_torch_tensor w' r None = inr np_array /\
  forall (d : ref) (td : TorchTensor) (cpu_name : string) (pinned : bool),
    objects w !! d = Some td ->
    device td = Some (TorchDevice cpu_name false) ->
    data td = Primitive pinned ->
    copy_task w' (CopyArgs d None r None) = copy_ (shape td) np_array.
Proof.
  intros Ht Hdev Hdata w'.
  assert (Hread : map_to_torch_tensor w' r None = inr np_array).
  { unfold map_to_torch_tensor.
    change (get_tensor w' r) with (get_tensor w r).
    rewrite (get_tensor_lookup _ _ _ Ht). cbn [bind].
    unfold tensor_device_type, tensor_device. rewrite Hdev. cbn [bind ret].
    change (DeviceType_eqb (device_type (TorchDisk dir)) DISK) with true.
    cbv iota. rewrite Hdata. unfold w'. cbn [files].
    rewrite lookup_insert_eq. reflexivity. }
  split; [|split; [|split]].
  - unfold TorchTensor_load_from_np.
    rewrite (get_tensor_lookup _ _ _ Ht). cbn [bind].
    unfold tensor_device_type, tensor_device. rewrite Hdev. cbn [bind ret].
    change (DeviceType_eqb (device_type (TorchDisk dir)) DISK) with true.
    cbv iota. rewrite Hdata. reflexivity.
  - intros filename Hfile. unfold TorchTensor_load_from_np_file.
    rewrite (get_tensor_lookup _ _ _ Ht). cbn [bind].
    unfold tensor_device_type, tensor_device. rewrite Hdev. cbn [bind ret].
    change (DeviceType_eqb (device_type (TorchDisk dir)) DISK) with true.
    cbv iota. rewrite Hdata, Hfile. reflexivity.
  - exact Hread.
  - intros d td cpu_name pinned Hd Hddev Hddata.
    unfold copy_task. cbn [src dst src_indices dst_indices].
    rewrite Hread. cbn [bind].
    unfold map_to_torch_tensor.
    change (get_tensor w' ?x) with (get_tensor w x).
    rewrite (get_tensor_lookup _ _ _ Hd), (get_tensor_lookup _ _ _ Ht).
    cbn [bind].
    unfold tensor_device_type, tensor_device. rewrite Hddev, Hdev.
    cbn [bind ret device_type].
    change (DeviceType_eqb CPU DISK) with false.
    change (DeviceType_eqb DISK CUDA) with false.
    change (DeviceType_eqb CPU CUDA) with false.
    cbv iota. rewrite Hddata. cbn [view_shape bind ret orb]. reflexivity.
Qed.

(** An array of shape (3, 3) is loaded into the (7, 20, 4) disk tensor of
    [copy_world]; the copy into the (7, 20, 4) CPU tensor, which would have
    gone through before, now fails in the worker. *)
Lemma disk_load_defers_shape_check_witness :
  exists w',
    TorchTensor_load_from_np (fun w _ _ => inr w) copy_world 0%nat [3; 3]
    = inr w' /\
    copy_task copy_world good_copy = inr tt /\
    copy_task w' good_copy = inl RuntimeError.
Proof.
  destruct (disk_load_defers_shape_check (fun w _ _ => inr w) copy_world
              0%nat _ "/offload" "/offload/t_0" [3; 3]
              eq_refl eq_refl eq_refl) as (Hload & _ & _ & Htask).
  eexists. split; [exact Hload |]. split; [reflexivity |].
  exact (Htask 4%nat _ "cpu" true eq_refl eq_refl eq_refl).
Defined.
